(** * Othello board engine and negamax search: a shallow embedding

    The development follows the three source modules:
    - [game/api.py]   : [Color], [Tile], [Score], [Move];
    - [game/board.py] : [BoardRow], [ListImplementedBoard];
    - [game/ai.py]    : [NegaMaxPlayer].

    Python integers are [Z].  Python lists are Rocq lists, indexed the way
    Python indexes them ([getitem], [setitem]: negative indices count from
    the end, anything else out of range raises [IndexError]).  A raised
    exception is a value of [Exc]; Python's [None] is [option]'s [None]. *)

From Stdlib Require Import ZArith Lia.
From stdpp Require Import base numbers option list gmap.

Open Scope Z_scope.

(** ** Exceptions *)

Inductive exn := IndexError | AttributeError | TypeError.

Inductive Exc (A : Type) : Type :=
| Ok (a : A)
| Raise (e : exn).
Arguments Ok {A} a.
Arguments Raise {A} e.

Definition ebind {A B} (m : Exc A) (k : A → Exc B) : Exc B :=
  match m with
  | Ok a => k a
  | Raise e => Raise e
  end.

Global Instance Exc_bind : MBind Exc := fun A B k m => ebind m k.
Global Instance Exc_ret : MRet Exc := @Ok.

(** ** Python list indexing *)

Definition py_index (len : nat) (i : Z) : option nat :=
  if (0 <=? i) && (i <? Z.of_nat len) then Some (Z.to_nat i)
  else if (i <? 0) && (- Z.of_nat len <=? i) then Some (Z.to_nat (Z.of_nat len + i))
  else None.

Definition getitem {A} (l : list A) (i : Z) : Exc A :=
  match py_index (length l) i with
  | Some n => match l !! n with Some a => Ok a | None => Raise IndexError end
  | None => Raise IndexError
  end.

Definition setitem {A} (l : list A) (i : Z) (v : A) : Exc (list A) :=
  match py_index (length l) i with
  | Some n => Ok (<[n:=v]> l)
  | None => Raise IndexError
  end.

(** [enumerate(l)] *)
Definition enumerate {A} (l : list A) : list (Z * A) :=
  imap (fun i a => (Z.of_nat i, a)) l.

(** ** game/api.py *)

Module Color.
Inductive t := BLACK | WHITE.

Global Instance color_eq_dec : EqDecision t.
Proof. solve_decision. Defined.

Definition other (self : t) : t :=
  match self with
  | WHITE => BLACK
  | _ => WHITE
  end.
End Color.

Module Tile.
Inductive t := EMPTY | BLACK | WHITE | TIP.

Global Instance tile_eq_dec : EqDecision t.
Proof. solve_decision. Defined.

Definition color (self : t) : option Color.t :=
  match self with
  | EMPTY => None
  | BLACK => Some Color.BLACK
  | WHITE => Some Color.WHITE
  | TIP => None
  end.

(** [for_color] is also called with [None] (the [_next_to_move] of a
    finished board); anything that is not [Color.BLACK] gives [WHITE]. *)
Definition for_color (color : option Color.t) : t :=
  match color with
  | Some Color.BLACK => BLACK
  | _ => WHITE
  end.

Definition other (self : t) : t :=
  match color self with
  | None => self
  | Some _ => match self with WHITE => BLACK | _ => WHITE end
  end.
End Tile.

Record Score := mkScore {
  black_stones : Z;
  white_stones : Z;
  score_next_to_move : option Color.t
}.

Definition winning_color (self : Score) : option Color.t :=
  if black_stones self =? white_stones self then None
  else Some (if black_stones self >? white_stones self then Color.BLACK else Color.WHITE).

(** [Move.color] is whatever [Tile.color] gave, hence an [option]. *)
Record Move := mkMove {
  move_color : option Color.t;
  move_x : Z;
  move_y : Z
}.

Global Instance Score_eq_dec : EqDecision Score.
Proof. solve_decision. Defined.

Global Instance Move_eq_dec : EqDecision Move.
Proof. solve_decision. Defined.

Definition is_skip (self : Move) : bool := move_x self <? 0.

Definition create_skip (color : option Color.t) : Move := mkMove color (-1) (-1).

(** ** game/board.py: the grid *)

Abbreviation BoardRow := (list Tile.t).
Abbreviation Grid := (list (list Tile.t)).

(** [BoardRow(tiles)]: a copy of [tiles], or eight empty tiles when
    [tiles] is falsy (the empty list). *)
Definition BoardRow_init (tiles : list Tile.t) : BoardRow :=
  match tiles with
  | [] => replicate 8 Tile.EMPTY
  | _ => tiles
  end.

(** The grid is well formed when it has eight rows of eight tiles, which
    is what [ListImplementedBoard()] builds.  On such a grid the row and
    cell reads of [get_tile], [_find_tiles] and [_find_neighbour_tiles]
    stay inside the lists; the reads below are written for that case. *)
Definition wf_grid (g : Grid) : Prop :=
  length g = 8%nat ∧ Forall (fun row => length row = 8%nat) g.

Definition cell (g : Grid) (x y : Z) : option Tile.t :=
  match g !! Z.to_nat x with
  | Some row => row !! Z.to_nat y
  | None => None
  end.

Definition get_tile (g : Grid) (x y : Z) : option Tile.t :=
  if (x <? 0) || (x >? 7) || (y <? 0) || (y >? 7) then None
  else cell g x y.

(** [self[x][y] = tile] *)
Definition set_tile (g : Grid) (x y : Z) (tile : Tile.t) : Exc Grid :=
  row ← getitem g x;
  row' ← setitem row y tile;
  setitem g x row'.

Definition _find_tiles (g : Grid) (tile : Tile.t) : list (Z * Z) :=
  flat_map (fun '(x, row) =>
    flat_map (fun '(y, cell_tile) =>
      if decide (cell_tile = tile) then [(x, y)] else [])
      (enumerate row))
    (enumerate g).

(** The cells [_find_neighbour_tiles] looks at, in the order it yields. *)
Definition neighbour_cells (x y : Z) : list (Z * Z) :=
  flat_map (fun dx =>
    let other_x := x + dx in
    if (0 <=? other_x) && (other_x <=? 7) then
      flat_map (fun dy =>
        let other_y := y + dy in
        if (0 <=? other_y) && (other_y <=? 7) then [(other_x, other_y)] else [])
        (if dx =? 0 then [-1; 1] else [-1; 0; 1])
    else [])
    [-1; 0; 1].

Definition _find_neighbour_tiles (g : Grid) (x y : Z) (tile : Tile.t) : list (Z * Z) :=
  filter (fun p => cell g p.1 p.2 = Some tile) (neighbour_cells x y).

(** The [while (t := self.get_tile(x, y)) == other_tile] loop: the cell it
    stops on and the tile read there.  No ray on the board is longer than
    eight cells; [walk_fuel] shows that eight rounds reach the exit. *)
Fixpoint walk (fuel : nat) (g : Grid) (other_tile : Tile.t) (x y dx dy : Z)
  : Z * Z * option Tile.t :=
  let stepping_tile := get_tile g x y in
  match fuel with
  | O => (x, y, stepping_tile)
  | S fuel' =>
      if decide (stepping_tile = Some other_tile)
      then walk fuel' g other_tile (x + dx) (y + dy) dx dy
      else (x, y, stepping_tile)
  end.

Definition RAY : nat := 8.

(** ** game/board.py: [ListImplementedBoard] as a value

    A board whose rows are shared with no other board, which is what
    [_clone] produces; the objects, held by reference, and their aliasing
    are modelled further down (the object store). *)

Record Board := mkBoard {
  _tiles : Grid;
  _next_to_move : option Color.t;
  _score : option Score;
  _empty_count : Z
}.

Definition set_tiles (g : Grid) (b : Board) : Board :=
  mkBoard g (_next_to_move b) (_score b) (_empty_count b).
Definition set_next_to_move (c : option Color.t) (b : Board) : Board :=
  mkBoard (_tiles b) c (_score b) (_empty_count b).
Definition set_score (s : option Score) (b : Board) : Board :=
  mkBoard (_tiles b) (_next_to_move b) s (_empty_count b).
Definition set_empty_count (n : Z) (b : Board) : Board :=
  mkBoard (_tiles b) (_next_to_move b) (_score b) n.

(** [ListImplementedBoard()] *)
Definition ListImplementedBoard_init : Board :=
  mkBoard (replicate 8 (BoardRow_init [])) (Some Color.BLACK) None 64.

Definition clear (self : Board) : Exc Board :=
  g ← set_tile (_tiles self) 3 3 Tile.WHITE;
  g ← set_tile g 4 4 Tile.WHITE;
  g ← set_tile g 3 4 Tile.BLACK;
  g ← set_tile g 4 3 Tile.BLACK;
  Ok (set_empty_count 60 (set_tiles g self)).

Definition finished (self : Board) : bool :=
  match _next_to_move self with None => true | Some _ => false end.

Definition count_tile (g : Grid) (tile : Tile.t) : Z :=
  Z.of_nat (length (filter (fun c => c = tile) (concat g))).

(** The [score] property: the cached value when there is one. *)
Definition score (self : Board) : Score :=
  match _score self with
  | Some s => s
  | None => mkScore (count_tile (_tiles self) Tile.BLACK)
                    (count_tile (_tiles self) Tile.WHITE)
                    (_next_to_move self)
  end.

(** Reading [score] leaves the value in the cache. *)
Definition score_cached (self : Board) : Board := set_score (Some (score self)) self.

(** The loop of [_valid_moves_for] over the neighbours of one origin. *)
Fixpoint scan_origin (g : Grid) (tile other_tile stop : Tile.t) (add_start : bool)
    (origin_x origin_y : Z) (neighbours : list (Z * Z)) : list Move :=
  match neighbours with
  | [] => []
  | (other_x, other_y) :: rest =>
      let dx := other_x - origin_x in
      let dy := other_y - origin_y in
      let '(x, y, stepping_tile) := walk RAY g other_tile (other_x + dx) (other_y + dy) dx dy in
      if decide (stepping_tile = Some stop) then
        if add_start then [mkMove (Tile.color tile) origin_x origin_y]
        else mkMove (Tile.color tile) x y
             :: scan_origin g tile other_tile stop add_start origin_x origin_y rest
      else scan_origin g tile other_tile stop add_start origin_x origin_y rest
  end.

Definition ray_scan (g : Grid) (tile start stop : Tile.t) (add_start : bool) : list Move :=
  let other_tile := Tile.other tile in
  flat_map (fun '(origin_x, origin_y) =>
    scan_origin g tile other_tile stop add_start origin_x origin_y
      (_find_neighbour_tiles g origin_x origin_y other_tile))
    (_find_tiles g start).

Definition _valid_moves_for (self : Board) (tile : Tile.t) : list Move :=
  if _empty_count self <? 50
  then ray_scan (_tiles self) tile Tile.EMPTY tile true
  else ray_scan (_tiles self) tile tile Tile.EMPTY false.

Definition valid_moves (self : Board) : list Move :=
  let tile := Tile.for_color (_next_to_move self) in
  match _valid_moves_for self tile with
  | [] =>
      match _valid_moves_for self (Tile.other tile) with
      | [] => []
      | _ => [create_skip (Tile.color tile)]
      end
  | moves => moves
  end.

(** The [while] loop of [_apply_destructive] that gathers the run to
    turn; eight rounds reach its exit ([collect_path_fuel]). *)
Fixpoint collect_path (fuel : nat) (g : Grid) (other : Tile.t) (x y dx dy : Z)
    (path : list (Z * Z)) : list (Z * Z) * option Tile.t :=
  let ending_tile := get_tile g x y in
  match fuel with
  | O => (path, ending_tile)
  | S fuel' =>
      if decide (ending_tile = Some other)
      then collect_path fuel' g other (x + dx) (y + dy) dx dy (path ++ [(x, y)])
      else (path, ending_tile)
  end.

Definition paint (tile : Tile.t) (path : list (Z * Z)) (g : Grid) : Exc Grid :=
  foldl (fun acc item => g' ← acc; set_tile g' item.1 item.2 tile) (Ok g) path.

(** One round of the [for other_x, other_y in ...] loop of
    [_apply_destructive].  The generator is consumed while the grid is
    being written, so the neighbour test reads the current grid. *)
Definition flip_direction (tile other : Tile.t) (move_x move_y : Z)
    (acc : Exc Grid) (nb : Z * Z) : Exc Grid :=
  g ← acc;
  let '(other_x, other_y) := nb in
  if decide (cell g other_x other_y = Some other) then
    let dx := other_x - move_x in
    let dy := other_y - move_y in
    let '(path, ending_tile) :=
      collect_path RAY g other (other_x + dx) (other_y + dy) dx dy [(other_x, other_y)] in
    if decide (Some tile = ending_tile) then paint tile path g else Ok g
  else Ok g.

Definition _apply_destructive (self : Board) (move : Move) : Exc Board :=
  match move_color move with
  | None => Raise AttributeError
  | Some color =>
      let self := set_next_to_move (Some (Color.other color)) self in
      if is_skip move then Ok self
      else
        let tile := Tile.for_color (Some color) in
        let other := Tile.other tile in
        g ← set_tile (_tiles self) (move_x move) (move_y move) tile;
        let self := set_empty_count (_empty_count self - 1) (set_tiles g self) in
        g ← foldl (flip_direction tile other (move_x move) (move_y move)) (Ok g)
              (neighbour_cells (move_x move) (move_y move));
        let self := set_tiles g self in
        let self := match valid_moves self with
                    | [] => set_next_to_move None self
                    | _ => self
                    end in
        Ok (set_score None self)
  end.

Definition _clone (self : Board) : Board :=
  mkBoard (map BoardRow_init (_tiles self)) (_next_to_move self) None (_empty_count self).

Definition apply (self : Board) (move : Move) : Exc Board :=
  _apply_destructive (_clone self) move.

(** ** game/ai.py *)

Definition SCORE_MATRIX : list (list Z) :=
  [[20;  5;  5;  5];
   [ 5; -2; -1; -1];
   [ 5; -1;  0;  0];
   [ 5; -1;  0;  0]].

Definition neg (i : option Z) : option Z :=
  match i with
  | None => None
  | Some i => Some (- i)
  end.

Record NegamaxResult := mkResult {
  nr_score : option Z;
  nr_move : option Move
}.

(** [depth] is [int(depth)]; it is a natural number here, the depths at
    which the search counts down to its base case. *)
Record NegaMaxPlayer := mkPlayer {
  player_color : Color.t;
  depth : nat;
  _matrix : list (list Z);
  _last_score : option Z
}.

(** [NegaMaxPlayer(color, depth, score_matrix)]; [score_matrix or
    SCORE_MATRIX] takes the default for [None] and for the empty list. *)
Definition NegaMaxPlayer_init (color : Color.t) (depth : nat)
    (score_matrix : option (list (list Z))) : NegaMaxPlayer :=
  let corner := match score_matrix with
                | None | Some [] => SCORE_MATRIX
                | Some m => m
                end in
  let top_half_matrix := map (fun row => row ++ reverse row) corner in
  mkPlayer color depth (top_half_matrix ++ reverse top_half_matrix) None.

Section Search.
Variable matrix : list (list Z).

Definition _evaluate_heuristic (board : Board) (color : option Color.t) : Z :=
  let my_tile := Tile.for_color color in
  let other_tile := Tile.other my_tile in
  foldl (fun score '(row, score_row) =>
    foldl (fun score '(tile, tile_score) =>
      if decide (tile = my_tile) then score + tile_score
      else if decide (tile = other_tile) then score - tile_score
      else score)
      score (zip row score_row))
    0 (zip (_tiles board) matrix).

Definition _evaluate (board : Board) (color : option Color.t) : Z :=
  if finished board then
    match winning_color (score board) with
    | None => 0
    | Some winner => if decide (color = Some winner) then 999 else -999
    end
  else _evaluate_heuristic board color.

(** [list.sort(key=lambda t: t[0], reverse=True)]: stable, largest key
    first. *)
Fixpoint insert_desc {A} (item : Z * A) (l : list (Z * A)) : list (Z * A) :=
  match l with
  | [] => [item]
  | head :: tail =>
      if head.1 <=? item.1 then item :: head :: tail
      else head :: insert_desc item tail
  end.

Definition sort_desc {A} (l : list (Z * A)) : list (Z * A) :=
  foldr insert_desc [] l.

Fixpoint with_preference (moves : list Move) : Exc (list (Z * Move)) :=
  match moves with
  | [] => Ok []
  | move :: rest =>
      row ← getitem matrix (move_x move);
      w ← getitem row (move_y move);
      items ← with_preference rest;
      Ok ((w, move) :: items)
  end.

(** The [for item in moves_with_preference] loop; [recurse] is the
    search one level down. *)
Fixpoint search_loop
    (recurse : Board → option Z → option Z → option Color.t → Exc NegamaxResult)
    (board : Board) (color : option Color.t) (beta : option Z)
    (items : list (Z * Move))
    (value : option Z) (best_move : option Move) (alpha : option Z)
  : Exc NegamaxResult :=
  match items with
  | [] => Ok (mkResult value best_move)
  | item :: rest =>
      let move := item.2 in
      child ← apply board move;
      other ← match color with
              | Some c => Ok (Color.other c)
              | None => Raise AttributeError
              end;
      r ← recurse child (neg beta) (neg alpha) (Some other);
      child_score ← match nr_score r with
                    | Some s => Ok s
                    | None => Raise TypeError
                    end;
      let item_score := - child_score in
      let '(value', best_move') :=
        match value with
        | Some v => if item_score >? v then (item_score, Some move) else (v, best_move)
        | None => (item_score, Some move)
        end in
      let alpha' :=
        match alpha with
        | Some a => if value' >? a then value' else a
        | None => value'
        end in
      if match beta with Some b => alpha' >=? b | None => false end
      then Ok (mkResult (Some value') best_move')
      else search_loop recurse board color beta rest (Some value') best_move' (Some alpha')
  end.

Fixpoint _negamax (depth : nat) (board : Board) (alpha beta : option Z)
    (color : option Color.t) : Exc NegamaxResult :=
  match depth with
  | O => Ok (mkResult (Some (_evaluate board color)) None)
  | S depth' =>
      if finished board then Ok (mkResult (Some (_evaluate board color)) None)
      else
        match valid_moves board with
        | [] => Ok (mkResult (Some (_evaluate board color)) None)
        | valid_moves =>
            moves_with_preference ← with_preference valid_moves;
            search_loop (_negamax depth') board color beta
              (sort_desc moves_with_preference) None None alpha
        end
  end.

Fixpoint score_moves_loop (depth : nat) (board : Board) (moves : list Move)
  : Exc (list NegamaxResult) :=
  match moves with
  | [] => Ok []
  | move :: rest =>
      child ← apply board move;
      other ← match _next_to_move board with
              | Some c => Ok (Color.other c)
              | None => Raise AttributeError
              end;
      r ← _negamax depth child None None (Some other);
      s ← match nr_score r with
          | Some s => Ok s
          | None => Raise TypeError
          end;
      result ← score_moves_loop depth board rest;
      Ok (mkResult (Some (- s)) (Some move) :: result)
  end.
End Search.

Definition score_moves (self : NegaMaxPlayer) (board : Board) : Exc (list NegamaxResult) :=
  score_moves_loop (_matrix self) (depth self) board (valid_moves board).

(** [next_move] returns the move and leaves the score in [_last_score]. *)
Definition next_move (self : NegaMaxPlayer) (board : Board)
  : Exc (option Move * NegaMaxPlayer) :=
  negamax ← _negamax (_matrix self) (depth self) board None None (_next_to_move board);
  Ok (nr_move negamax,
      mkPlayer (player_color self) (depth self) (_matrix self) (nr_score negamax)).

(** ** The object store

    [BoardRow] and [ListImplementedBoard] objects are mutable and are held
    by reference.  The store maps a reference to the object's current
    state; a board object holds the references of its rows.  (The outer
    list [_tiles] is never written after construction and is kept as a
    value.)  A computation takes the store and returns the store it
    leaves, also when it raises. *)

Abbreviation ref := nat (only parsing).

Record BoardObj := mkObj {
  o_tiles : list ref;
  o_next_to_move : option Color.t;
  o_score : option Score;
  o_empty_count : Z
}.

Record Store := mkStore {
  st_rows : gmap ref BoardRow;
  st_boards : gmap ref BoardObj
}.

Definition ST (A : Type) : Type := Store → Exc A * Store.

Definition st_ret {A} (a : A) : ST A := fun h => (Ok a, h).
Definition st_raise {A} (e : exn) : ST A := fun h => (Raise e, h).
Definition st_bind {A B} (m : ST A) (k : A → ST B) : ST B :=
  fun h => match m h with
           | (Ok a, h') => k a h'
           | (Raise e, h') => (Raise e, h')
           end.
Definition st_lift {A} (m : Exc A) : ST A := fun h => (m, h).

Global Instance ST_bind : MBind ST := fun A B k m => st_bind m k.
Global Instance ST_ret : MRet ST := @st_ret.

(** A reference that is not in the store: no Python program holds one. *)
Definition dangling {A} : ST A := st_raise AttributeError.

Definition read_row (r : ref) : ST BoardRow :=
  fun h => match st_rows h !! r with
           | Some row => (Ok row, h)
           | None => dangling h
           end.

Definition write_row (r : ref) (row : BoardRow) : ST unit :=
  fun h => (Ok tt, mkStore (<[r:=row]> (st_rows h)) (st_boards h)).

Definition new_row (row : BoardRow) : ST ref :=
  fun h => let r := fresh (dom (st_rows h)) in
           (Ok r, mkStore (<[r:=row]> (st_rows h)) (st_boards h)).

Definition read_board (self : ref) : ST BoardObj :=
  fun h => match st_boards h !! self with
           | Some o => (Ok o, h)
           | None => dangling h
           end.

Definition write_board (self : ref) (o : BoardObj) : ST unit :=
  fun h => (Ok tt, mkStore (st_rows h) (<[self:=o]> (st_boards h))).

Definition new_board (o : BoardObj) : ST ref :=
  fun h => let r := fresh (dom (st_boards h)) in
           (Ok r, mkStore (st_rows h) (<[r:=o]> (st_boards h))).

Fixpoint st_for {A} (body : A → ST unit) (l : list A) : ST unit :=
  match l with
  | [] => st_ret tt
  | a :: rest => _ ← body a; st_for body rest
  end.

Fixpoint st_map {A B} (f : A → ST B) (l : list A) : ST (list B) :=
  match l with
  | [] => st_ret []
  | a :: rest => b ← f a; bs ← st_map f rest; st_ret (b :: bs)
  end.

Module Obj.
(** The grid and the board value that the object [self] holds now. *)
Definition grid (self : ref) : ST Grid :=
  o ← read_board self; st_map read_row (o_tiles o).

Definition load (self : ref) : ST Board :=
  o ← read_board self;
  g ← st_map read_row (o_tiles o);
  st_ret (mkBoard g (o_next_to_move o) (o_score o) (o_empty_count o)).

(** [self[x][y] = tile] *)
Definition set_tile (self : ref) (x y : Z) (tile : Tile.t) : ST unit :=
  o ← read_board self;
  r ← st_lift (getitem (o_tiles o) x);
  row ← read_row r;
  row' ← st_lift (setitem row y tile);
  write_row r row'.

Definition set_next_to_move (self : ref) (c : option Color.t) : ST unit :=
  o ← read_board self;
  write_board self (mkObj (o_tiles o) c (o_score o) (o_empty_count o)).

Definition set_score (self : ref) (s : option Score) : ST unit :=
  o ← read_board self;
  write_board self (mkObj (o_tiles o) (o_next_to_move o) s (o_empty_count o)).

Definition set_empty_count (self : ref) (n : Z) : ST unit :=
  o ← read_board self;
  write_board self (mkObj (o_tiles o) (o_next_to_move o) (o_score o) n).

(** [ListImplementedBoard(tiles)] followed by the two assignments of
    [_clone]. *)
Definition _clone (self : ref) : ST ref :=
  o ← read_board self;
  tiles ← st_map (fun r => row ← read_row r; new_row (BoardRow_init row)) (o_tiles o);
  new_board (mkObj tiles (o_next_to_move o) None (o_empty_count o)).

Definition flip_direction (self : ref) (tile other : Tile.t) (move_x move_y : Z)
    (nb : Z * Z) : ST unit :=
  g ← grid self;
  let '(other_x, other_y) := nb in
  if decide (cell g other_x other_y = Some other) then
    let dx := other_x - move_x in
    let dy := other_y - move_y in
    let '(path, ending_tile) :=
      collect_path RAY g other (other_x + dx) (other_y + dy) dx dy [(other_x, other_y)] in
    if decide (Some tile = ending_tile)
    then st_for (fun item => set_tile self item.1 item.2 tile) path
    else st_ret tt
  else st_ret tt.

Definition _apply_destructive (self : ref) (move : Move) : ST ref :=
  match move_color move with
  | None => st_raise AttributeError
  | Some color =>
      _ ← set_next_to_move self (Some (Color.other color));
      if is_skip move then st_ret self
      else
        let tile := Tile.for_color (Some color) in
        let other := Tile.other tile in
        _ ← set_tile self (move_x move) (move_y move) tile;
        o ← read_board self;
        _ ← set_empty_count self (o_empty_count o - 1);
        _ ← st_for (flip_direction self tile other (move_x move) (move_y move))
              (neighbour_cells (move_x move) (move_y move));
        b ← load self;
        _ ← match valid_moves b with
            | [] => set_next_to_move self None
            | _ => st_ret tt
            end;
        _ ← set_score self None;
        st_ret self
  end.

Definition apply (self : ref) (move : Move) : ST ref :=
  clone ← _clone self;
  _apply_destructive clone move.

(** Storing a board value as a fresh object with rows of its own. *)
Definition store (b : Board) : ST ref :=
  tiles ← st_map new_row (_tiles b);
  new_board (mkObj tiles (_next_to_move b) (_score b) (_empty_count b)).
End Obj.

Definition empty_store : Store := mkStore ∅ ∅.


(** ** Notions used to state the properties *)

(** The eight directions. *)
Definition is_dir (dx dy : Z) : Prop :=
  (-1 <= dx <= 1) ∧ (-1 <= dy <= 1) ∧ ¬ (dx = 0 ∧ dy = 0).

Definition stone (tile : Tile.t) : Prop := tile = Tile.BLACK ∨ tile = Tile.WHITE.

(** The [k] cells after [(x, y)] in direction [(dx, dy)] all hold [o]. *)
Definition run (g : Grid) (o : Tile.t) (x y dx dy k : Z) : Prop :=
  ∀ i, 1 <= i <= k → get_tile g (x + i * dx) (y + i * dy) = Some o.

(** A ray seeded at the empty cell [(x, y)] crosses at least one stone of
    the opponent and ends on a stone of the mover; the seed is the
    destination. *)
Definition seeded_at_empty (g : Grid) (tile : Tile.t) (x y : Z) : Prop :=
  get_tile g x y = Some Tile.EMPTY ∧
  ∃ dx dy k, is_dir dx dy ∧ 1 <= k ∧ run g (Tile.other tile) x y dx dy k ∧
    get_tile g (x + (k + 1) * dx) (y + (k + 1) * dy) = Some tile.

(** A ray seeded at a stone of the mover crosses at least one stone of the
    opponent and ends on the empty cell [(x, y)]; the end is the
    destination. *)
Definition seeded_at_stone (g : Grid) (tile : Tile.t) (x y : Z) : Prop :=
  ∃ sx sy dx dy k,
    get_tile g sx sy = Some tile ∧ is_dir dx dy ∧ 1 <= k ∧
    run g (Tile.other tile) sx sy dx dy k ∧
    x = sx + (k + 1) * dx ∧ y = sy + (k + 1) * dy ∧
    get_tile g x y = Some Tile.EMPTY.

(** The Othello rule: [tile] may be placed on [(x, y)]. *)
Definition legal_cell (g : Grid) (tile : Tile.t) (x y : Z) : Prop :=
  seeded_at_empty g tile x y.

Definition can_capture (g : Grid) (color : Color.t) : Prop :=
  ∃ x y, legal_cell g (Tile.for_color (Some color)) x y.

Definition wf_board (b : Board) : Prop := wf_grid (_tiles b).

Definition on_board (p : Z * Z) : Prop := 0 <= p.1 <= 7 ∧ 0 <= p.2 <= 7.

(** A move of the data model: a skip, or a cell of the board. *)
Definition wf_move (m : Move) : Prop :=
  is_Some (move_color m) ∧ (is_skip m = true ∨ on_board (move_x m, move_y m)).

(** The opening position. *)
Definition opening_board : Board :=
  let e := Tile.EMPTY in
  mkBoard
    [[e; e; e; e; e; e; e; e];
     [e; e; e; e; e; e; e; e];
     [e; e; e; e; e; e; e; e];
     [e; e; e; Tile.WHITE; Tile.BLACK; e; e; e];
     [e; e; e; Tile.BLACK; Tile.WHITE; e; e; e];
     [e; e; e; e; e; e; e; e];
     [e; e; e; e; e; e; e; e];
     [e; e; e; e; e; e; e; e]]
    (Some Color.BLACK) None 60.

(** Boards of a game: the opening, then moves taken from [valid_moves]. *)
Inductive reachable : Board → Prop :=
| reach_opening : reachable opening_board
| reach_apply b m b' :
    reachable b → m ∈ valid_moves b → apply b m = Ok b' → reachable b'.

(** The position after black plays (3, 2) and white answers (4, 2). *)
Definition doubled_board : Board :=
  let e := Tile.EMPTY in
  mkBoard
    [[e; e; e; e; e; e; e; e];
     [e; e; e; e; e; e; e; e];
     [e; e; e; e; e; e; e; e];
     [e; e; Tile.BLACK; Tile.BLACK; Tile.BLACK; e; e; e];
     [e; e; Tile.WHITE; Tile.WHITE; Tile.WHITE; e; e; e];
     [e; e; e; e; e; e; e; e];
     [e; e; e; e; e; e; e; e];
     [e; e; e; e; e; e; e; e]]
    (Some Color.BLACK) None 58.

(** A position where black must pass: white holds the corner next to it.
    Built by [ListImplementedBoard(tiles)], which leaves the counter at 64. *)
Definition pass_board : Board :=
  let e := Tile.EMPTY in
  mkBoard
    [[Tile.WHITE; Tile.BLACK; e; e; e; e; e; e];
     [e; e; e; e; e; e; e; e];
     [e; e; e; e; e; e; e; e];
     [e; e; e; e; e; e; e; e];
     [e; e; e; e; e; e; e; e];
     [e; e; e; e; e; e; e; e];
     [e; e; e; e; e; e; e; e];
     [e; e; e; e; e; e; e; e]]
    (Some Color.BLACK) None 64.

(** The grid after [tile] is put on [(x, y)] and the bracketed runs are
    turned: the writes of [_apply_destructive], in its order. *)
Definition place (g : Grid) (tile : Tile.t) (x y : Z) : Exc Grid :=
  g0 ← set_tile g x y tile;
  foldl (flip_direction tile (Tile.other tile) x y) (Ok g0) (neighbour_cells x y).

(** The threshold as the specification words it: empty-seeded above 50
    empty cells, stone-seeded at 50 and below. *)
Definition seeding_as_specified (b : Board) (tile : Tile.t) : Prop :=
  (50 < count_tile (_tiles b) Tile.EMPTY →
   _valid_moves_for b tile = ray_scan (_tiles b) tile Tile.EMPTY tile true) ∧
  (count_tile (_tiles b) Tile.EMPTY <= 50 →
   _valid_moves_for b tile = ray_scan (_tiles b) tile tile Tile.EMPTY false).

(** The move [next_move] returns. *)
Definition chosen_move (self : NegaMaxPlayer) (board : Board) : Exc (option Move) :=
  r ← next_move self board; Ok r.1.

(** The score [next_move] leaves in [_last_score]. *)
Definition chosen_score (self : NegaMaxPlayer) (board : Board) : Exc (option Z) :=
  r ← next_move self board; Ok (_last_score r.2).

(** ** Notions used to state alpha-beta pruning *)

(** Bounds with [None] for "no bound": [lt_lo alpha v] reads alpha < v and
    [lt_hi v beta] reads v < beta. *)
Definition lt_lo (alpha : option Z) (v : Z) : Prop :=
  match alpha with Some a => a < v | None => True end.

Definition lt_hi (v : Z) (beta : option Z) : Prop :=
  match beta with Some b => v < b | None => True end.

Definition window (alpha beta : option Z) : Prop :=
  match alpha, beta with Some a, Some b => a < b | _, _ => True end.

(** What a fail-soft search promises about its result [r] when the exact
    value is [v]: exact inside the window, a bound outside. *)
Definition fail_soft (alpha beta : option Z) (r v : Z) : Prop :=
  (¬ lt_lo alpha r → v <= r) ∧ (¬ lt_hi r beta → r <= v) ∧
  (lt_lo alpha r → lt_hi r beta → r = v).

Definition opt_max (T : option Z) (t : Z) : Z :=
  match T with None => t | Some x => Z.max x t end.

(** The largest [f a] over [l], starting from [T]. *)
Definition maxl {A} (f : A → Z) (l : list A) (T : option Z) : option Z :=
  foldl (fun T a => Some (opt_max T (f a))) T l.

Definition child (board : Board) (move : Move) : Board :=
  match apply board move with Ok b => b | Raise _ => board end.

(** Negamax without bounds and without pruning: the exact value of the
    position at the given depth. *)
Fixpoint minimax (matrix : list (list Z)) (depth : nat) (board : Board) (color : Color.t) : Z :=
  match depth with
  | O => _evaluate matrix board (Some color)
  | S depth' =>
      if finished board then _evaluate matrix board (Some color)
      else
        match maxl (fun move => - minimax matrix depth' (child board move) (Color.other color))
                (valid_moves board) None with
        | Some v => v
        | None => _evaluate matrix board (Some color)
        end
  end.

(** The first of the ordered moves whose value is [v]. *)
Fixpoint first_best (t : Move → Z) (v : Z) (items : list (Z * Move)) : option Move :=
  match items with
  | [] => None
  | item :: rest => if decide (t item.2 = v) then Some item.2 else first_best t v rest
  end.

Definition wf_matrix (matrix : list (list Z)) : Prop :=
  length matrix = 8%nat ∧ Forall (fun row => length row = 8%nat) matrix.

(** The bound [alpha] after the loop has seen [value]. *)
Definition raised (alpha0 value : option Z) : option Z :=
  match value with
  | None => alpha0
  | Some v => Some (match alpha0 with None => v | Some a => Z.max a v end)
  end.

(** The value of a move for the mover, when [tv] values the position it
    leads to for the opponent. *)
Definition move_value (tv : Board → Z) (board : Board) (move : Move) : Z :=
  - tv (child board move).

(** The move of [item] can be applied and leads to a board in [good]. *)
Definition searchable (good : Board → Prop) (board : Board) (item : Z * Move) : Prop :=
  ∃ ch, apply board item.2 = Ok ch ∧ good ch.

(** The cells [valid_moves] names can be looked up in an 8 x 8 matrix:
    they are on the board, or (-1, -1) for the skip. *)
Definition indexable (m : Move) : Prop := -8 <= move_x m < 8 ∧ -8 <= move_y m < 8.

(** A position, built by [ListImplementedBoard(tiles)], where black can
    take the corner (7, 7) for one stone or the edge cell (0, 3) for two. *)
Definition corner_board : Board :=
  let e := Tile.EMPTY in
  mkBoard
    [[Tile.BLACK; Tile.WHITE; Tile.WHITE; e; e; e; e; e];
     [e; e; e; e; e; e; e; e];
     [e; e; e; e; e; e; e; e];
     [e; e; e; e; e; e; e; e];
     [e; e; e; e; e; e; e; e];
     [e; e; e; e; e; Tile.BLACK; e; e];
     [e; e; e; e; e; e; Tile.WHITE; e];
     [e; e; e; e; e; e; e; e]]
    (Some Color.BLACK) None 64.

(** The weights of a player built without a matrix of its own. *)
Definition default_matrix : list (list Z) :=
  _matrix (NegaMaxPlayer_init Color.BLACK 1 None).

(** Any bounds at the root give the result of no bounds. *)
Definition bounds_never_matter (matrix : list (list Z)) (d : nat) (b : Board)
    (alpha beta : Z) (c : Color.t) : Prop :=
  _negamax matrix d b (Some alpha) (Some beta) (Some c)
  = _negamax matrix d b None None (Some c).

Definition sum_abs (row : list Z) : Z := foldr (fun w acc => Z.abs w + acc) 0 row.

(** The sum of the absolute weights: no heuristic score is further from 0. *)
Definition weight_sum (matrix : list (list Z)) : Z :=
  foldr (fun row acc => sum_abs row + acc) 0 matrix.

(** A bound on every score the search can return with [matrix]. *)
Definition score_bound (matrix : list (list Z)) : Z := Z.max 999 (weight_sum matrix).

(** ** Notions used to state the properties of the object store *)

(** Every object of [h0] is in [h] with the state it had in [h0]. *)
Definition extends (h0 h : Store) : Prop :=
  (∀ r row, st_rows h0 !! r = Some row → st_rows h !! r = Some row) ∧
  (∀ r o, st_boards h0 !! r = Some o → st_boards h !! r = Some o).

(** The object [self] of [h] is a board whose fields and rows read [b]. *)
Definition holds (h : Store) (self : ref) (b : Board) : Prop :=
  ∃ o, st_boards h !! self = Some o ∧
    Forall2 (fun r row => st_rows h !! r = Some row) (o_tiles o) (_tiles b) ∧
    o_next_to_move o = _next_to_move b ∧
    o_score o = _score b ∧
    o_empty_count o = _empty_count b.

(** The same, by rows that are pairwise distinct objects. *)
Definition rep (h : Store) (self : ref) (b : Board) : Prop :=
  ∃ o, st_boards h !! self = Some o ∧ NoDup (o_tiles o) ∧
    Forall2 (fun r row => st_rows h !! r = Some row) (o_tiles o) (_tiles b) ∧
    o_next_to_move o = _next_to_move b ∧
    o_score o = _score b ∧
    o_empty_count o = _empty_count b.

(** The board [c] and its rows were allocated after [h0]. *)
Definition owned (h0 : Store) (c : ref) (h : Store) : Prop :=
  extends h0 h ∧ st_boards h0 !! c = None ∧
  ∃ o, st_boards h !! c = Some o ∧ Forall (fun r => st_rows h0 !! r = None) (o_tiles o).

Definition preserves {A} (I : Store → Prop) (m : ST A) : Prop :=
  ∀ h, I h → I (m h).2.

(** A store with one object, the opening board, at reference 0. *)
Definition opening_store : Store := (Obj.store opening_board empty_store).2.

(** Two boards with the same grid, turn and cached score; the counters of
    empty cells may differ. *)
Definition same_position (b1 b2 : Board) : Prop :=
  _tiles b1 = _tiles b2 ∧ _next_to_move b1 = _next_to_move b2 ∧ _score b1 = _score b2.

(** The counter, which selects the scan, changes no result of the search. *)
Definition counter_never_matters (self : NegaMaxPlayer) (b : Board) (n : Z) : Prop :=
  chosen_move self (set_empty_count n b) = chosen_move self b ∧
  chosen_score self (set_empty_count n b) = chosen_score self b.

(** Playing a list of moves, each taken from [valid_moves]. *)
Fixpoint replay (b : Board) (moves : list Move) : option Board :=
  match moves with
  | [] => Some b
  | m :: rest =>
      if bool_decide (m ∈ valid_moves b) then
        match apply b m with
        | Ok b' => replay b' rest
        | Raise _ => None
        end
      else None
  end.

(** Twelve moves of a game, black first, and the position they lead to. *)
Definition midgame_moves : list Move :=
  let B := mkMove (Some Color.BLACK) in
  let W := mkMove (Some Color.WHITE) in
  [B 2 3; W 4 2; B 5 5; W 2 5; B 5 1; W 5 4; B 5 3; W 5 2; B 4 5; W 5 6; B 6 4; W 3 2].

Definition midgame_board : Board :=
  let e := Tile.EMPTY in
  let B := Tile.BLACK in
  let W := Tile.WHITE in
  mkBoard
    [[e; e; e; e; e; e; e; e];
     [e; e; e; e; e; e; e; e];
     [e; e; e; B; e; W; e; e];
     [e; e; W; B; B; e; e; e];
     [e; e; W; B; B; B; e; e];
     [e; B; W; B; B; W; W; e];
     [e; e; e; e; B; e; e; e];
     [e; e; e; e; e; e; e; e]]
    (Some Color.BLACK) None 48.

(** * Further code of the three modules *)

(** [AI.next_move] of game/api.py: the first of the valid moves. *)
Definition AI_next_move (board : Board) : Exc Move :=
  getitem (valid_moves board) 0.

(** The score of a result, 0 when it has none. *)
Definition score_of (r : NegamaxResult) : Z :=
  match nr_score r with Some s => s | None => 0 end.


(** ** Notions used to state what a move turns *)

(** From [(x, y)], the [k] cells in direction [(dx, dy)] hold stones of the
    opponent of [tile] and the cell after them holds [tile]. *)
Definition bracketed (g : Grid) (tile : Tile.t) (x y dx dy k : Z) : Prop :=
  1 <= k ∧ run g (Tile.other tile) x y dx dy k ∧
  get_tile g (x + (k + 1) * dx) (y + (k + 1) * dy) = Some tile.

(** [(x', y')] lies on the run bracketed from [(x, y)] in direction
    [(dx, dy)]. *)
Definition turned_dir (g : Grid) (tile : Tile.t) (x y dx dy x' y' : Z) : Prop :=
  ∃ k i, bracketed g tile x y dx dy k ∧ 1 <= i <= k ∧ x' = x + i * dx ∧ y' = y + i * dy.

(** [(x', y')] lies on a run bracketed from [(x, y)] in some direction:
    the Othello rule for the stones a move on [(x, y)] turns. *)
Definition turned (g : Grid) (tile : Tile.t) (x y x' y' : Z) : Prop :=
  ∃ dx dy, is_dir dx dy ∧ turned_dir g tile x y dx dy x' y'.

(** The cells one round of the loop of [_apply_destructive] writes: the
    path it gathered when the run ends on [tile], no cell otherwise. *)
Definition captured (g : Grid) (tile : Tile.t) (x y : Z) (nb : Z * Z) : list (Z * Z) :=
  if decide (cell g nb.1 nb.2 = Some (Tile.other tile)) then
    let dx := nb.1 - x in
    let dy := nb.2 - y in
    let '(path, ending_tile) :=
      collect_path RAY g (Tile.other tile) (nb.1 + dx) (nb.2 + dy) dx dy [nb] in
    if decide (Some tile = ending_tile) then path else []
  else [].

(** The weight [matrix[x][y]], for indices counted from the front. *)
Definition weight (matrix : list (list Z)) (x y : nat) : option Z :=
  row ← matrix !! x; row !! y.

(** ** game/api.py: players and [Game] *)

(** What a game can be ended by: an exception of the board engine, the
    [KeyError] of the dictionary of players, or the [InterruptedError] by
    which a player stops the game. *)
Inductive game_exn := Engine (e : exn) | KeyError | InterruptedError.

Inductive GExc (A : Type) : Type :=
| GOk (a : A)
| GRaise (e : game_exn).
Arguments GOk {A} a.
Arguments GRaise {A} e.

(** [Player]: a color and [next_move].  The move may be [None], and the
    call may change the player, also when it raises. *)
Class Player (P : Type) := {
  color_of : P → Color.t;
  player_next_move : P → Board → GExc (option Move) * P
}.

(** [AI], the player that takes the first valid move. *)
Record AI := mkAI {
  ai_color : Color.t;
  ai_last_score : option Z
}.

Definition AI_init (color : Color.t) : AI := mkAI color None.

Global Instance AI_player : Player AI := {|
  color_of := ai_color;
  player_next_move self board :=
    (match AI_next_move board with
     | Ok move => GOk (Some move)
     | Raise e => GRaise (Engine e)
     end, self)
|}.

Global Instance NegaMaxPlayer_player : Player NegaMaxPlayer := {|
  color_of := player_color;
  player_next_move self board :=
    match next_move self board with
    | Ok (move, self') => (GOk move, self')
    | Raise e => (GRaise (Engine e), self)
    end
|}.

(** Players of two classes in one game. *)
Global Instance sum_player {P Q} `{Player P, Player Q} : Player (P + Q) := {|
  color_of p := match p with inl p => color_of p | inr q => color_of q end;
  player_next_move p board :=
    match p with
    | inl p => let '(r, p') := player_next_move p board in (r, inl p')
    | inr q => let '(r, q') := player_next_move q board in (r, inr q')
    end
|}.

Global Instance color_countable : Countable Color.t.
Proof.
  refine (inj_countable'
            (fun c => match c with Color.BLACK => false | Color.WHITE => true end)
            (fun b : bool => if b then Color.WHITE else Color.BLACK) _).
  by intros [].
Defined.

Module Game.
Section Game.
Context {P : Type} `{Player P}.

(** The board type is [ListImplementedBoard], the only one there is. *)
Record t := mk {
  _board : Board;
  _players : gmap Color.t P;
  _last_move : option Move
}.

(** [Game(board_type, players)]: of two players of one color the second
    stays in the dictionary. *)
Definition init (players : P * P) : Exc t :=
  board ← clear ListImplementedBoard_init;
  Ok (mk board (<[color_of players.2 := players.2]> (<[color_of players.1 := players.1]> ∅))
         None).

(** [step] returns the game as the call leaves it, also when it raises.
    No player is stored under [None], the key of a finished board. *)
Definition step (self : t) : GExc bool * t :=
  let board := _board self in
  match _next_to_move board with
  | None => (GRaise KeyError, self)
  | Some c =>
      match _players self !! c with
      | None => (GRaise KeyError, self)
      | Some player =>
          let '(r, player) := player_next_move player board in
          let players := <[c := player]> (_players self) in
          match r with
          | GRaise e => (GRaise e, mk board players (_last_move self))
          | GOk move =>
              let self := mk board players move in
              match move with
              | None => (GRaise (Engine AttributeError), self)
              | Some m =>
                  match apply board m with
                  | Raise e => (GRaise (Engine e), self)
                  | Ok board' => (GOk (negb (finished board')), mk board' players move)
                  end
              end
          end
      end
  end.

Definition done (self : t) : t := self.

(** The [while self.step(): pass] loop; [None] when the rounds run out. *)
Fixpoint loop (fuel : nat) (self : t) : option (GExc unit * t) :=
  match fuel with
  | O => None
  | S fuel' =>
      match step self with
      | (GOk true, self') => loop fuel' self'
      | (GOk false, self') => Some (GOk tt, self')
      | (GRaise e, self') => Some (GRaise e, self')
      end
  end.

(** [run]: [InterruptedError] is swallowed, [done] is called either way. *)
Definition run (fuel : nat) (self : t) : option (GExc unit * t) :=
  match loop fuel self with
  | None => None
  | Some (GRaise InterruptedError, self') => Some (GOk tt, done self')
  | Some (r, self') => Some (r, done self')
  end.
End Game.
Arguments t P : clear implicits.
End Game.

(** Twice the counter of empty cells, plus one when the color to move has
    to pass: a bound on the moves a game can still take. *)
Definition moves_left (b : Board) : Z :=
  2 * _empty_count b
  + match _valid_moves_for b (Tile.for_color (_next_to_move b)) with
    | [] => 1
    | _ => 0
    end.

(** The board is one of a game, and each color has a player in [good]. *)
Definition seated {P} `{Player P} (good : P → Prop) (g : Game.t P) : Prop :=
  reachable (Game._board g) ∧
  ∀ c, ∃ p, Game._players g !! c = Some p ∧ color_of p = c ∧ good p.

(** The players of the repository that return a valid move whenever there
    is one: every [AI], and a [NegaMaxPlayer] that searches at least one
    level deep with weights for an 8 x 8 board. *)
Definition moves_well (p : AI + NegaMaxPlayer) : Prop :=
  match p with
  | inl _ => True
  | inr p => wf_matrix (_matrix p) ∧ depth p ≠ O
  end.

(** The weight by which [_negamax] orders a move, [self._matrix[move.x][move.y]]. *)
Definition preference (matrix : list (list Z)) (move : Move) : Exc Z :=
  row ← getitem matrix (move_x move);
  getitem row (move_y move).

(** Largest weight first. *)
Fixpoint sorted_desc {A} (l : list (Z * A)) : Prop :=
  match l with
  | [] => True
  | a :: rest => Forall (fun b => b.1 <= a.1) rest ∧ sorted_desc rest
  end.
(** * Properties *)

(** ** Indexing *)

Lemma py_index_inside (len : nat) (i : Z) :
  0 <= i < Z.of_nat len → py_index len i = Some (Z.to_nat i).
Proof.
  intros Hi. unfold py_index.
  destruct (0 <=? i) eqn:E1; [|lia]. destruct (i <? Z.of_nat len) eqn:E2; [|lia]. done.
Qed.

Lemma py_index_lt (len : nat) (i : Z) (n : nat) :
  py_index len i = Some n → (n < len)%nat.
Proof.
  unfold py_index.
  destruct (0 <=? i) eqn:E1; destruct (i <? Z.of_nat len) eqn:E2; simpl;
    try (intros [= <-]; lia);
    destruct (i <? 0) eqn:E3; destruct (- Z.of_nat len <=? i) eqn:E4; simpl;
    try discriminate; intros [= <-]; lia.
Qed.

Lemma getitem_inside {A} (l : list A) (i : Z) (a : A) :
  0 <= i → l !! Z.to_nat i = Some a → getitem l i = Ok a.
Proof.
  intros Hi Hl. unfold getitem.
  rewrite py_index_inside; [by rewrite Hl|].
  apply lookup_lt_Some in Hl. lia.
Qed.

Lemma setitem_inside {A} (l : list A) (i : Z) (v : A) :
  0 <= i < Z.of_nat (length l) → setitem l i v = Ok (<[Z.to_nat i:=v]> l).
Proof. intros Hi. unfold setitem. by rewrite py_index_inside. Qed.

Lemma setitem_length {A} (l l' : list A) (i : Z) (v : A) :
  setitem l i v = Ok l' → length l' = length l.
Proof.
  unfold setitem. destruct (py_index _ _); [|done].
  intros [= <-]. apply length_insert.
Qed.

(** ** Reading the grid *)

Lemma get_tile_Some g x y t :
  get_tile g x y = Some t ↔ (0 <= x <= 7 ∧ 0 <= y <= 7) ∧ cell g x y = Some t.
Proof.
  unfold get_tile.
  destruct (x <? 0) eqn:E1, (x >? 7) eqn:E2, (y <? 0) eqn:E3, (y >? 7) eqn:E4; simpl;
    (split; [intros H|intros [Hr H]]); try done; try lia.
  split; [lia|done].
Qed.

Lemma get_tile_inside g x y :
  0 <= x <= 7 → 0 <= y <= 7 → get_tile g x y = cell g x y.
Proof.
  intros Hx Hy. unfold get_tile.
  destruct (x <? 0) eqn:E1, (x >? 7) eqn:E2, (y <? 0) eqn:E3, (y >? 7) eqn:E4; simpl;
    try done; lia.
Qed.

Lemma wf_cell_inside g x y :
  wf_grid g → 0 <= x <= 7 → 0 <= y <= 7 → is_Some (cell g x y).
Proof.
  intros [Hlen Hrows] Hx Hy. unfold cell.
  destruct (lookup_lt_is_Some_2 g (Z.to_nat x)) as [row Hrow]; [lia|].
  rewrite Hrow. apply lookup_lt_is_Some_2.
  rewrite Forall_forall in Hrows.
  rewrite (Hrows row); [lia|]. apply list_elem_of_lookup. eauto.
Qed.

Lemma wf_cell_Some g x y t :
  wf_grid g → 0 <= x → 0 <= y → cell g x y = Some t → 0 <= x <= 7 ∧ 0 <= y <= 7.
Proof.
  intros [Hlen Hrows] Hx Hy. unfold cell.
  destruct (g !! Z.to_nat x) as [row|] eqn:Hrow; [|done].
  intros Hc. apply lookup_lt_Some in Hc. pose proof (lookup_lt_Some _ _ _ Hrow).
  rewrite Forall_forall in Hrows.
  rewrite (Hrows row) in Hc; [lia|]. apply list_elem_of_lookup. eauto.
Qed.

Lemma elem_of_enumerate {A} (l : list A) (i : Z) (a : A) :
  (i, a) ∈ enumerate l ↔ 0 <= i ∧ l !! Z.to_nat i = Some a.
Proof.
  unfold enumerate. rewrite elem_of_lookup_imap. split.
  - intros (n & b & [= -> ->] & Hl). split; [lia|]. by rewrite Nat2Z.id.
  - intros [Hi Hl]. exists (Z.to_nat i), a. split; [f_equal; lia|done].
Qed.

Lemma elem_of_find_tiles g tile x y :
  (x, y) ∈ _find_tiles g tile ↔ (0 <= x ∧ 0 <= y) ∧ cell g x y = Some tile.
Proof.
  unfold _find_tiles, cell.
  rewrite list_elem_of_In, in_flat_map. split.
  - intros ([x' row] & Hrow & Hin).
    apply list_elem_of_In, elem_of_enumerate in Hrow as [Hx Hrow].
    apply in_flat_map in Hin as ([y' c] & Hc & Hin).
    apply list_elem_of_In, elem_of_enumerate in Hc as [Hy Hc].
    destruct (decide (c = tile)) as [->|]; [|by destruct Hin].
    destruct Hin as [[= <- <-]|[]]. by rewrite Hrow.
  - intros [[Hx Hy] Hc].
    destruct (g !! Z.to_nat x) as [row|] eqn:Hrow; [|done].
    exists (x, row). split; [by apply list_elem_of_In, elem_of_enumerate|].
    apply in_flat_map. exists (y, tile).
    split; [by apply list_elem_of_In, elem_of_enumerate|].
    rewrite decide_True by done. by left.
Qed.

Lemma elem_of_neighbour_cells x y ox oy :
  (ox, oy) ∈ neighbour_cells x y ↔
  is_dir (ox - x) (oy - y) ∧ 0 <= ox <= 7 ∧ 0 <= oy <= 7.
Proof.
  unfold neighbour_cells, is_dir.
  rewrite list_elem_of_In, in_flat_map. split.
  - intros (dx & Hdx & Hin).
    destruct ((0 <=? x + dx) && (x + dx <=? 7)) eqn:Ex; [|by destruct Hin].
    apply in_flat_map in Hin as (dy & Hdy & Hin).
    destruct ((0 <=? y + dy) && (y + dy <=? 7)) eqn:Ey; [|by destruct Hin].
    destruct Hin as [[= <- <-]|[]].
    apply andb_prop in Ex as [? ?]. apply andb_prop in Ey as [? ?].
    assert (dx = 0 → dy ≠ 0).
    { intros ->. simpl in Hdy. intuition lia. }
    simpl in Hdx. destruct (dx =? 0) eqn:E0; simpl in Hdy; intuition lia.
  - intros ((Hdx & Hdy & Hne) & Hx & Hy).
    exists (ox - x). split; [simpl; lia|].
    replace (x + (ox - x)) with ox by lia.
    destruct ((0 <=? ox) && (ox <=? 7)) eqn:Ex; [|lia].
    apply in_flat_map. exists (oy - y). split.
    + destruct (ox - x =? 0) eqn:E0; simpl; lia.
    + replace (y + (oy - y)) with oy by lia.
      destruct ((0 <=? oy) && (oy <=? 7)) eqn:Ey; [by left|lia].
Qed.

Lemma elem_of_find_neighbour_tiles g x y tile ox oy :
  (ox, oy) ∈ _find_neighbour_tiles g x y tile ↔
  is_dir (ox - x) (oy - y) ∧ get_tile g ox oy = Some tile.
Proof.
  unfold _find_neighbour_tiles.
  rewrite list_elem_of_filter, elem_of_neighbour_cells, get_tile_Some. simpl. tauto.
Qed.

(** ** The ray walk *)

(** Equal cells and equal reads, up to arithmetic on the coordinates. *)
Ltac cells_eq :=
  repeat match goal with
         | |- (_, _) = (_, _) => f_equal
         | |- get_tile _ _ _ = get_tile _ _ _ => f_equal
         | |- cell _ _ _ = cell _ _ _ => f_equal
         | |- walk _ _ _ _ _ _ _ = walk _ _ _ _ _ _ _ => f_equal
         end; try done; rewrite ?Z2Nat.id by lia; lia.

Section Walk.
Variables (g : Grid) (o : Tile.t) (dx dy : Z).

Lemma walk_steps (fuel j : nat) (x y : Z) :
  (j ≤ fuel)%nat →
  (∀ i : nat, (i < j)%nat → get_tile g (x + Z.of_nat i * dx) (y + Z.of_nat i * dy) = Some o) →
  get_tile g (x + Z.of_nat j * dx) (y + Z.of_nat j * dy) ≠ Some o →
  walk fuel g o x y dx dy
  = (x + Z.of_nat j * dx, y + Z.of_nat j * dy, get_tile g (x + Z.of_nat j * dx) (y + Z.of_nat j * dy)).
Proof.
  revert j x y. induction fuel as [|fuel IH]; intros j x y Hj Hrun Hend.
  - assert (j = O) as -> by lia. cbn [walk]. cells_eq.
  - destruct j as [|j].
    + replace (x + Z.of_nat 0 * dx) with x in * by lia.
      replace (y + Z.of_nat 0 * dy) with y in * by lia.
      cbn [walk]. by rewrite decide_False.
    + cbn [walk]. rewrite decide_True.
      2:{ specialize (Hrun O). rewrite <- Hrun by lia. cells_eq. }
      rewrite (IH j).
      * cells_eq.
      * lia.
      * intros i Hi. rewrite <- (Hrun (S i)) by lia. cells_eq.
      * intros Hc. apply Hend. rewrite <- Hc. cells_eq.
Qed.

Lemma walk_inv (fuel : nat) (x y : Z) :
  ∃ j : nat, (j ≤ fuel)%nat ∧
    (∀ i : nat, (i < j)%nat → get_tile g (x + Z.of_nat i * dx) (y + Z.of_nat i * dy) = Some o) ∧
    walk fuel g o x y dx dy
    = (x + Z.of_nat j * dx, y + Z.of_nat j * dy, get_tile g (x + Z.of_nat j * dx) (y + Z.of_nat j * dy)) ∧
    (get_tile g (x + Z.of_nat j * dx) (y + Z.of_nat j * dy) ≠ Some o ∨ j = fuel).
Proof.
  revert x y. induction fuel as [|fuel IH]; intros x y.
  - exists O. split; [lia|]. split; [intros; lia|]. cbn [walk].
    split; [cells_eq|by right].
  - cbn [walk]. destruct (decide (get_tile g x y = Some o)) as [Ho|Ho].
    + destruct (IH (x + dx) (y + dy)) as (j & Hj & Hrun & Hw & Hend).
      exists (S j). split; [lia|]. split; [|split].
      * intros [|i] Hi.
        -- rewrite <- Ho. cells_eq.
        -- rewrite <- (Hrun i) by lia. cells_eq.
      * rewrite Hw. cells_eq.
      * destruct Hend as [Hend | ->]; [left|by right].
        intros Hc. apply Hend. rewrite <- Hc. cells_eq.
    + exists O. split; [lia|]. split; [intros; lia|].
      replace (x + Z.of_nat 0 * dx) with x by lia. replace (y + Z.of_nat 0 * dy) with y by lia.
      split; [done|by left].
Qed.

(** No run of one tile along a direction is longer than the board. *)
Lemma run_short (j : nat) (x y : Z) :
  ¬ (dx = 0 ∧ dy = 0) →
  (∀ i : nat, (i < j)%nat → get_tile g (x + Z.of_nat i * dx) (y + Z.of_nat i * dy) = Some o) →
  (j ≤ 8)%nat.
Proof.
  intros Hd Hrun. destruct (decide (j ≤ 8)%nat) as [|Hj]; [done|].
  pose proof (Hrun O ltac:(lia)) as H0. pose proof (Hrun 8%nat ltac:(lia)) as H8.
  apply get_tile_Some in H0 as [[? ?] _]. apply get_tile_Some in H8 as [[? ?] _].
  lia.
Qed.

(** Eight rounds are enough: the walk has left the loop by its test. *)
Lemma walk_fuel (x y x' y' : Z) (t : option Tile.t) :
  ¬ (dx = 0 ∧ dy = 0) →
  walk RAY g o x y dx dy = (x', y', t) →
  t ≠ Some o ∧ ∀ fuel, (RAY ≤ fuel)%nat → walk fuel g o x y dx dy = (x', y', t).
Proof.
  intros Hd Hw.
  destruct (walk_inv RAY x y) as (j & Hj & Hrun & Hw' & Hend).
  rewrite Hw in Hw'. injection Hw' as -> -> ->.
  assert (get_tile g (x + Z.of_nat j * dx) (y + Z.of_nat j * dy) ≠ Some o) as Hne.
  { destruct Hend as [| ->]; [done|]. intros Hc.
    assert (9 ≤ 8)%nat; [|lia].
    apply (run_short 9 x y Hd). intros i Hi.
    destruct (decide (i = RAY)) as [->|]; [done|]. apply Hrun. unfold RAY in *. lia. }
  split; [done|]. intros fuel Hfuel. apply walk_steps; [lia|done|done].
Qed.

Lemma walk_spec (x y x' y' : Z) (t : option Tile.t) :
  ¬ (dx = 0 ∧ dy = 0) →
  walk RAY g o x y dx dy = (x', y', t) ↔
  ∃ j : nat,
    (∀ i : nat, (i < j)%nat → get_tile g (x + Z.of_nat i * dx) (y + Z.of_nat i * dy) = Some o) ∧
    x' = x + Z.of_nat j * dx ∧ y' = y + Z.of_nat j * dy ∧ t = get_tile g x' y' ∧ t ≠ Some o.
Proof.
  intros Hd. split.
  - intros Hw. destruct (walk_fuel _ _ _ _ _ Hd Hw) as [Hne _].
    destruct (walk_inv RAY x y) as (j & Hj & Hrun & Hw' & _).
    rewrite Hw in Hw'. injection Hw' as -> -> ->. by exists j.
  - intros (j & Hrun & -> & -> & -> & Hne).
    apply walk_steps; [|done|done]. by apply (run_short j x y).
Qed.
End Walk.

(** The loop of [_apply_destructive] reads the same cells as the walk, so
    eight rounds are enough for it too. *)
Lemma collect_path_walk fuel g o dx dy :
  ∀ x y path, (collect_path fuel g o x y dx dy path).2 = (walk fuel g o x y dx dy).2.
Proof.
  induction fuel as [|fuel IH]; intros x y path; cbn [collect_path walk]; [done|].
  destruct (decide (get_tile g x y = Some o)); [apply IH|done].
Qed.

Lemma collect_path_more fuel g o dx dy :
  ∀ x y path path' t k,
    collect_path fuel g o x y dx dy path = (path', t) → t ≠ Some o →
    collect_path (fuel + k) g o x y dx dy path = (path', t).
Proof.
  induction fuel as [|fuel IH]; intros x y path path' t k; cbn [collect_path].
  - intros [= <- <-] Hne. destruct k as [|k]; cbn [Nat.add collect_path]; [done|].
    by rewrite decide_False.
  - cbn [Nat.add collect_path].
    destruct (decide (get_tile g x y = Some o)); [apply IH|done].
Qed.

Lemma collect_path_fuel g o x y dx dy path path' t :
  ¬ (dx = 0 ∧ dy = 0) →
  collect_path RAY g o x y dx dy path = (path', t) →
  t ≠ Some o ∧
  ∀ fuel, (RAY ≤ fuel)%nat → collect_path fuel g o x y dx dy path = (path', t).
Proof.
  intros Hd Hc.
  assert (t ≠ Some o) as Hne.
  { pose proof (collect_path_walk RAY g o dx dy x y path) as Hw. rewrite Hc in Hw.
    destruct (walk RAY g o x y dx dy) as [[x' y'] t'] eqn:Hwalk. cbn in Hw. subst t'.
    by destruct (walk_fuel g o dx dy x y x' y' t Hd Hwalk). }
  split; [done|]. intros fuel Hfuel.
  replace fuel with (RAY + (fuel - RAY))%nat by lia. by apply collect_path_more.
Qed.

(** ** What [_valid_moves_for] collects *)

Lemma bracket_walk g o ox oy dx dy stop x y :
  is_dir dx dy → stop ≠ o →
  (get_tile g (ox + dx) (oy + dy) = Some o ∧
   walk RAY g o (ox + dx + dx) (oy + dy + dy) dx dy = (x, y, Some stop))
  ↔ ∃ k, 1 <= k ∧ run g o ox oy dx dy k ∧
      x = ox + (k + 1) * dx ∧ y = oy + (k + 1) * dy ∧ get_tile g x y = Some stop.
Proof.
  intros (_ & _ & Hd) Hstop. rewrite walk_spec by done. split.
  - intros (Hn & j & Hrun & -> & -> & Hend & _).
    exists (Z.of_nat j + 1). split; [lia|]. split; [|split; [lia|split; [lia|done]]].
    intros i Hi. destruct (decide (i = 1)) as [->|].
    + rewrite <- Hn. cells_eq.
    + rewrite <- (Hrun (Z.to_nat (i - 2))) by lia. cells_eq.
  - intros (k & Hk & Hrun & -> & -> & Hend). split.
    + rewrite <- (Hrun 1) by lia. cells_eq.
    + exists (Z.to_nat (k - 1)). rewrite Z2Nat.id by lia.
      split; [|split; [lia|split; [lia|split]]].
      * intros i Hi. rewrite <- (Hrun (Z.of_nat i + 2)) by lia. cells_eq.
      * done.
      * congruence.
Qed.

Lemma elem_of_scan_origin_stop g tile o stop ox oy nbrs m :
  m ∈ scan_origin g tile o stop false ox oy nbrs ↔
  ∃ nx ny x y, (nx, ny) ∈ nbrs ∧
    walk RAY g o (nx + (nx - ox)) (ny + (ny - oy)) (nx - ox) (ny - oy) = (x, y, Some stop) ∧
    m = mkMove (Tile.color tile) x y.
Proof.
  induction nbrs as [|[nx ny] rest IH]; cbn [scan_origin].
  - split; [by intros ?%elem_of_nil|]. by intros (? & ? & ? & ? & ?%elem_of_nil & _).
  - destruct (walk RAY g o (nx + (nx - ox)) (ny + (ny - oy)) (nx - ox) (ny - oy))
      as [[x y] t] eqn:Hw.
    destruct (decide (t = Some stop)) as [->|Hne].
    + rewrite elem_of_cons, IH. split.
      * intros [->|(nx' & ny' & x' & y' & Hin & Hw' & ->)].
        -- exists nx, ny, x, y. split; [left|]; done.
        -- exists nx', ny', x', y'. split; [by right|done].
      * intros (nx' & ny' & x' & y' & Hin & Hw' & ->).
        apply elem_of_cons in Hin as [[= -> ->]|Hin].
        -- left. rewrite Hw in Hw'. by injection Hw' as -> ->.
        -- right. by exists nx', ny', x', y'.
    + rewrite IH. split.
      * intros (nx' & ny' & x' & y' & Hin & Hw' & ->).
        exists nx', ny', x', y'. split; [by right|done].
      * intros (nx' & ny' & x' & y' & Hin & Hw' & ->).
        apply elem_of_cons in Hin as [[= -> ->]|Hin].
        -- rewrite Hw in Hw'. congruence.
        -- by exists nx', ny', x', y'.
Qed.

Lemma elem_of_scan_origin_start g tile o stop ox oy nbrs m :
  m ∈ scan_origin g tile o stop true ox oy nbrs ↔
  m = mkMove (Tile.color tile) ox oy ∧
  ∃ nx ny x y, (nx, ny) ∈ nbrs ∧
    walk RAY g o (nx + (nx - ox)) (ny + (ny - oy)) (nx - ox) (ny - oy) = (x, y, Some stop).
Proof.
  induction nbrs as [|[nx ny] rest IH]; cbn [scan_origin].
  - split; [by intros ?%elem_of_nil|]. by intros (_ & ? & ? & ? & ? & ?%elem_of_nil & _).
  - destruct (walk RAY g o (nx + (nx - ox)) (ny + (ny - oy)) (nx - ox) (ny - oy))
      as [[x y] t] eqn:Hw.
    destruct (decide (t = Some stop)) as [->|Hne].
    + rewrite list_elem_of_singleton. split.
      * intros ->. split; [done|]. exists nx, ny, x, y. split; [left|]; done.
      * by intros [-> _].
    + rewrite IH. split.
      * intros (-> & nx' & ny' & x' & y' & Hin & Hw'). split; [done|].
        exists nx', ny', x', y'. split; [by right|done].
      * intros (-> & nx' & ny' & x' & y' & Hin & Hw'). split; [done|].
        apply elem_of_cons in Hin as [[= -> ->]|Hin].
        -- rewrite Hw in Hw'. congruence.
        -- by exists nx', ny', x', y'.
Qed.

Lemma elem_of_ray_scan g tile start stop add_start m :
  m ∈ ray_scan g tile start stop add_start ↔
  ∃ ox oy, (ox, oy) ∈ _find_tiles g start ∧
    m ∈ scan_origin g tile (Tile.other tile) stop add_start ox oy
          (_find_neighbour_tiles g ox oy (Tile.other tile)).
Proof.
  unfold ray_scan. rewrite list_elem_of_In, in_flat_map. split.
  - intros ([ox oy] & Hin & Hm). exists ox, oy. by rewrite !list_elem_of_In.
  - intros (ox & oy & Hin & Hm). exists (ox, oy). by rewrite <- !list_elem_of_In.
Qed.

Lemma stone_other tile : stone tile → Tile.other tile ≠ tile ∧ stone (Tile.other tile).
Proof. intros [-> | ->]; (split; [done|]); [by right|by left]. Qed.

Lemma other_other tile : stone tile → Tile.other (Tile.other tile) = tile.
Proof. by intros [-> | ->]. Qed.

Lemma wf_find_tiles g tile x y :
  wf_grid g → (x, y) ∈ _find_tiles g tile ↔ get_tile g x y = Some tile.
Proof.
  intros Hwf. rewrite elem_of_find_tiles, get_tile_Some. split.
  - intros [[Hx Hy] Hc]. split; [|done]. by eapply wf_cell_Some.
  - intros [[Hx Hy] Hc]. split; [lia|done].
Qed.

Lemma ray_scan_empty_seeded g tile m :
  wf_grid g → stone tile →
  m ∈ ray_scan g tile Tile.EMPTY tile true ↔
  ∃ x y, m = mkMove (Tile.color tile) x y ∧ seeded_at_empty g tile x y.
Proof.
  intros Hwf Hst. destruct (stone_other tile Hst) as [Hne _].
  rewrite elem_of_ray_scan. unfold seeded_at_empty. split.
  - intros (ox & oy & Ho & Hm). exists ox, oy.
    apply elem_of_scan_origin_start in Hm as (-> & nx & ny & x & y & Hn & Hw).
    apply wf_find_tiles in Ho; [|done]. split; [done|]. split; [done|].
    apply elem_of_find_neighbour_tiles in Hn as [Hd Hn].
    exists (nx - ox), (ny - oy).
    destruct (proj1 (bracket_walk g (Tile.other tile) ox oy (nx - ox) (ny - oy) tile x y
                       Hd (not_eq_sym Hne))) as (k & Hk & Hrun & -> & -> & Hend).
    { split; [rewrite <- Hn; cells_eq|rewrite <- Hw; cells_eq]. }
    by exists k.
  - intros (x & y & -> & He & dx & dy & k & Hd & Hk & Hrun & Hend).
    exists x, y. split; [by apply wf_find_tiles|].
    apply elem_of_scan_origin_start. split; [done|].
    destruct (proj2 (bracket_walk g (Tile.other tile) x y dx dy tile
                       (x + (k + 1) * dx) (y + (k + 1) * dy) Hd (not_eq_sym Hne)))
      as [Hn Hw]; [by exists k|].
    exists (x + dx), (y + dy), (x + (k + 1) * dx), (y + (k + 1) * dy). split.
    + apply elem_of_find_neighbour_tiles. split; [|done].
      by replace (x + dx - x) with dx by lia; replace (y + dy - y) with dy by lia.
    + rewrite <- Hw. f_equal; lia.
Qed.

Lemma ray_scan_stone_seeded g tile m :
  wf_grid g → stone tile →
  m ∈ ray_scan g tile tile Tile.EMPTY false ↔
  ∃ x y, m = mkMove (Tile.color tile) x y ∧ seeded_at_stone g tile x y.
Proof.
  intros Hwf Hst. destruct (stone_other tile Hst) as [_ Hso].
  assert (Tile.EMPTY ≠ Tile.other tile) as Hne by (by destruct Hso as [-> | ->]).
  rewrite elem_of_ray_scan. unfold seeded_at_stone. split.
  - intros (ox & oy & Ho & Hm).
    apply elem_of_scan_origin_stop in Hm as (nx & ny & x & y & Hn & Hw & ->).
    exists x, y. split; [done|].
    apply wf_find_tiles in Ho; [|done].
    apply elem_of_find_neighbour_tiles in Hn as [Hd Hn].
    exists ox, oy, (nx - ox), (ny - oy).
    destruct (proj1 (bracket_walk g (Tile.other tile) ox oy (nx - ox) (ny - oy)
                       Tile.EMPTY x y Hd Hne)) as (k & Hk & Hrun & -> & -> & Hend).
    { split; [rewrite <- Hn; cells_eq|rewrite <- Hw; cells_eq]. }
    by exists k.
  - intros (x & y & -> & sx & sy & dx & dy & k & Hs & Hd & Hk & Hrun & -> & -> & Hend).
    exists sx, sy. split; [by apply wf_find_tiles|].
    apply elem_of_scan_origin_stop.
    destruct (proj2 (bracket_walk g (Tile.other tile) sx sy dx dy Tile.EMPTY
                       (sx + (k + 1) * dx) (sy + (k + 1) * dy) Hd Hne))
      as [Hn Hw]; [by exists k|].
    exists (sx + dx), (sy + dy), (sx + (k + 1) * dx), (sy + (k + 1) * dy).
    split; [|split; [|done]].
    + apply elem_of_find_neighbour_tiles. split; [|done].
      by replace (sx + dx - sx) with dx by lia; replace (sy + dy - sy) with dy by lia.
    + rewrite <- Hw. f_equal; lia.
Qed.

(** Reading a bracketed ray from its other end. *)
Lemma seeded_equiv g tile x y :
  seeded_at_empty g tile x y ↔ seeded_at_stone g tile x y.
Proof.
  unfold seeded_at_empty, seeded_at_stone. split.
  - intros (He & dx & dy & k & Hd & Hk & Hrun & Hend).
    exists (x + (k + 1) * dx), (y + (k + 1) * dy), (- dx), (- dy), k.
    split; [done|]. split; [unfold is_dir in *; lia|]. split; [done|].
    split; [|split; [lia|split; [lia|done]]].
    intros i Hi. rewrite <- (Hrun (k + 1 - i)) by lia. cells_eq.
  - intros (sx & sy & dx & dy & k & Hs & Hd & Hk & Hrun & -> & -> & He).
    split; [done|]. exists (- dx), (- dy), k.
    split; [unfold is_dir in *; lia|]. split; [done|]. split.
    + intros i Hi. rewrite <- (Hrun (k + 1 - i)) by lia. cells_eq.
    + rewrite <- Hs. cells_eq.
Qed.

(** ** Legal moves *)

Lemma for_color_stone c : stone (Tile.for_color c).
Proof. destruct c as [[]|]; [by left|by right|by right]. Qed.

Lemma valid_moves_for_iff b tile m :
  wf_board b → stone tile →
  m ∈ _valid_moves_for b tile ↔
  ∃ x y, m = mkMove (Tile.color tile) x y ∧ legal_cell (_tiles b) tile x y.
Proof.
  intros Hwf Hst. unfold _valid_moves_for, legal_cell.
  destruct (_empty_count b <? 50).
  - by apply ray_scan_empty_seeded.
  - rewrite ray_scan_stone_seeded by done.
    by setoid_rewrite seeded_equiv.
Qed.

Lemma legal_cell_on_board g tile x y : legal_cell g tile x y → on_board (x, y).
Proof. intros [He _]. by apply get_tile_Some in He as [? _]. Qed.

Lemma valid_moves_for_nil b tile :
  wf_board b → stone tile →
  _valid_moves_for b tile = [] ↔ ¬ ∃ x y, legal_cell (_tiles b) tile x y.
Proof.
  intros Hwf Hst. split.
  - intros Hnil (x & y & Hl).
    assert (mkMove (Tile.color tile) x y ∈ _valid_moves_for b tile) as Hin.
    { apply valid_moves_for_iff; [done..|]. by exists x, y. }
    rewrite Hnil in Hin. by apply elem_of_nil in Hin.
  - intros Hno. destruct (_valid_moves_for b tile) as [|m l] eqn:E; [done|].
    exfalso. apply Hno.
    assert (m ∈ _valid_moves_for b tile) as Hin by (rewrite E; left).
    apply valid_moves_for_iff in Hin as (x & y & _ & Hl); [|done..]. by exists x, y.
Qed.

Lemma valid_moves_nil b :
  valid_moves b = [] ↔
  _valid_moves_for b (Tile.for_color (_next_to_move b)) = [] ∧
  _valid_moves_for b (Tile.other (Tile.for_color (_next_to_move b))) = [].
Proof.
  unfold valid_moves.
  destruct (_valid_moves_for b (Tile.for_color _)) eqn:E1;
    destruct (_valid_moves_for b (Tile.other _)) eqn:E2;
    (split; [intros H|intros [H1 H2]]); done.
Qed.

Lemma valid_moves_cases b m :
  m ∈ valid_moves b →
  m ∈ _valid_moves_for b (Tile.for_color (_next_to_move b)) ∨
  (m = create_skip (Tile.color (Tile.for_color (_next_to_move b))) ∧
   _valid_moves_for b (Tile.for_color (_next_to_move b)) = [] ∧
   _valid_moves_for b (Tile.other (Tile.for_color (_next_to_move b))) ≠ []).
Proof.
  unfold valid_moves.
  destruct (_valid_moves_for b (Tile.for_color _)) eqn:E1; [|by left].
  destruct (_valid_moves_for b (Tile.other _)) eqn:E2.
  - by intros ?%elem_of_nil.
  - intros ->%list_elem_of_singleton. by right.
Qed.

Lemma color_for_color c : is_Some (Tile.color (Tile.for_color c)).
Proof. destruct c as [[]|]; by eexists. Qed.

Lemma valid_moves_wf b m : wf_board b → m ∈ valid_moves b → wf_move m.
Proof.
  intros Hwf [Hin|(-> & _)]%valid_moves_cases.
  - apply valid_moves_for_iff in Hin as (x & y & -> & Hl);
      [|done|apply for_color_stone].
    split; [apply color_for_color|]. right. by eapply legal_cell_on_board.
  - split; [apply color_for_color|by left].
Qed.

(** ** Writing the grid *)

Lemma set_tile_wf g x y tile g' :
  wf_grid g → set_tile g x y tile = Ok g' → wf_grid g'.
Proof.
  intros [Hlen Hrows]. unfold set_tile, getitem, setitem. simpl.
  destruct (py_index (length g) x) as [n|]; [|done]. simpl.
  destruct (g !! n) as [row|] eqn:Hrow; [|done]. simpl.
  destruct (py_index (length row) y) as [k|]; [|done]. simpl.
  intros [= <-]. split; [by rewrite length_insert|].
  apply Forall_insert; [done|]. rewrite length_insert.
  rewrite Forall_forall in Hrows. apply Hrows, list_elem_of_lookup. eauto.
Qed.

Lemma set_tile_on_board g x y tile :
  wf_grid g → on_board (x, y) → ∃ g', set_tile g x y tile = Ok g'.
Proof.
  intros [Hlen Hrows] [Hx Hy]. simpl in *. unfold set_tile.
  destruct (lookup_lt_is_Some_2 g (Z.to_nat x)) as [row Hrow]; [lia|].
  rewrite (getitem_inside _ _ row) by (done || lia). simpl.
  rewrite setitem_inside; simpl.
  - rewrite setitem_inside by lia. eauto.
  - rewrite Forall_forall in Hrows. rewrite (Hrows row); [lia|].
    apply list_elem_of_lookup. eauto.
Qed.

Lemma paint_ok tile path g :
  wf_grid g → Forall on_board path → ∃ g', paint tile path g = Ok g' ∧ wf_grid g'.
Proof.
  unfold paint. revert g. induction path as [|[x y] path IH]; intros g Hwf Hpath.
  - by exists g.
  - apply Forall_cons in Hpath as [Hxy Hpath]. cbn [foldl].
    destruct (set_tile_on_board g x y tile Hwf Hxy) as [g1 Hg1].
    simpl. rewrite Hg1. apply IH; [|done]. by eapply set_tile_wf.
Qed.

Lemma collect_path_on_board fuel g o x y dx dy path path' t :
  collect_path fuel g o x y dx dy path = (path', t) →
  Forall on_board path → Forall on_board path'.
Proof.
  revert x y path. induction fuel as [|fuel IH]; intros x y path; cbn [collect_path].
  - by intros [= <- _].
  - destruct (decide (get_tile g x y = Some o)) as [Ho|]; [|by intros [= <- _]].
    intros Hc Hpath. apply (IH _ _ _ Hc).
    apply Forall_app. split; [done|]. apply Forall_singleton.
    by apply get_tile_Some in Ho as [? _].
Qed.

Lemma flip_direction_ok tile other mx my g nb :
  wf_grid g → nb ∈ neighbour_cells mx my →
  ∃ g', flip_direction tile other mx my (Ok g) nb = Ok g' ∧ wf_grid g'.
Proof.
  intros Hwf Hnb. destruct nb as [ox oy]. unfold flip_direction. cbn [mbind Exc_bind ebind].
  destruct (decide (cell g ox oy = Some other)); [|by exists g].
  destruct (collect_path RAY g other _ _ _ _ _) as [path t] eqn:Hc.
  destruct (decide (Some tile = t)); [|by exists g].
  apply paint_ok; [done|].
  eapply collect_path_on_board; [exact Hc|].
  apply Forall_singleton. by apply elem_of_neighbour_cells in Hnb as [_ ?].
Qed.

Lemma flips_ok tile other mx my g nbs :
  wf_grid g → (∀ nb, nb ∈ nbs → nb ∈ neighbour_cells mx my) →
  ∃ g', foldl (flip_direction tile other mx my) (Ok g) nbs = Ok g' ∧ wf_grid g'.
Proof.
  revert g. induction nbs as [|nb nbs IH]; intros g Hwf Hnbs; [by exists g|].
  cbn [foldl].
  destruct (flip_direction_ok tile other mx my g nb Hwf) as (g1 & -> & Hwf1).
  { apply Hnbs. left. }
  apply IH; [done|]. intros nb' Hin. apply Hnbs. by right.
Qed.

(** ** [apply] on the moves of the data model *)

Lemma wf_rows_init g : wf_grid g → map BoardRow_init g = g.
Proof.
  intros [_ Hrows]. induction Hrows as [|row g Hrow _ IH]; [done|].
  cbn [map]. rewrite IH. by destruct row.
Qed.

Lemma clone_wf b :
  wf_board b → _clone b = mkBoard (_tiles b) (_next_to_move b) None (_empty_count b).
Proof. intros Hwf. unfold _clone. by rewrite wf_rows_init. Qed.

Lemma apply_skip b m c :
  wf_board b → move_color m = Some c → is_skip m = true →
  apply b m = Ok (mkBoard (_tiles b) (Some (Color.other c)) None (_empty_count b)).
Proof.
  intros Hwf Hc Hs. unfold apply. rewrite clone_wf by done.
  unfold _apply_destructive. by rewrite Hc, Hs.
Qed.

Lemma place_ok g tile x y :
  wf_grid g → on_board (x, y) → ∃ g', place g tile x y = Ok g' ∧ wf_grid g'.
Proof.
  intros Hwf Hxy. unfold place.
  destruct (set_tile_on_board g x y tile Hwf Hxy) as [g0 Hg0].
  rewrite Hg0. cbn [mbind Exc_bind ebind].
  apply flips_ok; [by eapply set_tile_wf|done].
Qed.

Lemma apply_place_eq b m c :
  wf_board b → move_color m = Some c → is_skip m = false →
  apply b m =
  g' ← place (_tiles b) (Tile.for_color (Some c)) (move_x m) (move_y m);
  Ok (let b1 := mkBoard g' (Some (Color.other c)) None (_empty_count b - 1) in
      match valid_moves b1 with
      | [] => set_next_to_move None b1
      | _ => b1
      end).
Proof.
  intros Hwf Hc Hs. unfold apply. rewrite clone_wf by done.
  unfold _apply_destructive, place. rewrite Hc, Hs. cbn [_tiles set_next_to_move].
  destruct (set_tile _ _ _ _) as [g0|]; [|done]. cbn [mbind Exc_bind ebind].
  destruct (foldl _ _ _) as [g'|]; [|done]. cbn [mbind Exc_bind ebind]. f_equal.
  unfold set_tiles, set_empty_count, set_score, set_next_to_move.
  cbn [_tiles _next_to_move _score _empty_count].
  by destruct (valid_moves _).
Qed.

Lemma apply_place b m c :
  wf_board b → move_color m = Some c → is_skip m = false →
  on_board (move_x m, move_y m) →
  ∃ g', wf_grid g' ∧
    place (_tiles b) (Tile.for_color (Some c)) (move_x m) (move_y m) = Ok g' ∧
    apply b m =
    Ok (let b1 := mkBoard g' (Some (Color.other c)) None (_empty_count b - 1) in
        match valid_moves b1 with
        | [] => set_next_to_move None b1
        | _ => b1
        end).
Proof.
  intros Hwf Hc Hs Hxy. rewrite (apply_place_eq b m c) by done.
  destruct (place_ok (_tiles b) (Tile.for_color (Some c)) (move_x m) (move_y m) Hwf Hxy)
    as (g' & Hp & Hwf').
  exists g'. by rewrite Hp.
Qed.

Lemma apply_ok b m : wf_board b → wf_move m → ∃ b', apply b m = Ok b' ∧ wf_board b'.
Proof.
  intros Hwf [[c Hc] Hm]. destruct (is_skip m) eqn:Hs.
  - eexists. split; [by apply apply_skip|done].
  - destruct Hm as [|Hxy]; [done|].
    destruct (apply_place b m c Hwf Hc Hs Hxy) as (g' & Hwf' & _ & ->).
    eexists. split; [done|]. cbn zeta. by destruct (valid_moves _).
Qed.

Lemma apply_wf b m b' : wf_board b → wf_move m → apply b m = Ok b' → wf_board b'.
Proof.
  intros Hwf Hm Ha. destruct (apply_ok b m Hwf Hm) as (b1 & Hb1 & Hwf1). congruence.
Qed.

Lemma opening_wf : wf_board opening_board.
Proof. split; [done|]. repeat constructor. Qed.

Lemma reachable_wf b : reachable b → wf_board b.
Proof.
  induction 1 as [|b m b' _ IH Hm Ha]; [apply opening_wf|].
  eapply apply_wf; [done| |done]. by eapply valid_moves_wf.
Qed.

Lemma can_capture_iff b c :
  wf_board b →
  can_capture (_tiles b) c ↔ _valid_moves_for b (Tile.for_color (Some c)) ≠ [].
Proof.
  intros Hwf. unfold can_capture.
  rewrite valid_moves_for_nil by (done || apply for_color_stone).
  split; [tauto|]. intros Hn.
  destruct (_valid_moves_for b (Tile.for_color (Some c))) as [|m l] eqn:E.
  - exfalso. apply Hn. intros (x & y & Hl).
    assert (mkMove (Tile.color (Tile.for_color (Some c))) x y ∈ _valid_moves_for b (Tile.for_color (Some c))) as Hin.
    { apply valid_moves_for_iff; [done|apply for_color_stone|]. by exists x, y. }
    rewrite E in Hin. by apply elem_of_nil in Hin.
  - assert (m ∈ _valid_moves_for b (Tile.for_color (Some c))) as Hin by (rewrite E; left).
    apply valid_moves_for_iff in Hin as (x & y & _ & Hl); [|done|apply for_color_stone].
    by exists x, y.
Qed.

(** [valid_moves] is empty exactly when neither color can capture. *)
Lemma valid_moves_nil_iff b :
  wf_board b →
  valid_moves b = [] ↔
  ¬ can_capture (_tiles b) Color.BLACK ∧ ¬ can_capture (_tiles b) Color.WHITE.
Proof.
  intros Hwf. rewrite valid_moves_nil, !can_capture_iff by done.
  destruct (_next_to_move b) as [[]|]; cbn;
    destruct (_valid_moves_for b Tile.BLACK), (_valid_moves_for b Tile.WHITE);
    (split; [intros [H1 H2]; split; intros H; by apply H|
             intros [H1 H2]; split; try done]);
    exfalso; (by apply H1) || (by apply H2).
Qed.

Lemma terminal_invariant b :
  reachable b →
  _next_to_move b = None ↔
  ¬ can_capture (_tiles b) Color.BLACK ∧ ¬ can_capture (_tiles b) Color.WHITE.
Proof.
  induction 1 as [|b m b' Hr IH Hm Ha].
  - split; [done|]. intros [Hb _]. exfalso. apply Hb.
    apply (can_capture_iff opening_board); [apply opening_wf|]. by vm_compute.
  - pose proof (reachable_wf b Hr) as Hwf.
    destruct (_next_to_move b) as [c|] eqn:Hntm.
    2:{ exfalso. destruct IH as [IH _]. specialize (IH eq_refl).
        apply valid_moves_nil_iff in IH; [|done].
        rewrite IH in Hm. by apply elem_of_nil in Hm. }
    apply valid_moves_cases in Hm. rewrite Hntm in Hm.
    destruct Hm as [Hin|(-> & Hnil & Hother)].
    + apply valid_moves_for_iff in Hin as (x & y & -> & Hl);
        [|done|apply for_color_stone].
      destruct (apply_place b (mkMove (Tile.color (Tile.for_color (Some c))) x y) c)
        as (g' & Hwf' & _ & Ha'); [done|by destruct c| |by eapply legal_cell_on_board|].
      { apply legal_cell_on_board in Hl as [? _]. unfold is_skip. simpl in *. lia. }
      rewrite Ha' in Ha. injection Ha as <-. cbn zeta.
      pose proof (valid_moves_nil_iff
        (mkBoard g' (Some (Color.other c)) None (_empty_count b - 1)) Hwf') as Hnil.
      destruct (valid_moves _); cbn in *; [tauto|].
      split; [done|]. intros Hno. by apply Hnil in Hno.
    + rewrite (apply_skip b _ c) in Ha; [|done|by destruct c|done].
      injection Ha as <-. cbn [_next_to_move _tiles]. split; [done|].
      intros [Hb Hw]. exfalso.
      rewrite !can_capture_iff in Hb, Hw by done.
      destruct c; cbn in Hother; tauto.
Qed.

(** ** Terminal positions *)

Lemma cell_count g x y t : cell g x y = Some t → 0 < count_tile g t.
Proof.
  unfold cell, count_tile. destruct (g !! Z.to_nat x) as [row|] eqn:Hrow; [|done].
  intros Hc.
  assert (t ∈ filter (fun c => c = t) (concat g)) as Hin.
  { apply list_elem_of_filter. split; [done|].
    apply list_elem_of_In, in_concat. exists row.
    split; apply list_elem_of_In, list_elem_of_lookup; eauto. }
  destruct (filter _ _); [by apply elem_of_nil in Hin|]. simpl. lia.
Qed.

Lemma no_empty_no_capture g c : count_tile g Tile.EMPTY = 0 → ¬ can_capture g c.
Proof.
  intros Hz (x & y & [He _]). apply get_tile_Some in He as [_ He].
  apply cell_count in He. lia.
Qed.

(** C4. On every board of a game, [next_to_move] is none exactly when
    neither color has a capturing move on the grid (for either color,
    having one is [_valid_moves_for] being non-empty); so a board of a game
    without empty cells is finished, and so is one where neither color can
    capture, whatever cells are empty. *)
Theorem finished_iff_no_legal_move b :
  reachable b →
  (_next_to_move b = None ↔
     ¬ can_capture (_tiles b) Color.BLACK ∧ ¬ can_capture (_tiles b) Color.WHITE) ∧
  (∀ c, can_capture (_tiles b) c ↔ _valid_moves_for b (Tile.for_color (Some c)) ≠ []) ∧
  (finished b = true ↔ _next_to_move b = None) ∧
  (count_tile (_tiles b) Tile.EMPTY = 0 → finished b = true) ∧
  (¬ can_capture (_tiles b) Color.BLACK → ¬ can_capture (_tiles b) Color.WHITE →
   finished b = true).
Proof.
  intros Hr. pose proof (terminal_invariant b Hr) as Hinv.
  pose proof (reachable_wf b Hr) as Hwf.
  assert (finished b = true ↔ _next_to_move b = None) as Hfin.
  { unfold finished. by destruct (_next_to_move b). }
  split; [done|]. split; [intros c; by apply can_capture_iff|]. split; [done|]. split.
  - intros Hz. apply Hfin, Hinv. split; by apply no_empty_no_capture.
  - intros Hb Hw. by apply Hfin, Hinv.
Qed.

Lemma finished_iff_no_legal_move_witness :
  reachable opening_board ∧
  (_next_to_move opening_board = None ↔
     ¬ can_capture (_tiles opening_board) Color.BLACK ∧
     ¬ can_capture (_tiles opening_board) Color.WHITE).
Proof.
  split; [constructor|].
  apply (finished_iff_no_legal_move opening_board). constructor.
Defined.

(** ** Passing *)

(** C5. When the color to move cannot capture and the other color can,
    [valid_moves] is the skip move of the color to move and nothing else;
    applying it hands the turn to the other color and leaves the grid, cell
    by cell, the counter of empty cells and the stone counts as they were. *)
Theorem skip_only_changes_turn b c :
  wf_board b → _next_to_move b = Some c →
  ¬ can_capture (_tiles b) c → can_capture (_tiles b) (Color.other c) →
  valid_moves b = [create_skip (Some c)] ∧
  is_skip (create_skip (Some c)) = true ∧
  ∃ b', apply b (create_skip (Some c)) = Ok b' ∧
    _next_to_move b' = Some (Color.other c) ∧
    _tiles b' = _tiles b ∧
    (∀ x y, get_tile (_tiles b') x y = get_tile (_tiles b) x y) ∧
    _empty_count b' = _empty_count b ∧
    black_stones (score b') = count_tile (_tiles b) Tile.BLACK ∧
    white_stones (score b') = count_tile (_tiles b) Tile.WHITE.
Proof.
  intros Hwf Hntm Hno Hyes.
  rewrite can_capture_iff in Hno, Hyes by done.
  split; [|split; [done|]].
  - unfold valid_moves. rewrite Hntm.
    destruct (_valid_moves_for b (Tile.for_color (Some c))); [|by destruct Hno].
    replace (Tile.other (Tile.for_color (Some c)))
      with (Tile.for_color (Some (Color.other c))) by (by destruct c).
    destruct (_valid_moves_for b (Tile.for_color (Some (Color.other c)))); [done|].
    by destruct c.
  - eexists. split; [by apply apply_skip|]. done.
Qed.

Lemma skip_only_changes_turn_witness :
  valid_moves pass_board = [create_skip (Some Color.BLACK)] ∧
  ∃ b', apply pass_board (create_skip (Some Color.BLACK)) = Ok b' ∧
    _next_to_move b' = Some Color.WHITE ∧ _tiles b' = _tiles pass_board.
Proof.
  assert (wf_board pass_board) as Hwf by (split; [done|repeat constructor]).
  destruct (skip_only_changes_turn pass_board Color.BLACK Hwf eq_refl)
    as (Hv & _ & b' & Ha & Hn & Ht & _).
  - rewrite can_capture_iff by done. vm_compute. tauto.
  - rewrite can_capture_iff by done. vm_compute. congruence.
  - split; [done|]. by exists b'.
Defined.

(** ** The opening *)

(** C8. A new board, once cleared, holds two stones of each color on the
    four center cells, white on (3,3) and (4,4), black on (3,4) and (4,3);
    black is to move; [valid_moves] gives four moves, all different. *)
Theorem opening_position :
  clear ListImplementedBoard_init = Ok opening_board ∧
  count_tile (_tiles opening_board) Tile.BLACK = 2 ∧
  count_tile (_tiles opening_board) Tile.WHITE = 2 ∧
  count_tile (_tiles opening_board) Tile.EMPTY = 60 ∧
  get_tile (_tiles opening_board) 3 3 = Some Tile.WHITE ∧
  get_tile (_tiles opening_board) 4 4 = Some Tile.WHITE ∧
  get_tile (_tiles opening_board) 3 4 = Some Tile.BLACK ∧
  get_tile (_tiles opening_board) 4 3 = Some Tile.BLACK ∧
  _next_to_move opening_board = Some Color.BLACK ∧
  valid_moves opening_board =
    [mkMove (Some Color.BLACK) 3 2; mkMove (Some Color.BLACK) 5 4;
     mkMove (Some Color.BLACK) 2 3; mkMove (Some Color.BLACK) 4 5] ∧
  length (valid_moves opening_board) = 4%nat ∧
  NoDup (valid_moves opening_board).
Proof.
  repeat split; try by vm_compute.
  apply (bool_decide_unpack (NoDup _)). by vm_compute.
Qed.

(** ** Repeated moves *)

(** C9. There is a board of a game with 58 empty cells on which
    [valid_moves] lists the same move twice: two rays of the stone-seeded
    scan end on the same empty cell and each one appends it. *)
Theorem valid_moves_repeats :
  ∃ b m,
    reachable b ∧
    50 <= count_tile (_tiles b) Tile.EMPTY ∧
    50 <= _empty_count b ∧
    valid_moves b = ray_scan (_tiles b) Tile.BLACK Tile.BLACK Tile.EMPTY false ∧
    (2 ≤ length (filter (fun m' => m' = m) (valid_moves b)))%nat ∧
    ¬ NoDup (valid_moves b).
Proof.
  exists doubled_board, (mkMove (Some Color.BLACK) 5 2). split; [|split; [|split; [|split; [|split]]]].
  - destruct (apply opening_board (mkMove (Some Color.BLACK) 3 2)) as [b1|] eqn:H1;
      [|by vm_compute in H1].
    assert (reachable b1) as Hr1.
    { eapply reach_apply; [constructor| |exact H1].
      apply (bool_decide_unpack (_ ∈ _)). by vm_compute. }
    vm_compute in H1. injection H1 as <-.
    eapply reach_apply; [exact Hr1| |].
    + apply (bool_decide_unpack (mkMove (Some Color.WHITE) 4 2 ∈ _)). by vm_compute.
    + by vm_compute.
  - by vm_compute.
  - by vm_compute.
  - by vm_compute.
  - vm_compute. lia.
  - intros Hnd. apply (bool_decide_pack (NoDup _)) in Hnd. by vm_compute in Hnd.
Qed.

(** ** Static evaluation *)

Section Evaluate.
Variable matrix : list (list Z).

Lemma heuristic_row_neg (my other : Tile.t) (row : list (Tile.t * Z)) (s : Z) :
  my ≠ other →
  foldl (fun score '(tile, tile_score) =>
           if decide (tile = other) then score + tile_score
           else if decide (tile = my) then score - tile_score
           else score) (- s) row
  = - foldl (fun score '(tile, tile_score) =>
           if decide (tile = my) then score + tile_score
           else if decide (tile = other) then score - tile_score
           else score) s row.
Proof.
  intros Hne. revert s. induction row as [|[tile w] row IH]; intros s; [done|].
  cbn [foldl].
  destruct (decide (tile = my)) as [->|], (decide (_ = other)) as [->|]; try done.
  - rewrite <- IH. f_equal. lia.
  - rewrite <- IH. f_equal. lia.
Qed.

Lemma heuristic_rows_neg (my other : Tile.t) (rows : list (list Tile.t * list Z)) (s : Z) :
  my ≠ other →
  foldl (fun score '(row, score_row) =>
    foldl (fun score '(tile, tile_score) =>
             if decide (tile = other) then score + tile_score
             else if decide (tile = my) then score - tile_score
             else score) score (zip row score_row)) (- s) rows
  = - foldl (fun score '(row, score_row) =>
    foldl (fun score '(tile, tile_score) =>
             if decide (tile = my) then score + tile_score
             else if decide (tile = other) then score - tile_score
             else score) score (zip row score_row)) s rows.
Proof.
  intros Hne. revert s. induction rows as [|[row score_row] rows IH]; intros s; [done|].
  cbn [foldl]. rewrite heuristic_row_neg by done. apply IH.
Qed.

Lemma evaluate_heuristic_neg board c :
  _evaluate_heuristic matrix board (Some c)
  = - _evaluate_heuristic matrix board (Some (Color.other c)).
Proof.
  unfold _evaluate_heuristic.
  replace (Tile.for_color (Some (Color.other c)))
    with (Tile.other (Tile.for_color (Some c))) by (by destruct c).
  replace (Tile.other (Tile.other (Tile.for_color (Some c))))
    with (Tile.for_color (Some c)) by (by destruct c).
  change 0 with (- 0) at 1.
  rewrite (heuristic_rows_neg (Tile.other (Tile.for_color (Some c))) (Tile.for_color (Some c)))
    by (by destruct c).
  done.
Qed.

(** C6. On a board that is not finished the evaluation of one color is
    exactly minus the evaluation of the other.  On a finished board it is
    999 for the color [winning_color] names, -999 for the other color, and
    0 for both when [winning_color] is none; it is then one of these three
    numbers and the weight matrix plays no part. *)
Theorem evaluate_antisymmetric board c :
  (finished board = false →
     _evaluate matrix board (Some c) = - _evaluate matrix board (Some (Color.other c))) ∧
  (finished board = true →
     (winning_color (score board) = Some c → _evaluate matrix board (Some c) = 999) ∧
     (winning_color (score board) = Some (Color.other c) →
        _evaluate matrix board (Some c) = -999) ∧
     (winning_color (score board) = None →
        _evaluate matrix board (Some c) = 0 ∧
        _evaluate matrix board (Some (Color.other c)) = 0) ∧
     (∀ matrix', _evaluate matrix' board (Some c) = _evaluate matrix board (Some c)) ∧
     (_evaluate matrix board (Some c) = 999 ∨ _evaluate matrix board (Some c) = -999 ∨
      _evaluate matrix board (Some c) = 0)).
Proof.
  unfold _evaluate. split; intros ->.
  - apply evaluate_heuristic_neg.
  - destruct (winning_color (score board)) as [w|].
    + repeat split; try done.
      * intros [= ->]. by rewrite decide_True.
      * intros [= ->]. rewrite decide_False; [done|]. by destruct c.
      * destruct (decide (Some c = Some w)); auto.
    + repeat split; try done. auto.
Qed.

(** The winner named by [score] is the color with more stones on the
    grid, unless a stale value sits in the cache. *)
Lemma score_counts board :
  _score board = None →
  black_stones (score board) = count_tile (_tiles board) Tile.BLACK ∧
  white_stones (score board) = count_tile (_tiles board) Tile.WHITE ∧
  score_next_to_move (score board) = _next_to_move board.
Proof. unfold score. by intros ->. Qed.

Lemma score_cached_same board : score (score_cached board) = score board.
Proof. done. Qed.
End Evaluate.

(** ** [next_move] on a finished board *)

(** C10. On a finished board [next_move] does not raise: it returns no
    move and leaves in [_last_score] the evaluation of the finished board
    for the color [None], which is 0 on a draw and -999 otherwise. *)
Theorem next_move_finished self board :
  finished board = true →
  ∃ s,
    next_move self board
    = Ok (None, mkPlayer (player_color self) (depth self) (_matrix self) (Some s)) ∧
    s = _evaluate (_matrix self) board (_next_to_move board) ∧
    s = (if decide (winning_color (score board) = None) then 0 else -999) ∧
    (s = 999 ∨ s = -999 ∨ s = 0).
Proof.
  intros Hfin. exists (_evaluate (_matrix self) board (_next_to_move board)).
  split; [|split; [done|]].
  - unfold next_move. destruct (depth self); cbn [_negamax]; [done|]. by rewrite Hfin.
  - unfold _evaluate. rewrite Hfin. unfold finished in Hfin.
    destruct (_next_to_move board); [done|].
    destruct (winning_color (score board)); cbn; auto.
Qed.

(** ** Counting cells *)

Lemma set_tile_inside g x y t row :
  on_board (x, y) → g !! Z.to_nat x = Some row → length row = 8%nat →
  set_tile g x y t = Ok (<[Z.to_nat x := <[Z.to_nat y := t]> row]> g).
Proof.
  intros [Hx Hy] Hrow Hlen. simpl in *. unfold set_tile.
  rewrite (getitem_inside _ _ row) by (done || lia). cbn [mbind Exc_bind ebind].
  rewrite setitem_inside by lia. cbn [ebind].
  apply setitem_inside. apply lookup_lt_Some in Hrow. lia.
Qed.

Lemma wf_row g n row : wf_grid g → g !! n = Some row → length row = 8%nat.
Proof.
  intros [_ Hrows] Hrow. rewrite Forall_forall in Hrows.
  apply Hrows, list_elem_of_lookup. eauto.
Qed.

Lemma cell_set_tile g x y t g' x' y' :
  wf_grid g → on_board (x, y) → set_tile g x y t = Ok g' → 0 <= x' → 0 <= y' →
  cell g' x' y' = if decide (x' = x ∧ y' = y) then Some t else cell g x' y'.
Proof.
  intros Hwf Hxy Hs Hx' Hy'. pose proof Hxy as [Hx Hy]. simpl in *.
  destruct (lookup_lt_is_Some_2 g (Z.to_nat x)) as [row Hrow]; [destruct Hwf; lia|].
  pose proof (wf_row g _ row Hwf Hrow) as Hlen.
  rewrite (set_tile_inside g x y t row) in Hs by done. injection Hs as <-.
  unfold cell. destruct (decide (Z.to_nat x' = Z.to_nat x)) as [Heq|Hne].
  - rewrite Heq, list_lookup_insert_eq by (apply lookup_lt_Some in Hrow; lia).
    rewrite Hrow. destruct (decide (Z.to_nat y' = Z.to_nat y)) as [Heq'|Hne'].
    + rewrite Heq', list_lookup_insert_eq by lia.
      rewrite decide_True; [done|lia].
    + rewrite list_lookup_insert_ne by done. rewrite decide_False; [done|lia].
  - rewrite list_lookup_insert_ne by done. rewrite decide_False; [done|lia].
Qed.

Lemma count_row_insert (row : list Tile.t) k old t q :
  row !! k = Some old →
  Z.of_nat (length (filter (fun c => c = q) (<[k:=t]> row)))
  = Z.of_nat (length (filter (fun c => c = q) row))
    - (if decide (old = q) then 1 else 0) + (if decide (t = q) then 1 else 0).
Proof.
  intros Hk. rewrite insert_take_drop by (by eapply lookup_lt_Some).
  rewrite <- (take_drop_middle row k old Hk) at 3.
  rewrite !filter_app, !filter_cons, !length_app.
  destruct (decide (old = q)), (decide (t = q)); simpl; lia.
Qed.

Lemma count_grid_insert (g : Grid) n row row' q :
  g !! n = Some row →
  count_tile (<[n:=row']> g) q
  = count_tile g q - Z.of_nat (length (filter (fun c => c = q) row))
    + Z.of_nat (length (filter (fun c => c = q) row')).
Proof.
  intros Hn. unfold count_tile. rewrite insert_take_drop by (by eapply lookup_lt_Some).
  rewrite <- (take_drop_middle g n row Hn) at 3.
  rewrite !concat_app, !concat_cons, !filter_app, !length_app. lia.
Qed.

Lemma count_set_tile g x y t g' old q :
  wf_grid g → on_board (x, y) → cell g x y = Some old → set_tile g x y t = Ok g' →
  count_tile g' q
  = count_tile g q - (if decide (old = q) then 1 else 0) + (if decide (t = q) then 1 else 0).
Proof.
  intros Hwf Hxy Hc Hs. unfold cell in Hc.
  destruct (g !! Z.to_nat x) as [row|] eqn:Hrow; [|done].
  rewrite (set_tile_inside g x y t row) in Hs by (done || by eapply wf_row).
  injection Hs as <-.
  rewrite (count_grid_insert g _ row) by done.
  rewrite (count_row_insert row _ old) by done. lia.
Qed.

Lemma paint_count tile path g g' :
  wf_grid g → tile ≠ Tile.EMPTY →
  Forall (fun p => on_board p ∧ ∃ t', cell g p.1 p.2 = Some t' ∧ t' ≠ Tile.EMPTY) path →
  paint tile path g = Ok g' →
  count_tile g' Tile.EMPTY = count_tile g Tile.EMPTY.
Proof.
  unfold paint. intros Hwf Hne. revert g Hwf.
  induction path as [|[x y] path IH]; intros g Hwf Hpath; cbn [foldl].
  - by intros [= <-].
  - apply Forall_cons in Hpath as [(Hxy & old & Hold & Hno) Hpath]. simpl in Hold.
    destruct (set_tile_on_board g x y tile Hwf Hxy) as [g1 Hg1].
    cbn [mbind Exc_bind ebind fst snd]. rewrite Hg1. intros Hp.
    rewrite (IH g1); [| by eapply set_tile_wf | | done].
    + rewrite (count_set_tile g x y tile g1 old) by done.
      rewrite !decide_False by done. lia.
    + eapply Forall_impl; [exact Hpath|]. intros [x' y'] (Hxy' & t' & Ht' & Hno').
      split; [done|]. destruct Hxy' as [? ?]. simpl in *.
      rewrite (cell_set_tile g x y tile g1) by (done || lia).
      destruct (decide _); eauto.
Qed.

Lemma collect_path_cells fuel g o x y dx dy path path' t :
  collect_path fuel g o x y dx dy path = (path', t) →
  Forall (fun p => get_tile g p.1 p.2 = Some o) path →
  Forall (fun p => get_tile g p.1 p.2 = Some o) path'.
Proof.
  revert x y path. induction fuel as [|fuel IH]; intros x y path; cbn [collect_path].
  - by intros [= <- _].
  - destruct (decide (get_tile g x y = Some o)) as [Ho|]; [|by intros [= <- _]].
    intros Hc Hpath. apply (IH _ _ _ Hc).
    apply Forall_app. split; [done|]. by apply Forall_singleton.
Qed.

Lemma flip_direction_count tile other mx my g nb g' :
  wf_grid g → tile ≠ Tile.EMPTY → other ≠ Tile.EMPTY → nb ∈ neighbour_cells mx my →
  flip_direction tile other mx my (Ok g) nb = Ok g' →
  count_tile g' Tile.EMPTY = count_tile g Tile.EMPTY.
Proof.
  intros Hwf Ht Ho Hnb. destruct nb as [ox oy]. unfold flip_direction.
  cbn [mbind Exc_bind ebind].
  destruct (decide (cell g ox oy = Some other)) as [Hc|]; [|by intros [= <-]].
  destruct (collect_path RAY g other _ _ _ _ _) as [path t] eqn:Hcp.
  destruct (decide (Some tile = t)); [|by intros [= <-]].
  apply paint_count; [done|done|].
  eapply collect_path_cells in Hcp.
  - eapply Forall_impl; [exact Hcp|]. intros [x y] Hg.
    apply get_tile_Some in Hg as [Hxy Hg]. split; [done|]. eauto.
  - apply Forall_singleton. apply get_tile_Some. split; [|done].
    by apply elem_of_neighbour_cells in Hnb as [_ ?].
Qed.

Lemma flips_count tile other mx my nbs g g' :
  wf_grid g → tile ≠ Tile.EMPTY → other ≠ Tile.EMPTY →
  (∀ nb, nb ∈ nbs → nb ∈ neighbour_cells mx my) →
  foldl (flip_direction tile other mx my) (Ok g) nbs = Ok g' →
  count_tile g' Tile.EMPTY = count_tile g Tile.EMPTY.
Proof.
  intros Hwf Ht Ho. revert g Hwf.
  induction nbs as [|nb nbs IH]; intros g Hwf Hnbs; cbn [foldl]; [by intros [= <-]|].
  destruct (flip_direction_ok tile other mx my g nb Hwf) as (g1 & Hg1 & Hwf1).
  { apply Hnbs. left. }
  rewrite Hg1. intros Hf.
  rewrite (IH g1 Hwf1); [|intros; apply Hnbs; by right|done].
  apply (flip_direction_count tile other mx my g nb g1); [done..| |exact Hg1].
  apply Hnbs. left.
Qed.

Lemma place_count g tile x y g' :
  wf_grid g → stone tile → get_tile g x y = Some Tile.EMPTY →
  place g tile x y = Ok g' →
  count_tile g' Tile.EMPTY = count_tile g Tile.EMPTY - 1.
Proof.
  intros Hwf Hst He. apply get_tile_Some in He as [Hxy He]. unfold place.
  destruct (set_tile_on_board g x y tile Hwf Hxy) as [g0 Hg0]. rewrite Hg0.
  cbn [mbind Exc_bind ebind]. intros Hf.
  destruct (stone_other tile Hst) as [_ Hso].
  assert (tile ≠ Tile.EMPTY) as Ht by (by destruct Hst as [-> | ->]).
  assert (Tile.other tile ≠ Tile.EMPTY) as Ho by (by destruct Hso as [-> | ->]).
  rewrite (flips_count tile (Tile.other tile) x y (neighbour_cells x y) g0 g');
    [|by eapply set_tile_wf|done..].
  rewrite (count_set_tile g x y tile g0 Tile.EMPTY) by done.
  rewrite decide_True by done. rewrite decide_False by done. lia.
Qed.

(** On the boards of a game the counter is the number of empty cells. *)
Lemma reachable_empty_count b :
  reachable b → _empty_count b = count_tile (_tiles b) Tile.EMPTY.
Proof.
  induction 1 as [|b m b' Hr IH Hm Ha]; [by vm_compute|].
  pose proof (reachable_wf b Hr) as Hwf.
  apply valid_moves_cases in Hm.
  destruct Hm as [Hin|(-> & Hnil & Hother)].
  - apply valid_moves_for_iff in Hin as (x & y & -> & Hl);
      [|done|apply for_color_stone].
    destruct (color_for_color (_next_to_move b)) as [c Hc].
    destruct (apply_place b (mkMove (Tile.color (Tile.for_color (_next_to_move b))) x y) c)
      as (g' & Hwf' & Hp & Ha'); [done|done| |by eapply legal_cell_on_board|].
    { apply legal_cell_on_board in Hl as [? _]. unfold is_skip. simpl in *. lia. }
    rewrite Ha' in Ha. injection Ha as <-. cbn zeta.
    assert (count_tile g' Tile.EMPTY = count_tile (_tiles b) Tile.EMPTY - 1) as Hcount.
    { eapply place_count; [done| |by destruct Hl|exact Hp]. apply for_color_stone. }
    destruct (valid_moves _); cbn; lia.
  - destruct (color_for_color (_next_to_move b)) as [c Hc].
    rewrite (apply_skip b _ c) in Ha by done. by injection Ha as <-.
Qed.

(** ** The two seeding strategies *)

(** C1 (amended). The scan is chosen by the counter [_empty_count], which
    on the boards of a game is the number of empty cells.  Below 50 the
    rays start from the empty cells, must end on a stone of the mover, and
    the start cell is recorded; from 50 upwards the rays start from the
    stones of the mover, must end on an empty cell, and the end cell is
    recorded. *)
Theorem seeding_by_empty_count b tile :
  wf_board b → stone tile →
  (_empty_count b < 50 →
     _valid_moves_for b tile = ray_scan (_tiles b) tile Tile.EMPTY tile true ∧
     ∀ m, m ∈ _valid_moves_for b tile ↔
          ∃ x y, m = mkMove (Tile.color tile) x y ∧ seeded_at_empty (_tiles b) tile x y) ∧
  (50 <= _empty_count b →
     _valid_moves_for b tile = ray_scan (_tiles b) tile tile Tile.EMPTY false ∧
     ∀ m, m ∈ _valid_moves_for b tile ↔
          ∃ x y, m = mkMove (Tile.color tile) x y ∧ seeded_at_stone (_tiles b) tile x y) ∧
  (reachable b → _empty_count b = count_tile (_tiles b) Tile.EMPTY).
Proof.
  intros Hwf Hst. unfold _valid_moves_for. split; [|split].
  - intros Hlt. destruct (_empty_count b <? 50) eqn:E; [|lia].
    split; [done|]. intros m. by apply ray_scan_empty_seeded.
  - intros Hge. destruct (_empty_count b <? 50) eqn:E; [lia|].
    split; [done|]. intros m. by apply ray_scan_stone_seeded.
  - apply reachable_empty_count.
Qed.

Lemma seeding_by_empty_count_witness :
  _valid_moves_for opening_board Tile.BLACK
  = ray_scan (_tiles opening_board) Tile.BLACK Tile.BLACK Tile.EMPTY false.
Proof.
  destruct (seeding_by_empty_count opening_board Tile.BLACK) as (_ & H & _).
  - split; [done|repeat constructor].
  - by left.
  - apply H. by vm_compute.
Defined.

(** The opening has 60 empty cells and is scanned from the stones. *)
Lemma seeding_as_specified_fails :
  ¬ seeding_as_specified opening_board Tile.BLACK.
Proof.
  intros [H _]. specialize (H ltac:(by vm_compute)). by vm_compute in H.
Qed.

Lemma valid_moves_iff b m :
  wf_board b →
  let tile := Tile.for_color (_next_to_move b) in
  m ∈ valid_moves b ↔
  (∃ x y, m = mkMove (Tile.color tile) x y ∧ legal_cell (_tiles b) tile x y) ∨
  (m = create_skip (Tile.color tile) ∧
   (¬ ∃ x y, legal_cell (_tiles b) tile x y) ∧
   ∃ x y, legal_cell (_tiles b) (Tile.other tile) x y).
Proof.
  intros Hwf tile.
  assert (stone tile) as Hst by apply for_color_stone.
  assert (stone (Tile.other tile)) as Hso by (by apply stone_other).
  rewrite <- (valid_moves_for_iff b tile m) by done.
  rewrite <- (valid_moves_for_nil b tile) by done.
  assert ((∃ x y, legal_cell (_tiles b) (Tile.other tile) x y)
          ↔ _valid_moves_for b (Tile.other tile) ≠ []) as ->.
  { pose proof (valid_moves_for_nil b (Tile.other tile) Hwf Hso) as Hn.
    split.
    - intros Hex Hnil. by apply Hn in Hnil.
    - intros Hne. destruct (_valid_moves_for b (Tile.other tile)) as [|m' l] eqn:E; [done|].
      assert (m' ∈ _valid_moves_for b (Tile.other tile)) as Hin by (rewrite E; left).
      apply valid_moves_for_iff in Hin as (x & y & _ & Hl); [|done..]. by exists x, y. }
  unfold valid_moves. fold tile.
  destruct (_valid_moves_for b tile) as [|m1 l1] eqn:E1.
  - destruct (_valid_moves_for b (Tile.other tile)) as [|m2 l2] eqn:E2.
    + split; [by intros ?%elem_of_nil|]. intros [?%elem_of_nil|(_ & _ & ?)]; done.
    + rewrite list_elem_of_singleton. split; [by right|].
      by intros [?%elem_of_nil|(-> & _)].
  - split; [by left|]. by intros [?|(_ & ? & _)].
Qed.

(** For every grid and mover the two scans find the same destination
    cells, so the counter that selects the scan changes neither the moves
    offered nor whether the mover must pass nor whether any move is left. *)
Lemma strategies_same_moves b c :
  wf_board b →
  (∀ m, m ∈ ray_scan (_tiles b) (Tile.for_color (Some c)) Tile.EMPTY (Tile.for_color (Some c)) true
      ↔ m ∈ ray_scan (_tiles b) (Tile.for_color (Some c)) (Tile.for_color (Some c)) Tile.EMPTY false) ∧
  (∀ x y, seeded_at_empty (_tiles b) (Tile.for_color (Some c)) x y
        ↔ seeded_at_stone (_tiles b) (Tile.for_color (Some c)) x y) ∧
  (∀ n m, m ∈ _valid_moves_for (set_empty_count n b) (Tile.for_color (Some c))
        ↔ m ∈ _valid_moves_for b (Tile.for_color (Some c))) ∧
  (∀ n m, m ∈ valid_moves (set_empty_count n b) ↔ m ∈ valid_moves b) ∧
  (∀ n, valid_moves (set_empty_count n b) = [] ↔ valid_moves b = []).
Proof.
  intros Hwf. pose proof (for_color_stone (Some c)) as Hst.
  split; [|split; [|split; [|split]]].
  - intros m. rewrite ray_scan_empty_seeded, ray_scan_stone_seeded by done.
    by setoid_rewrite seeded_equiv.
  - intros x y. apply seeded_equiv.
  - intros n m. by rewrite !valid_moves_for_iff.
  - intros n m. by rewrite !valid_moves_iff.
  - intros n. by rewrite !valid_moves_nil_iff.
Qed.


(** ** Alpha-beta pruning *)

Lemma window_neg alpha beta : window alpha beta → window (neg beta) (neg alpha).
Proof. destruct alpha, beta; simpl; lia. Qed.

Lemma fail_soft_neg alpha beta r v :
  fail_soft (neg beta) (neg alpha) r v → fail_soft alpha beta (- r) (- v).
Proof. unfold fail_soft. destruct alpha, beta; simpl; lia. Qed.

Lemma maxl_ge {A} (f : A → Z) l x : ∃ V, maxl f l (Some x) = Some V ∧ x <= V.
Proof.
  revert x. induction l as [|a l IH]; intros x; [exists x; split; [done|lia]|].
  unfold maxl in *. cbn [foldl opt_max].
  destruct (IH (Z.max x (f a))) as (V & -> & HV). exists V. split; [done|lia].
Qed.

Lemma maxl_cons {A} (f : A → Z) a l T :
  maxl f (a :: l) T = maxl f l (Some (opt_max T (f a))).
Proof. done. Qed.

Section Loop.
Variables (recurse : Board → option Z → option Z → option Color.t → Exc NegamaxResult).
Variables (tv : Board → Z) (good : Board → Prop).
Variables (board : Board) (c : Color.t) (alpha0 beta : option Z).

Hypothesis recurse_fail_soft :
  ∀ ch alpha beta, good ch → window alpha beta →
    ∃ r mv, recurse ch alpha beta (Some (Color.other c)) = Ok (mkResult (Some r) mv) ∧
            fail_soft alpha beta r (tv ch).
Hypothesis root_window : window alpha0 beta.

Local Abbreviation t_of := (move_value tv board).
Local Abbreviation good_item := (searchable good board).

(** One round of the loop: the score the round computes for its item. *)
Lemma round item alpha :
  good_item item → window alpha beta →
  ∃ ch r mv, apply board item.2 = Ok ch ∧
    recurse ch (neg beta) (neg alpha) (Some (Color.other c)) = Ok (mkResult (Some r) mv) ∧
    fail_soft alpha beta (- r) (t_of item.2).
Proof.
  intros (ch & Hch & Hgood) Hw.
  destruct (recurse_fail_soft ch (neg beta) (neg alpha) Hgood (window_neg _ _ Hw))
    as (r & mv & Hr & Hfs).
  exists ch, r, mv. split; [done|]. split; [done|].
  unfold move_value, child. rewrite Hch. by apply fail_soft_neg.
Qed.

Lemma loop_fail_soft items :
  ∀ value best_move T,
    Forall good_item items →
    window (raised alpha0 value) beta →
    (value = None → T = None) →
    (T = None → value = None) →
    (∀ v, value = Some v → ¬ lt_lo alpha0 v → ∀ x, T = Some x → x <= v) →
    (∀ v, value = Some v → lt_lo alpha0 v → T = Some v) →
    ∃ res, search_loop recurse board (Some c) beta items value best_move
             (raised alpha0 value) = Ok res ∧
      match maxl t_of (map snd items) T with
      | Some V => ∃ r, nr_score res = Some r ∧ fail_soft alpha0 beta r V
      | None => nr_score res = None
      end.
Proof.
  induction items as [|item items IH]; intros value best_move T Hgood Hw HN HS HA HB.
  - eexists. split; [done|]. cbn. destruct T as [V|].
    + destruct value as [r|]; [|by specialize (HN eq_refl)].
      exists r. split; [done|]. unfold fail_soft. specialize (HA r eq_refl).
      specialize (HB r eq_refl). split; [|split].
      * intros Hlo. by apply (HA Hlo).
      * intros Hhi. exfalso. apply Hhi. cbn in Hw.
        destruct alpha0, beta; cbn in *; lia.
      * intros Hlo _. specialize (HB Hlo). congruence.
    + by rewrite (HS eq_refl).
  - apply Forall_cons in Hgood as [Hitem Hgood].
    destruct (round item (raised alpha0 value) Hitem Hw) as (ch & rc & mv & Hch & Hrc & Hfs).
    cbn [search_loop map]. rewrite Hch. cbn [mbind Exc_bind ebind]. rewrite Hrc.
    cbn [mbind Exc_bind ebind nr_score]. rewrite maxl_cons.
    assert (match value, T with
            | None, None => True
            | Some v, Some x => (lt_lo alpha0 v → x = v) ∧ (¬ lt_lo alpha0 v → x <= v)
            | _, _ => False
            end) as HAB.
    { destruct value as [v|], T as [x|]; try done.
      - split; [intros H; specialize (HB v eq_refl H); congruence|].
        intros H. exact (HA v eq_refl H x eq_refl).
      - by specialize (HS eq_refl).
      - by specialize (HN eq_refl). }
    clear HN HS HA HB.
    set (s := - rc) in *. set (t := t_of item.2) in *.
    set (value' := match value with Some v => if s >? v then s else v | None => s end).
    assert ((match value with
             | Some v => if s >? v then (s, Some item.2) else (v, best_move)
             | None => (s, Some item.2)
             end) = (value', match value with
                             | Some v => if s >? v then Some item.2 else best_move
                             | None => Some item.2
                             end)) as ->.
    { unfold value'. destruct value as [v|]; [|done]. by destruct (s >? v). }
    set (best' := match value with
                  | Some v => if s >? v then Some item.2 else best_move
                  | None => Some item.2
                  end).
    assert (match raised alpha0 value with
            | Some a => if value' >? a then value' else a
            | None => value'
            end = opt_max alpha0 value') as Hraised.
    { unfold raised, value', opt_max. destruct value as [v|], alpha0 as [a|]; cbn;
        repeat (match goal with |- context [?x >? ?y] => destruct (Z.gtb_spec x y) end);
        lia. }
    rewrite Hraised. clear Hraised.
    assert (Some (opt_max alpha0 value') = raised alpha0 (Some value')) as ->.
    { by destruct alpha0. }
    assert (value' = opt_max value s) as Hvalue'.
    { unfold value', opt_max. destruct value as [v|]; [|done].
      destruct (Z.gtb_spec s v); lia. }
    clearbody value' best'. subst value'.
    destruct (match beta with
              | Some b => opt_max alpha0 (opt_max value s) >=? b
              | None => false
              end) eqn:Hcut.
    + (* cutoff *)
      eexists. split; [done|]. cbn [nr_score].
      destruct (maxl_ge t_of (map snd items) (opt_max T t)) as (V & -> & HV).
      eexists. split; [done|].
      destruct beta as [b|]; [|done].
      unfold fail_soft, raised, opt_max in *.
      destruct value as [v|], alpha0 as [a|], T as [x|]; cbn in *; lia.
    + (* the loop goes on *)
      assert (window (raised alpha0 (Some (opt_max value s))) beta) as Hw'.
      { destruct beta as [b|]; [|by destruct alpha0].
        unfold raised, opt_max in *. destruct value, alpha0; cbn in *; lia. }
      apply (IH (Some (opt_max value s)) best' (Some (opt_max T t)) Hgood Hw');
        [done|done| |].
      * intros v' [= <-] Hlo x' [= <-].
        unfold fail_soft, raised, opt_max in *.
        destruct value as [v|], alpha0 as [a|], T as [x|], beta as [b|];
          cbn in *; lia.
      * intros v' [= <-] Hlo. f_equal.
        unfold fail_soft, raised, opt_max in *.
        destruct value as [v|], alpha0 as [a|], T as [x|], beta as [b|];
          cbn in *; lia.
Qed.

(** After the best move has been seen nothing changes any more. *)
Lemma loop_after items :
  ∀ best_move V,
    Forall good_item items →
    (∀ item, item ∈ items → t_of item.2 <= V) →
    lt_lo alpha0 V → lt_hi V beta →
    search_loop recurse board (Some c) beta items (Some V) best_move
      (raised alpha0 (Some V)) = Ok (mkResult (Some V) best_move).
Proof.
  induction items as [|item items IH]; intros best_move V Hgood Hle Hlo Hhi; [done|].
  apply Forall_cons in Hgood as [Hitem Hgood].
  assert (window (raised alpha0 (Some V)) beta) as Hw.
  { unfold raised. destruct alpha0, beta; cbn in *; lia. }
  destruct (round item _ Hitem Hw) as (ch & rc & mv & Hch & Hrc & Hfs).
  cbn [search_loop]. rewrite Hch. cbn [mbind Exc_bind ebind]. rewrite Hrc.
  cbn [mbind Exc_bind ebind nr_score].
  pose proof (Hle item ltac:(left)) as Ht.
  assert (- rc <= V) as Hs.
  { unfold fail_soft, raised in Hfs. destruct alpha0, beta; cbn in *; lia. }
  destruct (Z.gtb_spec (- rc) V) as [|_]; [lia|].
  assert (match raised alpha0 (Some V) with
          | Some a => if V >? a then V else a
          | None => V
          end = V) as ->.
  { unfold raised. destruct alpha0; cbn in *;
      repeat (match goal with |- context [?x >? ?y] => destruct (Z.gtb_spec x y) end); lia. }
  assert (match beta with Some b => V >=? b | None => false end = false) as ->.
  { destruct beta; cbn in *; lia. }
  assert (Some V = raised alpha0 (Some V)) as Hr.
  { unfold raised. destruct alpha0; cbn in *; f_equal; lia. }
  rewrite Hr at 2. apply IH; [done| |done|done].
  intros item' Hin. apply Hle. by right.
Qed.

(** Inside the window the loop returns the exact value and the first of
    the ordered moves that reaches it. *)
Lemma loop_exact items :
  ∀ value best_move V,
    Forall good_item items →
    (∀ v, value = Some v → v < V) →
    (∀ item, item ∈ items → t_of item.2 <= V) →
    (∃ item, item ∈ items ∧ t_of item.2 = V) →
    lt_lo alpha0 V → lt_hi V beta →
    search_loop recurse board (Some c) beta items value best_move
      (raised alpha0 value) = Ok (mkResult (Some V) (first_best t_of V items)).
Proof.
  induction items as [|item items IH]; intros value best_move V Hgood Hv Hle Hex Hlo Hhi.
  { destruct Hex as (item & Hin & _). by apply elem_of_nil in Hin. }
  apply Forall_cons in Hgood as [Hitem Hgood].
  assert (window (raised alpha0 value) beta) as Hw.
  { unfold raised. destruct value as [v|]; [specialize (Hv v eq_refl)|];
      destruct alpha0, beta; cbn in *; lia. }
  destruct (round item _ Hitem Hw) as (ch & rc & mv & Hch & Hrc & Hfs).
  cbn [search_loop first_best]. rewrite Hch. cbn [mbind Exc_bind ebind]. rewrite Hrc.
  cbn [mbind Exc_bind ebind nr_score].
  pose proof (Hle item ltac:(left)) as Ht.
  set (s := - rc) in *. set (t := t_of item.2) in *.
  destruct (decide (t = V)) as [HtV|HtV].
  - assert (s = V) as ->.
    { unfold fail_soft, raised in Hfs.
      destruct value as [v|]; [specialize (Hv v eq_refl)|];
        destruct alpha0, beta; cbn in *; lia. }
    assert ((match value with
             | Some v => if V >? v then (V, Some item.2) else (v, best_move)
             | None => (V, Some item.2)
             end) = (V, Some item.2)) as ->.
    { destruct value as [v|]; [|done]. specialize (Hv v eq_refl).
      destruct (Z.gtb_spec V v); [done|lia]. }
    assert (match raised alpha0 value with
            | Some a => if V >? a then V else a
            | None => V
            end = V) as ->.
    { unfold raised. destruct value as [v|]; [specialize (Hv v eq_refl)|];
        destruct alpha0; cbn in *;
        repeat (match goal with |- context [?x >? ?y] => destruct (Z.gtb_spec x y) end);
        lia. }
    assert (match beta with Some b => V >=? b | None => false end = false) as ->.
    { destruct beta; cbn in *; lia. }
    assert (Some V = raised alpha0 (Some V)) as Hr.
    { unfold raised. destruct alpha0; cbn in *; f_equal; lia. }
    rewrite Hr at 2. apply loop_after; [done| |done|done].
    intros item' Hin. apply Hle. by right.
  - assert (s < V) as Hs.
    { unfold fail_soft, raised in Hfs.
      destruct value as [v|]; [specialize (Hv v eq_refl)|];
        destruct alpha0, beta; cbn in *; lia. }
    set (value' := match value with Some v => if s >? v then s else v | None => s end).
    assert ((match value with
             | Some v => if s >? v then (s, Some item.2) else (v, best_move)
             | None => (s, Some item.2)
             end) = (value', match value with
                             | Some v => if s >? v then Some item.2 else best_move
                             | None => Some item.2
                             end)) as ->.
    { unfold value'. destruct value as [v|]; [|done]. by destruct (s >? v). }
    assert (value' < V) as Hv'.
    { unfold value'. destruct value as [v|]; [specialize (Hv v eq_refl)|]; [|done].
      destruct (Z.gtb_spec s v); lia. }
    assert (Some (match raised alpha0 value with
                  | Some a => if value' >? a then value' else a
                  | None => value'
                  end) = raised alpha0 (Some value')) as Hraised.
    { unfold raised, value'. destruct value as [v|], alpha0 as [a|]; cbn; f_equal;
        repeat (match goal with |- context [?x >? ?y] => destruct (Z.gtb_spec x y) end);
        lia. }
    assert (match beta with
            | Some b => (match raised alpha0 value with
                         | Some a => if value' >? a then value' else a
                         | None => value'
                         end) >=? b
            | None => false
            end = false) as ->.
    { injection Hraised as ->. destruct beta as [b|]; [|done].
      destruct alpha0; cbn in *; lia. }
    rewrite Hraised. apply IH; [done| | |  |done|done].
    + by intros v [= <-].
    + intros item' Hin. apply Hle. by right.
    + destruct Hex as (item' & Hin & Hitem').
      apply elem_of_cons in Hin as [->|Hin]; [done|]. by exists item'.
Qed.
End Loop.

(** ** Ordering the moves *)

Lemma insert_desc_perm {A} (item : Z * A) l : insert_desc item l ≡ₚ item :: l.
Proof.
  induction l as [|head tail IH]; cbn [insert_desc]; [done|].
  destruct (head.1 <=? item.1); [done|]. rewrite IH. apply Permutation_swap.
Qed.

Lemma sort_desc_perm {A} (l : list (Z * A)) : sort_desc l ≡ₚ l.
Proof.
  induction l as [|item l IH]; [done|]. cbn [sort_desc foldr].
  rewrite insert_desc_perm. by f_equiv.
Qed.

Lemma elem_of_sort_desc {A} (l : list (Z * A)) item : item ∈ sort_desc l ↔ item ∈ l.
Proof. by rewrite sort_desc_perm. Qed.

Lemma getitem_wrap {A} (l : list A) (i : Z) :
  - Z.of_nat (length l) <= i < Z.of_nat (length l) → ∃ a, getitem l i = Ok a.
Proof.
  intros Hi. unfold getitem.
  destruct (py_index (length l) i) as [n|] eqn:Hn.
  - destruct (lookup_lt_is_Some_2 l n) as [a Ha]; [by eapply py_index_lt|].
    rewrite Ha. eauto.
  - unfold py_index in Hn.
    destruct (0 <=? i) eqn:E1, (i <? Z.of_nat (length l)) eqn:E2; simpl in Hn; try done;
      destruct (i <? 0) eqn:E3, (- Z.of_nat (length l) <=? i) eqn:E4; simpl in Hn;
      try done; lia.
Qed.

Lemma valid_moves_indexable b m : wf_board b → m ∈ valid_moves b → indexable m.
Proof.
  intros Hwf Hin. apply valid_moves_iff in Hin; [|done].
  destruct Hin as [(x & y & -> & Hl)|(-> & _)].
  - apply legal_cell_on_board in Hl as [? ?]. unfold indexable. simpl in *. lia.
  - unfold indexable. simpl. lia.
Qed.

Lemma with_preference_ok matrix moves :
  wf_matrix matrix → Forall indexable moves →
  ∃ items, with_preference matrix moves = Ok items ∧ map snd items = moves.
Proof.
  intros [Hlen Hrows] Hmoves. induction Hmoves as [|m moves [Hx Hy] _ IH].
  - by exists [].
  - destruct IH as (items & Hitems & Hmap). cbn [with_preference].
    destruct (getitem_wrap matrix (move_x m)) as [row Hrow]; [lia|].
    rewrite Hrow. cbn [mbind Exc_bind ebind].
    assert (length row = 8%nat) as Hlr.
    { unfold getitem in Hrow. destruct (py_index _ _) as [n|]; [|done].
      destruct (matrix !! n) as [row'|] eqn:Hn; [|done]. injection Hrow as <-.
      rewrite Forall_forall in Hrows. apply Hrows, list_elem_of_lookup. eauto. }
    destruct (getitem_wrap row (move_y m)) as [w Hw]; [lia|].
    rewrite Hw. cbn [ebind]. rewrite Hitems. cbn [ebind].
    eexists. split; [done|]. cbn. by rewrite Hmap.
Qed.

(** ** The largest value of a list *)

Lemma maxl_app_some {A} (f : A → Z) l x :
  ∃ V, maxl f l (Some x) = Some V ∧ x <= V ∧ (∀ a, a ∈ l → f a <= V) ∧
       (V = x ∨ ∃ a, a ∈ l ∧ f a = V).
Proof.
  revert x. induction l as [|a l IH]; intros x.
  - exists x. split; [done|]. split; [lia|]. split; [by intros ? ?%elem_of_nil|by left].
  - rewrite maxl_cons. cbn [opt_max].
    destruct (IH (Z.max x (f a))) as (V & -> & Hge & Hall & Hex).
    exists V. split; [done|]. split; [lia|]. split.
    + intros a' [->|Hin]%elem_of_cons; [lia|by apply Hall].
    + destruct Hex as [->|(a' & Hin & <-)].
      * destruct (Z.max_spec x (f a)) as [[_ ->]|[_ ->]]; [right|by left].
        exists a. split; [left|done].
      * right. exists a'. split; [by right|done].
Qed.

Lemma maxl_spec {A} (f : A → Z) l V :
  maxl f l None = Some V ↔ (∀ a, a ∈ l → f a <= V) ∧ ∃ a, a ∈ l ∧ f a = V.
Proof.
  destruct l as [|a l].
  - split; [done|]. by intros [_ (a & Hin%elem_of_nil & _)].
  - rewrite maxl_cons. cbn [opt_max].
    destruct (maxl_app_some f l (f a)) as (V' & -> & Hge & Hall & Hex). split.
    + intros [= <-]. split.
      * intros a' [->|Hin]%elem_of_cons; [done|by apply Hall].
      * destruct Hex as [->|(a' & Hin & <-)].
        -- exists a. split; [left|done].
        -- exists a'. split; [by right|done].
    + intros [Hall' (a' & Hin & <-)]. f_equal.
      assert (V' <= f a').
      { destruct Hex as [->|(a'' & Hin'' & <-)]; apply Hall'; [left|by right]. }
      assert (f a' <= V').
      { apply elem_of_cons in Hin as [->|Hin]; [done|by apply Hall]. }
      lia.
Qed.

Lemma maxl_nil {A} (f : A → Z) l : maxl f l None = None ↔ l = [].
Proof.
  destruct l as [|a l]; [done|]. rewrite maxl_cons.
  destruct (maxl_ge f l (opt_max None (f a))) as (V & -> & _). done.
Qed.

Lemma maxl_same {A} (f : A → Z) l1 l2 :
  (∀ a, a ∈ l1 ↔ a ∈ l2) → maxl f l1 None = maxl f l2 None.
Proof.
  intros Hsame. destruct (maxl f l2 None) as [V|] eqn:E.
  - apply maxl_spec. apply maxl_spec in E as [Hall (a & Hin & Ha)].
    split; [intros a' Ha'; by apply Hall, Hsame|]. exists a. by rewrite Hsame.
  - apply maxl_nil in E as ->. apply maxl_nil.
    destruct l1 as [|a l1]; [done|]. exfalso. apply (elem_of_nil a), Hsame. left.
Qed.

(** ** The search *)

Section Negamax.
Variable matrix : list (list Z).
Hypothesis matrix_wf : wf_matrix matrix.

Local Abbreviation tv d c := (fun ch => minimax matrix d ch (Color.other c)).

Lemma ordered_moves b :
  wf_board b →
  ∃ items, with_preference matrix (valid_moves b) = Ok items ∧
    (∀ m, m ∈ map snd (sort_desc items) ↔ m ∈ valid_moves b) ∧
    Forall (searchable wf_board b) (sort_desc items).
Proof.
  intros Hwf.
  destruct (with_preference_ok matrix (valid_moves b) matrix_wf) as (items & Hitems & Hmap).
  { apply Forall_forall. intros m Hm. by eapply valid_moves_indexable. }
  exists items. split; [done|].
  assert (∀ m, m ∈ map snd (sort_desc items) ↔ m ∈ valid_moves b) as Hsame.
  { intros m. by rewrite sort_desc_perm, Hmap. }
  split; [done|]. apply Forall_forall. intros item Hin.
  apply apply_ok; [done|]. eapply valid_moves_wf; [done|].
  apply Hsame. apply list_elem_of_fmap. by exists item.
Qed.

Lemma minimax_step d b c items :
  finished b = false → valid_moves b ≠ [] →
  (∀ m, m ∈ map snd (sort_desc items) ↔ m ∈ valid_moves b) →
  maxl (move_value (tv d c) b) (map snd (sort_desc items)) None
  = Some (minimax matrix (S d) b c).
Proof.
  intros Hfin Hne Hsame. cbn [minimax]. rewrite Hfin.
  rewrite (maxl_same _ _ (valid_moves b) Hsame). unfold move_value.
  destruct (maxl _ (valid_moves b) None) eqn:E; [done|].
  by apply maxl_nil in E.
Qed.

Lemma negamax_step d b alpha beta c items :
  finished b = false → valid_moves b ≠ [] →
  with_preference matrix (valid_moves b) = Ok items →
  _negamax matrix (S d) b alpha beta (Some c)
  = search_loop (_negamax matrix d) b (Some c) beta (sort_desc items) None None alpha.
Proof.
  intros Hfin Hne Hitems. cbn [_negamax]. rewrite Hfin.
  destruct (valid_moves b); [done|]. by rewrite Hitems.
Qed.

(** The search is fail-soft: it never raises, and its score is the exact
    value inside the window and a bound on it outside. *)
Lemma negamax_fail_soft d :
  ∀ b alpha beta c,
    wf_board b → window alpha beta →
    ∃ r mv, _negamax matrix d b alpha beta (Some c) = Ok (mkResult (Some r) mv) ∧
            fail_soft alpha beta r (minimax matrix d b c).
Proof.
  assert (∀ alpha beta v, fail_soft alpha beta v v) as Hrefl.
  { intros. unfold fail_soft. lia. }
  induction d as [|d IH]; intros b alpha beta c Hwf Hw.
  { eexists _, _. split; [done|]. apply Hrefl. }
  destruct (finished b) eqn:Hfin.
  { eexists _, _. cbn [_negamax minimax]. rewrite Hfin. split; [done|]. apply Hrefl. }
  destruct (decide (valid_moves b = [])) as [Hnil|Hne].
  { eexists _, _. cbn [_negamax minimax]. rewrite Hfin, Hnil. split; [done|]. apply Hrefl. }
  destruct (ordered_moves b Hwf) as (items & Hitems & Hsame & Hgood).
  rewrite (negamax_step d b alpha beta c items) by done.
  destruct (loop_fail_soft (_negamax matrix d) (tv d c) wf_board b c alpha beta
              ltac:(intros; by apply IH) Hw (sort_desc items) None None None Hgood)
    as (res & Hres & Hmax); try done.
  change (raised alpha None) with alpha in Hres.
  rewrite (minimax_step d b c items) in Hmax by done.
  destruct Hmax as (r & Hr & Hfs). destruct res as [sc mv]. cbn in Hr. subst sc.
  by exists r, mv.
Qed.

(** With no bounds the score is the exact value. *)
Lemma negamax_exact d b c :
  wf_board b →
  ∃ mv, _negamax matrix d b None None (Some c)
        = Ok (mkResult (Some (minimax matrix d b c)) mv).
Proof.
  intros Hwf.
  destruct (negamax_fail_soft d b None None c Hwf I) as (r & mv & Hr & _ & _ & Hfs).
  exists mv. rewrite Hr. by rewrite (Hfs I I).
Qed.

(** A search whose root bounds have the exact value strictly between them
    returns the score and the move of the search without bounds. *)
Lemma negamax_in_window d b alpha beta c :
  wf_board b →
  lt_lo alpha (minimax matrix d b c) → lt_hi (minimax matrix d b c) beta →
  (∃ mv, _negamax matrix d b None None (Some c)
         = Ok (mkResult (Some (minimax matrix d b c)) mv)) ∧
  _negamax matrix d b alpha beta (Some c) = _negamax matrix d b None None (Some c).
Proof.
  intros Hwf Hlo Hhi. split; [by apply negamax_exact|].
  destruct d as [|d]; [done|].
  destruct (finished b) eqn:Hfin; [cbn [_negamax]; by rewrite Hfin|].
  destruct (decide (valid_moves b = [])) as [Hnil|Hne];
    [cbn [_negamax]; by rewrite Hfin, Hnil|].
  destruct (ordered_moves b Hwf) as (items & Hitems & Hsame & Hgood).
  rewrite !(negamax_step d b _ _ c items) by done.
  pose proof (minimax_step d b c items Hfin Hne Hsame) as Hmax.
  apply maxl_spec in Hmax as [Hall Hex].
  assert (∀ item, item ∈ sort_desc items →
            move_value (tv d c) b item.2 <= minimax matrix (S d) b c) as Hall'.
  { intros item Hin. apply Hall, list_elem_of_fmap. by exists item. }
  assert (∃ item, item ∈ sort_desc items ∧
            move_value (tv d c) b item.2 = minimax matrix (S d) b c) as Hex'.
  { destruct Hex as (m & (item & -> & Hin)%list_elem_of_fmap & Hm). by exists item. }
  assert (window alpha beta) as Hw.
  { destruct alpha, beta; cbn in *; lia. }
  pose proof (loop_exact (_negamax matrix d) (tv d c) wf_board b c alpha beta
                ltac:(intros; by apply negamax_fail_soft) Hw (sort_desc items) None None
                (minimax matrix (S d) b c) Hgood ltac:(done) Hall' Hex' Hlo Hhi) as H1.
  pose proof (loop_exact (_negamax matrix d) (tv d c) wf_board b c None None
                ltac:(intros; by apply negamax_fail_soft) I (sort_desc items) None None
                (minimax matrix (S d) b c) Hgood ltac:(done) Hall' Hex' I I) as H2.
  change (raised alpha None) with alpha in H1. change (raised None None) with (@None Z) in H2.
  by rewrite H1, H2.
Qed.
End Negamax.

(** ** Bounds that contain every score *)

Section Bound.
Variable matrix : list (list Z).

Lemma sum_abs_nonneg row : 0 <= sum_abs row.
Proof.
  induction row as [|w row IH]; [done|].
  change (sum_abs (w :: row)) with (Z.abs w + sum_abs row). lia.
Qed.

Lemma weight_sum_nonneg m : 0 <= weight_sum m.
Proof.
  induction m as [|row m IH]; [done|].
  change (weight_sum (row :: m)) with (sum_abs row + weight_sum m).
  pose proof (sum_abs_nonneg row). lia.
Qed.

Lemma heuristic_row_bound (my other : Tile.t) (score_row : list Z) :
  ∀ (row : list Tile.t) (s : Z),
    Z.abs (foldl (fun score '(tile, tile_score) =>
                    if decide (tile = my) then score + tile_score
                    else if decide (tile = other) then score - tile_score
                    else score) s (zip row score_row))
    <= Z.abs s + sum_abs score_row.
Proof.
  induction score_row as [|w score_row IH]; intros row s.
  - destruct row; cbn [zip zip_with foldl]; change (sum_abs []) with 0; lia.
  - destruct row as [|tile row]; cbn [zip zip_with foldl].
    + pose proof (sum_abs_nonneg (w :: score_row)). lia.
    + etrans; [apply IH|].
      change (sum_abs (w :: score_row)) with (Z.abs w + sum_abs score_row).
      destruct (decide (tile = my)), (decide (tile = other)); lia.
Qed.

Lemma heuristic_rows_bound (my other : Tile.t) (m : list (list Z)) :
  ∀ (rows : list (list Tile.t)) (s : Z),
    Z.abs (foldl (fun score '(row, score_row) =>
             foldl (fun score '(tile, tile_score) =>
                      if decide (tile = my) then score + tile_score
                      else if decide (tile = other) then score - tile_score
                      else score) score (zip row score_row)) s (zip rows m))
    <= Z.abs s + weight_sum m.
Proof.
  induction m as [|score_row m IH]; intros rows s.
  - destruct rows; cbn [zip zip_with foldl]; change (weight_sum []) with 0; lia.
  - destruct rows as [|row rows]; cbn [zip zip_with foldl].
    + pose proof (weight_sum_nonneg (score_row :: m)). lia.
    + etrans; [apply IH|].
      change (weight_sum (score_row :: m)) with (sum_abs score_row + weight_sum m).
      pose proof (heuristic_row_bound my other score_row row s). lia.
Qed.

Lemma evaluate_bound board color :
  Z.abs (_evaluate matrix board color) <= score_bound matrix.
Proof.
  unfold _evaluate, score_bound. destruct (finished board).
  - destruct (winning_color (score board)); [destruct (decide _)|]; lia.
  - unfold _evaluate_heuristic.
    pose proof (heuristic_rows_bound (Tile.for_color color)
                  (Tile.other (Tile.for_color color)) matrix (_tiles board) 0). lia.
Qed.

Lemma minimax_bound d : ∀ board c, Z.abs (minimax matrix d board c) <= score_bound matrix.
Proof.
  induction d as [|d IH]; intros board c; cbn [minimax]; [apply evaluate_bound|].
  destruct (finished board); [apply evaluate_bound|].
  destruct (maxl _ (valid_moves board) None) as [V|] eqn:E; [|apply evaluate_bound].
  apply maxl_spec in E as [_ (m & _ & <-)].
  specialize (IH (child board m) (Color.other c)). lia.
Qed.

(** Bounds beyond every score, such as -1000 and 1000 with the default
    weights, never change the result. *)
Lemma sentinel_bounds d b alpha beta c :
  wf_matrix matrix → wf_board b →
  alpha < - score_bound matrix → score_bound matrix < beta →
  _negamax matrix d b (Some alpha) (Some beta) (Some c)
  = _negamax matrix d b None None (Some c).
Proof.
  intros Hm Hwf Ha Hb. pose proof (minimax_bound d b c).
  apply negamax_in_window; [done|done| |]; cbn; lia.
Qed.
End Bound.

Lemma default_matrix_wf : wf_matrix default_matrix.
Proof. split; [done|]. repeat constructor. Qed.

Lemma default_score_bound : score_bound default_matrix = 999.
Proof. by vm_compute. Qed.

Lemma corner_board_wf : wf_board corner_board.
Proof. split; [done|]. repeat constructor. Qed.

(** C3 (amended).  At every depth and on every board the search without
    bounds returns the exact negamax value, and a search whose root bounds
    have that value strictly between them returns the same score and the
    same move; bounds beyond every score the evaluation can give (below
    minus, and above, the larger of 999 and the sum of the absolute
    weights) are such bounds on every board. *)
Theorem pruning_preserves_result matrix d b c :
  wf_matrix matrix → wf_board b →
  ∃ mv,
    _negamax matrix d b None None (Some c)
    = Ok (mkResult (Some (minimax matrix d b c)) mv) ∧
    (∀ alpha beta,
       lt_lo alpha (minimax matrix d b c) → lt_hi (minimax matrix d b c) beta →
       _negamax matrix d b alpha beta (Some c)
       = Ok (mkResult (Some (minimax matrix d b c)) mv)) ∧
    (∀ alpha beta,
       alpha < - score_bound matrix → score_bound matrix < beta →
       _negamax matrix d b (Some alpha) (Some beta) (Some c)
       = Ok (mkResult (Some (minimax matrix d b c)) mv)).
Proof.
  intros Hm Hwf. destruct (negamax_exact matrix Hm d b c Hwf) as [mv Hmv].
  exists mv. split; [done|]. split.
  - intros alpha beta Hlo Hhi. rewrite <- Hmv.
    by apply negamax_in_window.
  - intros alpha beta Ha Hb. rewrite <- Hmv. by apply sentinel_bounds.
Qed.

Lemma pruning_preserves_result_witness :
  _negamax default_matrix 1 corner_board (Some (-1000)) (Some 1000) (Some Color.BLACK)
  = _negamax default_matrix 1 corner_board None None (Some Color.BLACK).
Proof.
  destruct (pruning_preserves_result default_matrix 1 corner_board Color.BLACK
              default_matrix_wf corner_board_wf) as (mv & H0 & _ & H).
  rewrite H0. apply H; by vm_compute.
Defined.

(** On [corner_board] at depth 1 the bounds 0 and 10 cut the search after
    the corner move, worth 28, and the edge move, worth 37, is never tried. *)
Lemma bounds_never_matter_fails :
  ¬ bounds_never_matter default_matrix 1 corner_board 0 10 Color.BLACK.
Proof. unfold bounds_never_matter. by vm_compute. Qed.

Lemma next_move_finished_witness :
  ∃ s, next_move (NegaMaxPlayer_init Color.BLACK 3 None)
         (set_next_to_move None opening_board)
       = Ok (None, mkPlayer Color.BLACK 3 default_matrix (Some s)).
Proof.
  destruct (next_move_finished (NegaMaxPlayer_init Color.BLACK 3 None)
              (set_next_to_move None opening_board) eq_refl) as (s & H & _).
  by exists s.
Defined.

(** ** The object store: what [apply] may touch *)

Lemma st_bind_ok {A B} (m : ST A) (k : A → ST B) h a h1 :
  m h = (Ok a, h1) → (m ≫= k) h = k a h1.
Proof. intros Hm. unfold mbind, ST_bind, st_bind. by rewrite Hm. Qed.

Lemma st_bind_raise {A B} (m : ST A) (k : A → ST B) h e h1 :
  m h = (Raise e, h1) → (m ≫= k) h = (Raise e, h1).
Proof. intros Hm. unfold mbind, ST_bind, st_bind. by rewrite Hm. Qed.

Lemma extends_refl h : extends h h.
Proof. by split. Qed.

Lemma extends_trans h0 h1 h2 : extends h0 h1 → extends h1 h2 → extends h0 h2.
Proof. intros [? ?] [? ?]. split; eauto. Qed.

Section Preserves.
Variable I : Store → Prop.

Lemma preserves_bind {A B} (m : ST A) (k : A → ST B) :
  preserves I m → (∀ a, preserves I (k a)) → preserves I (m ≫= k).
Proof.
  intros Hm Hk h Hh. unfold mbind, ST_bind, st_bind.
  specialize (Hm h Hh). destruct (m h) as [[a|e] h1]; [by apply Hk|done].
Qed.

Lemma preserves_ret {A} (a : A) : preserves I (st_ret a).
Proof. by intros h Hh. Qed.

Lemma preserves_raise {A} e : preserves I (@st_raise A e).
Proof. by intros h Hh. Qed.

Lemma preserves_lift {A} (m : Exc A) : preserves I (st_lift m).
Proof. by intros h Hh. Qed.

Lemma preserves_read_row r : preserves I (read_row r).
Proof. intros h Hh. unfold read_row. by destruct (st_rows h !! r). Qed.

Lemma preserves_read_board r : preserves I (read_board r).
Proof. intros h Hh. unfold read_board. by destruct (st_boards h !! r). Qed.

Lemma preserves_for {A} (body : A → ST unit) l :
  (∀ a, preserves I (body a)) → preserves I (st_for body l).
Proof.
  intros Hbody. induction l as [|a l IH]; cbn [st_for]; [apply preserves_ret|].
  apply preserves_bind; [done|]. by intros _.
Qed.

Lemma preserves_map {A B} (f : A → ST B) l :
  (∀ a, preserves I (f a)) → preserves I (st_map f l).
Proof.
  intros Hf. induction l as [|a l IH]; cbn [st_map]; [apply preserves_ret|].
  apply preserves_bind; [done|]. intros b.
  apply preserves_bind; [done|]. intros bs. apply preserves_ret.
Qed.

Lemma preserves_grid self : preserves I (Obj.grid self).
Proof.
  apply preserves_bind; [apply preserves_read_board|]. intros o.
  apply preserves_map, preserves_read_row.
Qed.

Lemma preserves_load self : preserves I (Obj.load self).
Proof.
  apply preserves_bind; [apply preserves_read_board|]. intros o.
  apply preserves_bind; [apply preserves_map, preserves_read_row|]. intros g.
  apply preserves_ret.
Qed.
End Preserves.

Section Owned.
Variables (h0 : Store) (c : ref).

Lemma owned_write_board o :
  preserves (fun h => owned h0 c h ∧ ∃ o', st_boards h !! c = Some o' ∧ o_tiles o' = o_tiles o)
            (write_board c o) .
Proof.
  intros h [([Hr Hb] & Hc & o1 & Ho1 & Hall) (o' & Ho' & Htiles)]. cbn.
  assert (o1 = o') as -> by congruence.
  split.
  - split; [split|split]; cbn; [done| |done|].
    + intros r o2 Hr2. rewrite lookup_insert_ne; [by apply Hb|]. congruence.
    + exists o. rewrite lookup_insert_eq. split; [done|]. by rewrite <- Htiles.
  - exists o. by rewrite lookup_insert_eq.
Qed.

Lemma owned_set_field (f : BoardObj → BoardObj) :
  (∀ o, o_tiles (f o) = o_tiles o) →
  preserves (owned h0 c) (o ← read_board c; write_board c (f o)).
Proof.
  intros Hf h Hh. unfold mbind, ST_bind, st_bind, read_board.
  destruct (st_boards h !! c) as [o|] eqn:Ho; [|done].
  apply (owned_write_board (f o) h). split; [done|]. exists o. by rewrite Hf.
Qed.

Lemma owned_set_next_to_move v : preserves (owned h0 c) (Obj.set_next_to_move c v).
Proof. by apply (owned_set_field (fun o => mkObj (o_tiles o) v (o_score o) (o_empty_count o))). Qed.

Lemma owned_set_score v : preserves (owned h0 c) (Obj.set_score c v).
Proof. by apply (owned_set_field (fun o => mkObj (o_tiles o) (o_next_to_move o) v (o_empty_count o))). Qed.

Lemma owned_set_empty_count v : preserves (owned h0 c) (Obj.set_empty_count c v).
Proof. by apply (owned_set_field (fun o => mkObj (o_tiles o) (o_next_to_move o) (o_score o) v)). Qed.

Lemma getitem_elem_of {A} (l : list A) i a : getitem l i = Ok a → a ∈ l.
Proof.
  unfold getitem. destruct (py_index _ _) as [n|]; [|done].
  destruct (l !! n) eqn:Hn; [|done]. intros [= <-]. apply list_elem_of_lookup. eauto.
Qed.

Lemma owned_set_tile x y tile : preserves (owned h0 c) (Obj.set_tile c x y tile).
Proof.
  intros h Hh. pose proof Hh as ([Hr Hb] & Hc & o & Ho & Hall).
  unfold Obj.set_tile, mbind, ST_bind, st_bind, read_board, st_lift. rewrite Ho.
  destruct (getitem (o_tiles o) x) as [r|] eqn:Hx; [|done].
  unfold read_row. destruct (st_rows h !! r) as [row|] eqn:Hrow; [|done].
  destruct (setitem row y tile) as [row'|]; [|done]. cbn.
  apply getitem_elem_of in Hx.
  pose proof (proj1 (Forall_forall _ _) Hall r Hx) as Hfresh. cbn in Hfresh.
  split; [split|split]; cbn; [|done|done|].
  - intros r' row1 Hr'. rewrite lookup_insert_ne; [by apply Hr|]. congruence.
  - by exists o.
Qed.

Lemma owned_flip_direction tile other mx my nb :
  preserves (owned h0 c) (Obj.flip_direction c tile other mx my nb).
Proof.
  apply preserves_bind; [apply preserves_grid|]. intros g. destruct nb as [ox oy].
  destruct (decide _); [|apply preserves_ret]. cbn zeta.
  destruct (collect_path RAY g other _ _ _ _ _) as [path t].
  destruct (decide _); [|apply preserves_ret].
  apply preserves_for. intros item. apply owned_set_tile.
Qed.

Lemma owned_apply_destructive move :
  preserves (owned h0 c) (Obj._apply_destructive c move).
Proof.
  unfold Obj._apply_destructive. destruct (move_color move); [|apply preserves_raise].
  apply preserves_bind; [apply owned_set_next_to_move|]. intros _.
  destruct (is_skip move); [apply preserves_ret|].
  apply preserves_bind; [apply owned_set_tile|]. intros _.
  apply preserves_bind; [apply preserves_read_board|]. intros o.
  apply preserves_bind; [apply owned_set_empty_count|]. intros _.
  apply preserves_bind; [apply preserves_for; intros nb; apply owned_flip_direction|].
  intros _.
  apply preserves_bind; [apply preserves_load|]. intros b.
  apply preserves_bind; [destruct (valid_moves b);
                         [apply owned_set_next_to_move|apply preserves_ret]|].
  intros _.
  apply preserves_bind; [apply owned_set_score|]. intros _. apply preserves_ret.
Qed.
End Owned.

Lemma fresh_row h : st_rows h !! fresh (dom (st_rows h)) = None.
Proof. apply not_elem_of_dom, is_fresh. Qed.

Lemma fresh_board h : st_boards h !! fresh (dom (st_boards h)) = None.
Proof. apply not_elem_of_dom, is_fresh. Qed.

Lemma extends_fresh_row h0 h r : extends h0 h → st_rows h !! r = None → st_rows h0 !! r = None.
Proof.
  intros [Hr _] Hnone. destruct (st_rows h0 !! r) as [row|] eqn:E; [|done].
  apply Hr in E. congruence.
Qed.

Lemma extends_fresh_board h0 h r :
  extends h0 h → st_boards h !! r = None → st_boards h0 !! r = None.
Proof.
  intros [_ Hb] Hnone. destruct (st_boards h0 !! r) as [o|] eqn:E; [|done].
  apply Hb in E. congruence.
Qed.

Lemma extends_new_row h row :
  extends h (mkStore (<[fresh (dom (st_rows h)):=row]> (st_rows h)) (st_boards h)).
Proof.
  split; cbn; [|done]. intros r row' Hr. rewrite lookup_insert_ne; [done|].
  intros <-. by rewrite fresh_row in Hr.
Qed.

Lemma extends_new_board h o :
  extends h (mkStore (st_rows h) (<[fresh (dom (st_boards h)):=o]> (st_boards h))).
Proof.
  split; cbn; [done|]. intros r o' Hr. rewrite lookup_insert_ne; [done|].
  intros <-. by rewrite fresh_board in Hr.
Qed.

Lemma copy_row_run r h :
  (row ← read_row r; new_row (BoardRow_init row)) h
  = match st_rows h !! r with
    | Some row =>
        (Ok (fresh (dom (st_rows h))),
         mkStore (<[fresh (dom (st_rows h)):=BoardRow_init row]> (st_rows h)) (st_boards h))
    | None => (Raise AttributeError, h)
    end.
Proof.
  unfold mbind, ST_bind, st_bind, read_row. by destruct (st_rows h !! r).
Qed.

Lemma read_board_run self h :
  read_board self h
  = match st_boards h !! self with
    | Some o => (Ok o, h)
    | None => (Raise AttributeError, h)
    end.
Proof. unfold read_board. by destruct (st_boards h !! self). Qed.

Lemma read_row_run r h :
  read_row r h
  = match st_rows h !! r with
    | Some row => (Ok row, h)
    | None => (Raise AttributeError, h)
    end.
Proof. unfold read_row. by destruct (st_rows h !! r). Qed.

(** Copying the rows: new objects only. *)
Lemma copy_rows_fresh h0 refs :
  ∀ h, extends h0 h →
    extends h0 (st_map (fun r => row ← read_row r; new_row (BoardRow_init row)) refs h).2 ∧
    ∀ tiles, (st_map (fun r => row ← read_row r; new_row (BoardRow_init row)) refs h).1
             = Ok tiles →
             Forall (fun r => st_rows h0 !! r = None) tiles.
Proof.
  induction refs as [|r refs IH]; intros h Hext; cbn [st_map].
  - split; [done|]. by intros tiles [= <-].
  - pose proof (copy_row_run r h) as Hrow.
    destruct (st_rows h !! r) as [row|].
    2:{ rewrite (st_bind_raise _ _ _ _ _ Hrow). by split. }
    rewrite (st_bind_ok _ _ _ _ _ Hrow).
    set (h1 := mkStore _ _) in *.
    assert (extends h0 h1) as Hext1.
    { eapply extends_trans; [done|]. apply extends_new_row. }
    destruct (IH h1 Hext1) as [Hext2 Hfresh].
    destruct (st_map _ refs h1) as [[tiles|e] h2] eqn:Hm; cbn in Hext2, Hfresh.
    + rewrite (st_bind_ok _ _ _ _ _ Hm). cbn. split; [done|].
      intros tiles' [= <-]. apply Forall_cons. split; [|by apply Hfresh].
      eapply extends_fresh_row; [exact Hext|]. apply fresh_row.
    + rewrite (st_bind_raise _ _ _ _ _ Hm). by split.
Qed.

Lemma clone_owned h self :
  extends h (Obj._clone self h).2 ∧
  ∀ c, (Obj._clone self h).1 = Ok c → owned h c (Obj._clone self h).2.
Proof.
  unfold Obj._clone. pose proof (read_board_run self h) as Hread.
  destruct (st_boards h !! self) as [o|].
  2:{ rewrite (st_bind_raise _ _ _ _ _ Hread). split; [apply extends_refl|done]. }
  rewrite (st_bind_ok _ _ _ _ _ Hread).
  destruct (copy_rows_fresh h (o_tiles o) h (extends_refl h)) as [Hext Hfresh].
  destruct (st_map _ (o_tiles o) h) as [[tiles|e] h1] eqn:Hm; cbn in Hext, Hfresh.
  2:{ rewrite (st_bind_raise _ _ _ _ _ Hm). by split. }
  rewrite (st_bind_ok _ _ _ _ _ Hm). cbn [new_board fst snd].
  specialize (Hfresh tiles eq_refl).
  assert (extends h (mkStore (st_rows h1)
            (<[fresh (dom (st_boards h1)):=mkObj tiles (o_next_to_move o) None (o_empty_count o)]>
               (st_boards h1)))) as Hext'.
  { eapply extends_trans; [done|]. apply extends_new_board. }
  split; [done|]. intros c [= <-]. split; [done|]. split.
  - eapply extends_fresh_board; [exact Hext|]. apply fresh_board.
  - eexists. cbn. rewrite lookup_insert_eq. by split.
Qed.

Lemma apply_destructive_returns_self c move h r :
  (Obj._apply_destructive c move h).1 = Ok r → r = c.
Proof.
  unfold Obj._apply_destructive. destruct (move_color move); [|done].
  unfold mbind, ST_bind, st_bind.
  repeat (match goal with
          | |- context [match ?m ?h with _ => _ end] =>
              destruct (m h) as [[?|?] ?]; try done
          | |- context [if ?b then _ else _] => destruct b; try done
          end); cbn; congruence.
Qed.

(** Whatever the move and whether or not it raises, [apply] leaves every
    object of the store as it was; what it returns is a new object. *)
Lemma apply_frame h self move :
  extends h (Obj.apply self move h).2 ∧
  ∀ c, (Obj.apply self move h).1 = Ok c →
       st_boards h !! c = None ∧ is_Some (st_boards (Obj.apply self move h).2 !! c).
Proof.
  destruct (clone_owned h self) as [Hext Hown].
  unfold Obj.apply, mbind, ST_bind, st_bind.
  destruct (Obj._clone self h) as [[c|e] h1]; cbn in *; [|by split].
  specialize (Hown c eq_refl).
  pose proof (owned_apply_destructive h c move h1 Hown) as (Hext' & Hc & o & Ho & _).
  split; [done|]. intros c' Hc'.
  apply apply_destructive_returns_self in Hc' as ->. by split.
Qed.

(** ** The object store: [apply] computes what the board value computes *)

Lemma rep_holds h c b : rep h c b → holds h c b.
Proof. intros (o & Ho & _ & H). by exists o. Qed.

Lemma holds_extends h h' self b : holds h self b → extends h h' → holds h' self b.
Proof.
  intros (o & Ho & Hrows & Hf) [Hr Hb]. exists o. split; [by apply Hb|]. split; [|done].
  eapply Forall2_impl; [exact Hrows|]. intros r row. apply Hr.
Qed.

Lemma read_rows_run h refs g :
  Forall2 (fun r row => st_rows h !! r = Some row) refs g →
  st_map read_row refs h = (Ok g, h).
Proof.
  induction 1 as [|r row refs g Hr _ IH]; cbn [st_map]; [done|].
  rewrite (st_bind_ok _ _ h row h) by (by rewrite read_row_run, Hr).
  by rewrite (st_bind_ok _ _ h g h).
Qed.

Lemma holds_grid h self b : holds h self b → Obj.grid self h = (Ok (_tiles b), h).
Proof.
  intros (o & Ho & Hrows & _). unfold Obj.grid.
  rewrite (st_bind_ok _ _ h o h) by (by rewrite read_board_run, Ho).
  by apply read_rows_run.
Qed.

Lemma holds_load h self b : holds h self b → Obj.load self h = (Ok b, h).
Proof.
  intros (o & Ho & Hrows & Hn & Hs & He). unfold Obj.load.
  rewrite (st_bind_ok _ _ h o h) by (by rewrite read_board_run, Ho).
  rewrite (st_bind_ok _ _ h (_tiles b) h) by (by apply read_rows_run).
  rewrite Hn, Hs, He. by destruct b.
Qed.

Lemma getitem_Forall2 {A B} (P : A → B → Prop) l k i :
  Forall2 P l k →
  (getitem l i = Raise IndexError ∧ getitem k i = Raise IndexError) ∨
  ∃ n a b, py_index (length l) i = Some n ∧ l !! n = Some a ∧ k !! n = Some b ∧
           getitem l i = Ok a ∧ getitem k i = Ok b ∧ P a b.
Proof.
  intros HF. pose proof (Forall2_length _ _ _ HF) as Hlen. unfold getitem.
  rewrite <- Hlen. destruct (py_index (length l) i) as [n|] eqn:Hn; [|by left].
  right. destruct (lookup_lt_is_Some_2 l n) as [a Ha]; [by eapply py_index_lt|].
  destruct (Forall2_lookup_l _ _ _ _ _ HF Ha) as (b & Hb & HP).
  exists n, a, b. by rewrite Ha, Hb.
Qed.

Lemma rep_set_tile h c b x y tile :
  rep h c b →
  match set_tile (_tiles b) x y tile with
  | Ok g' => ∃ h', Obj.set_tile c x y tile h = (Ok tt, h') ∧ rep h' c (set_tiles g' b)
  | Raise e => Obj.set_tile c x y tile h = (Raise e, h)
  end.
Proof.
  intros (o & Ho & Hnd & Hrows & Hf). unfold Obj.set_tile, set_tile.
  rewrite (st_bind_ok _ _ h o h) by (by rewrite read_board_run, Ho).
  destruct (getitem_Forall2 _ _ _ x Hrows)
    as [[Hl Hk]|(n & r & row & Hn & Hl & Hk & Hgl & Hgk & Hr)].
  { rewrite Hk. cbn [mbind Exc_bind ebind]. apply st_bind_raise.
    unfold st_lift. by rewrite Hl. }
  rewrite Hgk. cbn [mbind Exc_bind ebind].
  rewrite (st_bind_ok _ _ h r h) by (unfold st_lift; by rewrite Hgl).
  rewrite (st_bind_ok _ _ h row h) by (by rewrite read_row_run, Hr).
  destruct (setitem row y tile) as [row'|e] eqn:Hset; cbn [ebind].
  2:{ by apply st_bind_raise. }
  rewrite (st_bind_ok _ _ h row' h) by done.
  unfold setitem. rewrite <- (Forall2_length _ _ _ Hrows), Hn.
  eexists. split; [done|]. exists o. cbn. split; [done|]. split; [done|]. split; [|done].
  apply Forall2_same_length_lookup. split.
  { rewrite length_insert. by eapply Forall2_length. }
  intros i r0 row0 Hr0 Hrow0. destruct (decide (i = n)) as [->|Hne].
  - rewrite list_lookup_insert_eq in Hrow0 by (by eapply lookup_lt_Some).
    injection Hrow0 as <-. assert (r0 = r) as -> by congruence.
    by rewrite lookup_insert_eq.
  - rewrite list_lookup_insert_ne in Hrow0 by done.
    rewrite lookup_insert_ne.
    + exact (Forall2_lookup_lr _ _ _ _ _ _ Hrows Hr0 Hrow0).
    + intros <-. apply Hne. symmetry. by eapply NoDup_lookup.
Qed.

Lemma foldl_raise {A B} (f : Exc A → B → Exc A) l e :
  (∀ b, f (Raise e) b = Raise e) → foldl f (Raise e) l = Raise e.
Proof. intros Hf. induction l as [|b l IH]; cbn [foldl]; [done|]. by rewrite Hf. Qed.

Lemma paint_cons tile p path g :
  paint tile (p :: path) g
  = match set_tile g p.1 p.2 tile with
    | Ok g1 => paint tile path g1
    | Raise e => Raise e
    end.
Proof.
  unfold paint. cbn [foldl mbind Exc_bind ebind].
  destruct (set_tile g p.1 p.2 tile); [done|]. by apply foldl_raise.
Qed.

Lemma set_tiles_id b : set_tiles (_tiles b) b = b.
Proof. by destruct b. Qed.

Lemma rep_paint c tile path :
  ∀ h b, rep h c b →
  match paint tile path (_tiles b) with
  | Ok g' => ∃ h', st_for (fun item => Obj.set_tile c item.1 item.2 tile) path h
                   = (Ok tt, h') ∧ rep h' c (set_tiles g' b)
  | Raise e => ∃ h', st_for (fun item => Obj.set_tile c item.1 item.2 tile) path h
                     = (Raise e, h')
  end.
Proof.
  induction path as [|p path IH]; intros h b Hrep.
  - exists h. by rewrite set_tiles_id.
  - rewrite paint_cons. cbn [st_for].
    pose proof (rep_set_tile h c b p.1 p.2 tile Hrep) as Hstep.
    destruct (set_tile (_tiles b) p.1 p.2 tile) as [g1|e].
    + destruct Hstep as (h1 & Hrun & Hrep1).
      rewrite (st_bind_ok _ _ _ _ _ Hrun). apply (IH h1 (set_tiles g1 b) Hrep1).
    + exists h. by apply st_bind_raise.
Qed.

Lemma rep_flip_direction h c b tile other mx my nb :
  rep h c b →
  match flip_direction tile other mx my (Ok (_tiles b)) nb with
  | Ok g' => ∃ h', Obj.flip_direction c tile other mx my nb h = (Ok tt, h') ∧
                   rep h' c (set_tiles g' b)
  | Raise e => ∃ h', Obj.flip_direction c tile other mx my nb h = (Raise e, h')
  end.
Proof.
  intros Hrep. unfold flip_direction, Obj.flip_direction.
  rewrite (st_bind_ok _ _ _ _ _ (holds_grid h c b (rep_holds _ _ _ Hrep))).
  cbn [mbind Exc_bind ebind]. destruct nb as [ox oy].
  destruct (decide _); [|exists h; by rewrite set_tiles_id]. cbn zeta.
  destruct (collect_path RAY (_tiles b) other _ _ _ _ _) as [path t].
  destruct (decide _); [|exists h; by rewrite set_tiles_id].
  by apply rep_paint.
Qed.

Lemma rep_flips c tile other mx my nbs :
  ∀ h b, rep h c b →
  match foldl (flip_direction tile other mx my) (Ok (_tiles b)) nbs with
  | Ok g' => ∃ h', st_for (Obj.flip_direction c tile other mx my) nbs h = (Ok tt, h') ∧
                   rep h' c (set_tiles g' b)
  | Raise e => ∃ h', st_for (Obj.flip_direction c tile other mx my) nbs h = (Raise e, h')
  end.
Proof.
  induction nbs as [|nb nbs IH]; intros h b Hrep; cbn [foldl st_for].
  - exists h. by rewrite set_tiles_id.
  - pose proof (rep_flip_direction h c b tile other mx my nb Hrep) as Hstep.
    destruct (flip_direction tile other mx my (Ok (_tiles b)) nb) as [g1|e].
    + destruct Hstep as (h1 & Hrun & Hrep1).
      rewrite (st_bind_ok _ _ _ _ _ Hrun). apply (IH h1 (set_tiles g1 b) Hrep1).
    + destruct Hstep as (h1 & Hrun). rewrite foldl_raise by done.
      exists h1. by apply st_bind_raise.
Qed.

Lemma rep_set_field h c b (f : BoardObj → BoardObj) (f' : Board → Board) :
  (∀ o, o_tiles (f o) = o_tiles o) →
  (∀ o b, o_next_to_move o = _next_to_move b → o_score o = _score b →
          o_empty_count o = _empty_count b →
          _tiles (f' b) = _tiles b ∧
          o_next_to_move (f o) = _next_to_move (f' b) ∧ o_score (f o) = _score (f' b) ∧
          o_empty_count (f o) = _empty_count (f' b)) →
  rep h c b →
  ∃ h', (o ← read_board c; write_board c (f o)) h = (Ok tt, h') ∧ rep h' c (f' b).
Proof.
  intros Hft Hff (o & Ho & Hnd & Hrows & Hn & Hs & He).
  rewrite (st_bind_ok _ _ h o h) by (by rewrite read_board_run, Ho).
  eexists. split; [done|]. exists (f o). cbn. rewrite lookup_insert_eq.
  destruct (Hff o b Hn Hs He) as (Ht & Hn' & Hs' & He').
  rewrite Hft, Ht. done.
Qed.

Lemma rep_set_next_to_move h c b v :
  rep h c b →
  ∃ h', Obj.set_next_to_move c v h = (Ok tt, h') ∧ rep h' c (set_next_to_move v b).
Proof.
  apply (rep_set_field h c b
           (fun o => mkObj (o_tiles o) v (o_score o) (o_empty_count o))
           (set_next_to_move v)); [done|]. by intros o b' ? ? ?.
Qed.

Lemma rep_set_score h c b v :
  rep h c b → ∃ h', Obj.set_score c v h = (Ok tt, h') ∧ rep h' c (set_score v b).
Proof.
  apply (rep_set_field h c b
           (fun o => mkObj (o_tiles o) (o_next_to_move o) v (o_empty_count o))
           (set_score v)); [done|]. by intros o b' ? ? ?.
Qed.

Lemma rep_set_empty_count h c b v :
  rep h c b →
  ∃ h', Obj.set_empty_count c v h = (Ok tt, h') ∧ rep h' c (set_empty_count v b).
Proof.
  apply (rep_set_field h c b
           (fun o => mkObj (o_tiles o) (o_next_to_move o) (o_score o) v)
           (set_empty_count v)); [done|]. by intros o b' ? ? ?.
Qed.

Lemma rep_apply_destructive h c b m :
  rep h c b →
  match _apply_destructive b m with
  | Ok b' => ∃ h', Obj._apply_destructive c m h = (Ok c, h') ∧ rep h' c b'
  | Raise e => ∃ h', Obj._apply_destructive c m h = (Raise e, h')
  end.
Proof.
  intros Hrep. unfold _apply_destructive, Obj._apply_destructive.
  destruct (move_color m) as [color|]; [|by exists h].
  destruct (rep_set_next_to_move h c b (Some (Color.other color)) Hrep)
    as (h1 & Hrun1 & Hrep1).
  rewrite (st_bind_ok _ _ _ _ _ Hrun1). cbn zeta.
  set (b1 := set_next_to_move (Some (Color.other color)) b) in *.
  destruct (is_skip m); [by exists h1|].
  set (tile := Tile.for_color (Some color)).
  pose proof (rep_set_tile h1 c b1 (move_x m) (move_y m) tile Hrep1) as Hstep.
  destruct (set_tile (_tiles b1) (move_x m) (move_y m) tile) as [g0|e];
    cbn [mbind Exc_bind ebind].
  2:{ exists h1. by apply st_bind_raise. }
  destruct Hstep as (h2 & Hrun2 & Hrep2). rewrite (st_bind_ok _ _ _ _ _ Hrun2).
  pose proof Hrep2 as (o2 & Ho2 & _ & _ & _ & _ & He2). cbn in He2.
  rewrite (st_bind_ok _ _ h2 o2 h2) by (by rewrite read_board_run, Ho2).
  rewrite He2.
  destruct (rep_set_empty_count h2 c (set_tiles g0 b1) (_empty_count b - 1) Hrep2)
    as (h3 & Hrun3 & Hrep3).
  rewrite (st_bind_ok _ _ _ _ _ Hrun3).
  set (b3 := set_empty_count (_empty_count b - 1) (set_tiles g0 b1)) in *.
  pose proof (rep_flips c tile (Tile.other tile) (move_x m) (move_y m)
                (neighbour_cells (move_x m) (move_y m)) h3 b3 Hrep3) as Hflips.
  change (_tiles b3) with g0 in Hflips.
  destruct (foldl _ (Ok g0) _) as [g'|e]; cbn [mbind Exc_bind ebind]; cbn zeta.
  2:{ destruct Hflips as (h4 & Hrun4). exists h4. by apply st_bind_raise. }
  destruct Hflips as (h4 & Hrun4 & Hrep4). rewrite (st_bind_ok _ _ _ _ _ Hrun4).
  rewrite (st_bind_ok _ _ _ _ _ (holds_load h4 c _ (rep_holds _ _ _ Hrep4))).
  change (set_tiles g' (set_empty_count (_empty_count b1 - 1) (set_tiles g0 b1)))
    with (set_tiles g' b3).
  destruct (valid_moves (set_tiles g' b3)).
  - destruct (rep_set_next_to_move h4 c _ None Hrep4) as (h5 & Hrun5 & Hrep5).
    rewrite (st_bind_ok _ _ _ _ _ Hrun5).
    destruct (rep_set_score h5 c _ None Hrep5) as (h6 & Hrun6 & Hrep6).
    rewrite (st_bind_ok _ _ _ _ _ Hrun6). by exists h6.
  - rewrite (st_bind_ok _ _ h4 tt h4) by done.
    destruct (rep_set_score h4 c _ None Hrep4) as (h6 & Hrun6 & Hrep6).
    rewrite (st_bind_ok _ _ _ _ _ Hrun6). by exists h6.
Qed.

(** [_clone] copies every row into a new object. *)
Lemma copy_rows_rep h0 refs g :
  Forall2 (fun r row => st_rows h0 !! r = Some row) refs g →
  ∀ h, extends h0 h →
    ∃ tiles h',
      st_map (fun r => row ← read_row r; new_row (BoardRow_init row)) refs h = (Ok tiles, h') ∧
      extends h h' ∧ st_boards h' = st_boards h ∧
      Forall2 (fun r row => st_rows h' !! r = Some row) tiles (map BoardRow_init g) ∧
      NoDup tiles ∧ Forall (fun r => st_rows h !! r = None) tiles.
Proof.
  induction 1 as [|r row refs g Hr _ IH]; intros h Hext; cbn [st_map map].
  - exists [], h. split; [done|]. split; [apply extends_refl|]. split; [done|].
    split; [constructor|]. split; constructor.
  - pose proof (copy_row_run r h) as Hrow.
    rewrite (proj1 Hext r row Hr) in Hrow. rewrite (st_bind_ok _ _ _ _ _ Hrow).
    set (r' := fresh (dom (st_rows h))) in *. set (h1 := mkStore _ _) in *.
    assert (extends h h1) as Hext1 by apply extends_new_row.
    destruct (IH h1 (extends_trans _ _ _ Hext Hext1))
      as (tiles & h' & Hrun & Hext' & Hb & Hrows & Hnd & Hfresh).
    rewrite (st_bind_ok _ _ _ _ _ Hrun). exists (r' :: tiles), h'.
    split; [done|]. split; [by eapply extends_trans|]. split; [done|].
    assert (st_rows h1 !! r' = Some (BoardRow_init row)) as Hr'.
    { cbn. apply lookup_insert_eq. }
    split; [|split].
    + constructor; [by apply (proj1 Hext')|done].
    + constructor; [|done]. intros Hin.
      rewrite Forall_forall in Hfresh. specialize (Hfresh r' Hin).
      change (st_rows h1 !! r' = None) in Hfresh. by rewrite Hr' in Hfresh.
    + constructor; [apply fresh_row|].
      eapply Forall_impl; [exact Hfresh|]. intros r0 Hr0. by eapply extends_fresh_row.
Qed.

Lemma clone_rep h self b :
  holds h self b →
  ∃ c h1, Obj._clone self h = (Ok c, h1) ∧ rep h1 c (_clone b) ∧ c ≠ self.
Proof.
  intros (o & Ho & Hrows & Hn & Hs & He). unfold Obj._clone.
  rewrite (st_bind_ok _ _ h o h) by (by rewrite read_board_run, Ho).
  destruct (copy_rows_rep h (o_tiles o) (_tiles b) Hrows h (extends_refl h))
    as (tiles & h1 & Hrun & Hext & Hb & Hrows1 & Hnd & _).
  rewrite (st_bind_ok _ _ _ _ _ Hrun). eexists _, _. split; [done|]. split.
  - eexists. cbn. rewrite lookup_insert_eq. split; [done|]. by rewrite Hn, He.
  - intros Heq. pose proof (fresh_board h1) as Hf. rewrite Heq, Hb, Ho in Hf. done.
Qed.

(** C7. [apply] is pure for its caller.  On a store where the object
    [self] reads as the board [b], and for every move: every object of the
    store, [self] and its rows among them, is afterwards as it was, so
    [self] still reads [b], cell by cell, with its turn and its score;
    [apply] raises exactly when it raises on the board value, and
    otherwise returns an object that was not in the store before and that
    reads as the board [apply b move].  On a board of eight rows of eight
    and a move of the data model it does not raise. *)
Theorem apply_leaves_receiver_unchanged h self b move :
  holds h self b →
  extends h (Obj.apply self move h).2 ∧
  holds (Obj.apply self move h).2 self b ∧
  Obj.load self (Obj.apply self move h).2 = (Ok b, (Obj.apply self move h).2) ∧
  match apply b move with
  | Ok b' =>
      ∃ c, (Obj.apply self move h).1 = Ok c ∧ c ≠ self ∧ st_boards h !! c = None ∧
           rep (Obj.apply self move h).2 c b'
  | Raise e => (Obj.apply self move h).1 = Raise e
  end ∧
  (wf_board b → wf_move move → ∃ c, (Obj.apply self move h).1 = Ok c).
Proof.
  intros Hholds. destruct (apply_frame h self move) as [Hext Hnew].
  assert (holds (Obj.apply self move h).2 self b) as Hholds'
    by (by eapply holds_extends).
  split; [done|]. split; [done|]. split; [by apply holds_load|].
  assert (match apply b move with
          | Ok b' =>
              ∃ c, (Obj.apply self move h).1 = Ok c ∧ c ≠ self ∧ st_boards h !! c = None ∧
                   rep (Obj.apply self move h).2 c b'
          | Raise e => (Obj.apply self move h).1 = Raise e
          end) as Hsim.
  { destruct (clone_rep h self b Hholds) as (c & h1 & Hclone & Hrep & Hne).
    pose proof (rep_apply_destructive h1 c (_clone b) move Hrep) as Hstep.
    unfold apply. unfold Obj.apply in *. rewrite (st_bind_ok _ _ _ _ _ Hclone) in *.
    destruct (_apply_destructive (_clone b) move) as [b'|e].
    - destruct Hstep as (h' & Hrun & Hrep'). rewrite Hrun in *. cbn in *.
      exists c. split; [done|]. split; [done|]. split; [|done].
      by destruct (Hnew c eq_refl).
    - destruct Hstep as (h' & Hrun). by rewrite Hrun. }
  split; [done|]. intros Hwf Hm.
  destruct (apply_ok b move Hwf Hm) as (b' & Hb' & _). rewrite Hb' in Hsim.
  destruct Hsim as (c & Hc & _). by exists c.
Qed.

Lemma opening_store_holds : holds opening_store 0%nat opening_board.
Proof.
  exists (mkObj [0; 1; 2; 3; 4; 5; 6; 7]%nat (Some Color.BLACK) None 60).
  split; [by vm_compute|]. split; [|done].
  repeat (constructor; [by vm_compute|]). constructor.
Qed.

Lemma apply_leaves_receiver_unchanged_witness :
  holds (Obj.apply 0%nat (mkMove (Some Color.BLACK) 2 3) opening_store).2 0%nat opening_board ∧
  ∃ c, (Obj.apply 0%nat (mkMove (Some Color.BLACK) 2 3) opening_store).1 = Ok c.
Proof.
  destruct (apply_leaves_receiver_unchanged opening_store 0%nat opening_board
              (mkMove (Some Color.BLACK) 2 3) opening_store_holds)
    as (_ & Hholds & _ & _ & Hok).
  split; [done|]. apply Hok; [apply opening_wf|].
  split; [by eexists|]. right. split; cbn; lia.
Defined.

(** ** The counter of empty cells and the search *)

Lemma same_position_wf b1 b2 : same_position b1 b2 → wf_board b1 → wf_board b2.
Proof. intros (Ht & _) Hwf. unfold wf_board. by rewrite <- Ht. Qed.

Lemma same_valid_moves b1 b2 m :
  wf_board b1 → same_position b1 b2 → m ∈ valid_moves b1 ↔ m ∈ valid_moves b2.
Proof.
  intros Hwf Hsame. pose proof (same_position_wf _ _ Hsame Hwf) as Hwf2.
  destruct Hsame as (Ht & Hn & _).
  rewrite !valid_moves_iff by done. cbn zeta. by rewrite Ht, Hn.
Qed.

Lemma same_valid_moves_nil b1 b2 :
  wf_board b1 → _tiles b1 = _tiles b2 → valid_moves b1 = [] ↔ valid_moves b2 = [].
Proof.
  intros Hwf Ht. rewrite !valid_moves_nil_iff; [by rewrite Ht|by unfold wf_board; rewrite <- Ht|done].
Qed.

Lemma same_evaluate matrix b1 b2 color :
  same_position b1 b2 → _evaluate matrix b1 color = _evaluate matrix b2 color.
Proof.
  intros (Ht & Hn & Hs). unfold _evaluate, _evaluate_heuristic, finished, score.
  by rewrite Ht, Hn, Hs.
Qed.

Lemma same_child b1 b2 m :
  wf_board b1 → same_position b1 b2 → wf_move m →
  wf_board (child b1 m) ∧ same_position (child b1 m) (child b2 m).
Proof.
  intros Hwf Hsame Hm. pose proof (same_position_wf _ _ Hsame Hwf) as Hwf2.
  destruct Hsame as (Ht & Hn & Hs). destruct Hm as [[c Hc] Hm]. unfold child.
  destruct (is_skip m) eqn:Hskip.
  - rewrite !(apply_skip _ m c) by done. split; [done|]. by split.
  - destruct Hm as [|Hxy]; [done|].
    destruct (apply_place b1 m c Hwf Hc Hskip Hxy) as (g' & Hwf' & Hp & Ha).
    rewrite Ha. rewrite (apply_place_eq b2 m c) by done. rewrite <- Ht, Hp.
    cbn [mbind Exc_bind ebind]. cbn zeta.
    pose proof (same_valid_moves_nil
                  (mkBoard g' (Some (Color.other c)) None (_empty_count b1 - 1))
                  (mkBoard g' (Some (Color.other c)) None (_empty_count b2 - 1))
                  Hwf' eq_refl) as Hnil.
    destruct (valid_moves (mkBoard g' _ None (_empty_count b1 - 1))),
             (valid_moves (mkBoard g' _ None (_empty_count b2 - 1)));
      try (by split); exfalso; destruct Hnil as [H1 H2];
      [by specialize (H1 eq_refl)|by specialize (H2 eq_refl)].
Qed.

Lemma maxl_same_on {A} (f1 f2 : A → Z) l1 l2 :
  (∀ a, a ∈ l1 ↔ a ∈ l2) → (∀ a, a ∈ l1 → f1 a = f2 a) →
  maxl f1 l1 None = maxl f2 l2 None.
Proof.
  intros Hsame Hf. destruct (maxl f2 l2 None) as [V|] eqn:E.
  - apply maxl_spec. apply maxl_spec in E as [Hall (a & Hin & Ha)]. split.
    + intros a' Ha'. rewrite Hf by done. by apply Hall, Hsame.
    + exists a. split; [by apply Hsame|]. rewrite Hf; [done|by apply Hsame].
  - apply maxl_nil in E as ->. apply maxl_nil.
    destruct l1 as [|a l1]; [done|]. exfalso. apply (elem_of_nil a), Hsame. left.
Qed.

Lemma same_minimax matrix d :
  ∀ b1 b2 c, wf_board b1 → same_position b1 b2 →
    minimax matrix d b1 c = minimax matrix d b2 c.
Proof.
  induction d as [|d IH]; intros b1 b2 c Hwf Hsame; cbn [minimax];
    [by apply same_evaluate|].
  assert (finished b1 = finished b2) as <-.
  { unfold finished. by destruct Hsame as (_ & -> & _). }
  rewrite (same_evaluate matrix b1 b2) by done.
  destruct (finished b1); [done|].
  rewrite (maxl_same_on
             (fun move => - minimax matrix d (child b1 move) (Color.other c))
             (fun move => - minimax matrix d (child b2 move) (Color.other c))
             (valid_moves b1) (valid_moves b2)); [done| |].
  - intros m. by apply same_valid_moves.
  - intros m Hm. f_equal.
    destruct (same_child b1 b2 m Hwf Hsame) as [Hwfc Hsamec]; [by eapply valid_moves_wf|].
    by apply IH.
Qed.

Lemma same_chosen_score self b1 b2 :
  wf_matrix (_matrix self) → wf_board b1 → same_position b1 b2 →
  chosen_score self b1 = chosen_score self b2.
Proof.
  intros Hm Hwf Hsame. pose proof (same_position_wf _ _ Hsame Hwf) as Hwf2.
  unfold chosen_score, next_move. pose proof Hsame as (_ & Hn & _). rewrite <- Hn.
  destruct (_next_to_move b1) as [c|] eqn:Hntm.
  - destruct (negamax_exact (_matrix self) Hm (depth self) b1 c Hwf) as [mv1 ->].
    destruct (negamax_exact (_matrix self) Hm (depth self) b2 c Hwf2) as [mv2 ->].
    cbn. by rewrite (same_minimax _ _ b1 b2).
  - assert (∀ b, _next_to_move b = None →
              _negamax (_matrix self) (depth self) b None None None
              = Ok (mkResult (Some (_evaluate (_matrix self) b None)) None)) as Hfin.
    { intros b Hb. destruct (depth self); cbn [_negamax]; [done|].
      unfold finished. by rewrite Hb. }
    rewrite !Hfin by congruence. cbn. by rewrite (same_evaluate _ b1 b2).
Qed.

(** C2 (amended). For every grid and mover the two scans find the same
    destination cells, so the counter that selects the scan changes
    neither the moves offered, nor whether the mover must pass, nor
    whether any move is left, nor the score that [next_move] records. *)
Theorem seeding_strategies_agree b c :
  wf_board b →
  (∀ m, m ∈ ray_scan (_tiles b) (Tile.for_color (Some c)) Tile.EMPTY (Tile.for_color (Some c)) true
      ↔ m ∈ ray_scan (_tiles b) (Tile.for_color (Some c)) (Tile.for_color (Some c)) Tile.EMPTY false) ∧
  (∀ x y, seeded_at_empty (_tiles b) (Tile.for_color (Some c)) x y
        ↔ seeded_at_stone (_tiles b) (Tile.for_color (Some c)) x y) ∧
  (∀ n m, m ∈ _valid_moves_for (set_empty_count n b) (Tile.for_color (Some c))
        ↔ m ∈ _valid_moves_for b (Tile.for_color (Some c))) ∧
  (∀ n m, m ∈ valid_moves (set_empty_count n b) ↔ m ∈ valid_moves b) ∧
  (∀ n, valid_moves (set_empty_count n b) = [] ↔ valid_moves b = []) ∧
  (∀ self n, wf_matrix (_matrix self) →
     chosen_score self (set_empty_count n b) = chosen_score self b).
Proof.
  intros Hwf.
  destruct (strategies_same_moves b c Hwf) as (H1 & H2 & H3 & H4 & H5).
  repeat (split; [done|]). intros self n Hm.
  by apply same_chosen_score.
Qed.

Lemma seeding_strategies_agree_witness :
  wf_board opening_board ∧
  chosen_score (NegaMaxPlayer_init Color.BLACK 1 None) (set_empty_count 49 opening_board)
  = chosen_score (NegaMaxPlayer_init Color.BLACK 1 None) opening_board.
Proof.
  split; [apply opening_wf|].
  apply (seeding_strategies_agree opening_board Color.BLACK opening_wf).
  split; [done|repeat constructor].
Defined.

(** With the opening grid, a counter below 50 makes the search at depth 1
    return (2, 3) where it returns (3, 2) with the counter at 60: the four
    moves have the same value and the first one listed wins. *)
Lemma counter_never_matters_fails :
  ¬ counter_never_matters (NegaMaxPlayer_init Color.BLACK 1 None) opening_board 49.
Proof. intros [H _]. by vm_compute in H. Qed.

Lemma replay_reachable moves : ∀ b b', reachable b → replay b moves = Some b' → reachable b'.
Proof.
  induction moves as [|m moves IH]; intros b b' Hr; cbn [replay]; [by intros [= <-]|].
  destruct (bool_decide (m ∈ valid_moves b)) eqn:Hm; [|done].
  apply bool_decide_eq_true in Hm.
  destruct (apply b m) as [b1|] eqn:Ha; [|done].
  apply IH. by eapply reach_apply.
Qed.

Lemma midgame_reachable : reachable midgame_board.
Proof. apply (replay_reachable midgame_moves opening_board); [constructor|by vm_compute]. Qed.

(** The same in a game: after twelve moves 48 cells are empty and the board
    is scanned from the empty cells; the board that
    [ListImplementedBoard(tiles)] builds on the same grid, counter at 64,
    is scanned from the stones, and the search returns another move. *)
Lemma counter_changes_move_in_game :
  reachable midgame_board ∧
  chosen_move (NegaMaxPlayer_init Color.BLACK 1 None) midgame_board
  = Ok (Some (mkMove (Some Color.BLACK) 5 7)) ∧
  chosen_move (NegaMaxPlayer_init Color.BLACK 1 None)
    (mkBoard (_tiles midgame_board) (Some Color.BLACK) None 64)
  = Ok (Some (mkMove (Some Color.BLACK) 6 7)).
Proof. split; [apply midgame_reachable|]. split; by vm_compute. Qed.

(** * Further properties *)

(** ** What [valid_moves] offers *)

(** X1. On an 8 x 8 board with a color to move, [valid_moves] offers a
    cell exactly when the Othello rule allows the mover on it: the cell is
    empty and, in one of the eight directions, a run of one or more stones
    of the opponent leads from it to a stone of the mover.  The skip is
    offered exactly when the mover has no such cell and the opponent has
    one.  Nothing else is offered: every move has the mover's color and is
    the skip or an empty cell of the board. *)
Theorem valid_moves_are_the_legal_moves b c :
  wf_board b → _next_to_move b = Some c →
  (∀ x y, 0 <= x →
     mkMove (Some c) x y ∈ valid_moves b ↔ seeded_at_empty (_tiles b) (Tile.for_color (Some c)) x y) ∧
  (create_skip (Some c) ∈ valid_moves b ↔
     ¬ can_capture (_tiles b) c ∧ can_capture (_tiles b) (Color.other c)) ∧
  (∀ m, m ∈ valid_moves b →
     move_color m = Some c ∧
     (m = create_skip (Some c) ∨
      (is_skip m = false ∧ get_tile (_tiles b) (move_x m) (move_y m) = Some Tile.EMPTY))).
Proof.
  intros Hwf Hntm.
  assert (Tile.color (Tile.for_color (Some c)) = Some c) as Hcol by (by destruct c).
  assert (Tile.other (Tile.for_color (Some c)) = Tile.for_color (Some (Color.other c)))
    as Hother by (by destruct c).
  pose proof (valid_moves_iff b) as Hiff. cbn zeta in Hiff.
  rewrite Hntm, Hcol, Hother in Hiff. unfold legal_cell in Hiff.
  split; [|split].
  - intros x y Hx. rewrite (Hiff _ Hwf). split.
    + intros [(x' & y' & [= -> ->] & Hl)|([= -> ->] & _)]; [done|lia].
    + intros Hl. left. by exists x, y.
  - rewrite (Hiff _ Hwf). unfold can_capture, legal_cell. split.
    + intros [(x & y & Heq & Hl)|(_ & Hno & Hyes)]; [|done].
      injection Heq as <- <-. apply legal_cell_on_board in Hl as [? _]. simpl in *. lia.
    + intros [Hno Hyes]. by right.
  - intros m Hm. apply (Hiff _ Hwf) in Hm as [(x & y & -> & Hl)|(-> & _)].
    + split; [done|]. right. pose proof (legal_cell_on_board _ _ _ _ Hl) as [? _].
      split; [unfold is_skip; simpl in *; lia|]. by destruct Hl.
    + split; [done|by left].
Qed.

Lemma valid_moves_are_the_legal_moves_witness :
  mkMove (Some Color.BLACK) 2 3 ∈ valid_moves opening_board ↔
  seeded_at_empty (_tiles opening_board) Tile.BLACK 2 3.
Proof.
  destruct (valid_moves_are_the_legal_moves opening_board Color.BLACK opening_wf eq_refl)
    as (H & _).
  apply H. lia.
Defined.

(** ** [AI.next_move] *)

Lemma getitem_head {A} (l : list A) :
  getitem l 0 = match l with [] => Raise IndexError | a :: _ => Ok a end.
Proof.
  destruct l as [|a l]; [done|]. apply getitem_inside; [lia|done].
Qed.


(** ** Late in the game no move is listed twice *)

Lemma flat_map_bind {A B} (f : A → list B) l : flat_map f l = l ≫= f.
Proof. induction l as [|a l IH]; [done|]. cbn. by rewrite IH. Qed.

Lemma NoDup_enumerate {A} (l : list A) : NoDup (enumerate l).
Proof.
  apply NoDup_alt. intros i j [n a]. unfold enumerate. rewrite !list_lookup_imap.
  destruct (l !! i), (l !! j); cbn; try done. intros [= <- <-] [= ? _]. lia.
Qed.

Lemma NoDup_find_tiles g tile : NoDup (_find_tiles g tile).
Proof.
  unfold _find_tiles. rewrite flat_map_bind. apply NoDup_bind.
  - intros [x1 row1] [x2 row2] [x y] H1 H2 Hy1 Hy2.
    cbn beta iota in Hy1, Hy2.
    apply list_elem_of_In, in_flat_map in Hy1 as ([y1 c1] & _ & Hy1).
    apply list_elem_of_In, in_flat_map in Hy2 as ([y2 c2] & _ & Hy2).
    destruct (decide (c1 = tile)); [|by destruct Hy1].
    destruct (decide (c2 = tile)); [|by destruct Hy2].
    destruct Hy1 as [[= <- <-]|[]]. destruct Hy2 as [[= <- <-]|[]].
    apply elem_of_enumerate in H1 as [_ H1]. apply elem_of_enumerate in H2 as [_ H2].
    congruence.
  - intros [x row] _. cbn beta iota. rewrite flat_map_bind. apply NoDup_bind.
    + intros [y1 c1] [y2 c2] [x' y] H1 H2 Hy1 Hy2.
      destruct (decide (c1 = tile)); [|by apply elem_of_nil in Hy1].
      destruct (decide (c2 = tile)); [|by apply elem_of_nil in Hy2].
      apply list_elem_of_singleton in Hy1 as [= <- <-].
      apply list_elem_of_singleton in Hy2 as [= <-].
      apply elem_of_enumerate in H1 as [_ H1]. apply elem_of_enumerate in H2 as [_ H2].
      congruence.
    + intros [y c] _. destruct (decide (c = tile)); [apply NoDup_singleton|constructor].
    + apply NoDup_enumerate.
  - apply NoDup_enumerate.
Qed.

Lemma scan_origin_start_cases g tile o stop ox oy nbrs :
  scan_origin g tile o stop true ox oy nbrs = [] ∨
  scan_origin g tile o stop true ox oy nbrs = [mkMove (Tile.color tile) ox oy].
Proof.
  induction nbrs as [|[nx ny] rest IH]; cbn [scan_origin]; [by left|].
  destruct (walk RAY g o _ _ _ _) as [[x y] t].
  destruct (decide (t = Some stop)); [by right|done].
Qed.

(** X3. When [_empty_count] is below 50, so that the scan starts from the
    empty cells, [_valid_moves_for] lists no move twice (the [break] leaves
    the loop over the neighbours at the first ray that succeeds); with the
    color to move able to capture, [valid_moves] then lists no move twice. *)
Theorem late_moves_listed_once b tile :
  _empty_count b < 50 →
  NoDup (_valid_moves_for b tile) ∧
  (tile = Tile.for_color (_next_to_move b) → NoDup (valid_moves b)).
Proof.
  intros Hlt.
  assert (NoDup (_valid_moves_for b tile)) as Hnd.
  { unfold _valid_moves_for. destruct (_empty_count b <? 50) eqn:E; [|lia].
    unfold ray_scan. rewrite flat_map_bind. apply NoDup_bind.
    - intros [x1 y1] [x2 y2] m _ _ H1 H2.
      destruct (scan_origin_start_cases (_tiles b) tile (Tile.other tile) tile x1 y1
                  (_find_neighbour_tiles (_tiles b) x1 y1 (Tile.other tile))) as [E1|E1];
        rewrite E1 in H1; [by apply elem_of_nil in H1|].
      destruct (scan_origin_start_cases (_tiles b) tile (Tile.other tile) tile x2 y2
                  (_find_neighbour_tiles (_tiles b) x2 y2 (Tile.other tile))) as [E2|E2];
        rewrite E2 in H2; [by apply elem_of_nil in H2|].
      apply list_elem_of_singleton in H1, H2. congruence.
    - intros [x y] _.
      destruct (scan_origin_start_cases (_tiles b) tile (Tile.other tile) tile x y
                  (_find_neighbour_tiles (_tiles b) x y (Tile.other tile))) as [-> | ->];
        [constructor|apply NoDup_singleton].
    - apply NoDup_find_tiles. }
  split; [done|]. intros ->. unfold valid_moves.
  destruct (_valid_moves_for b (Tile.for_color (_next_to_move b))) as [|m l]; [|done].
  destruct (_valid_moves_for b _); [constructor|apply NoDup_singleton].
Qed.

Lemma late_moves_listed_once_witness :
  NoDup (valid_moves (set_empty_count 49 doubled_board)).
Proof.
  apply (late_moves_listed_once (set_empty_count 49 doubled_board) Tile.BLACK);
    [by vm_compute|done].
Defined.

(** ** The move and the scores the search returns *)

Lemma first_best_elem (t : Move → Z) V items :
  (∃ item, item ∈ items ∧ t item.2 = V) →
  ∃ m, first_best t V items = Some m ∧ m ∈ map snd items ∧ t m = V.
Proof.
  induction items as [|item items IH]; intros (item' & Hin & Ht).
  - by apply elem_of_nil in Hin.
  - cbn [first_best map]. destruct (decide (t item.2 = V)) as [Heq|Hne].
    + exists item.2. split; [done|]. split; [left|done].
    + apply elem_of_cons in Hin as [->|Hin]; [done|].
      destruct IH as (m & Hm & Hin' & Hv); [by exists item'|].
      exists m. split; [done|]. split; [by right|done].
Qed.

Lemma negamax_best_move matrix d b c :
  wf_matrix matrix → wf_board b → finished b = false → valid_moves b ≠ [] →
  ∃ m, _negamax matrix (S d) b None None (Some c)
       = Ok (mkResult (Some (minimax matrix (S d) b c)) (Some m)) ∧
       m ∈ valid_moves b ∧
       - minimax matrix d (child b m) (Color.other c) = minimax matrix (S d) b c ∧
       ∀ m', m' ∈ valid_moves b →
             - minimax matrix d (child b m') (Color.other c) <= minimax matrix (S d) b c.
Proof.
  intros Hm Hwf Hfin Hne.
  destruct (ordered_moves matrix Hm b Hwf) as (items & Hitems & Hsame & Hgood).
  rewrite (negamax_step matrix d b None None c items) by done.
  pose proof (minimax_step matrix d b c items Hfin Hne Hsame) as Hmax.
  apply maxl_spec in Hmax as [Hall Hex].
  assert (∃ item, item ∈ sort_desc items ∧
            move_value (fun ch => minimax matrix d ch (Color.other c)) b item.2
            = minimax matrix (S d) b c) as Hex'.
  { destruct Hex as (m & (item & -> & Hin)%list_elem_of_fmap & Hv). by exists item. }
  pose proof (loop_exact (_negamax matrix d)
                (fun ch => minimax matrix d ch (Color.other c)) wf_board b c None None
                ltac:(intros; by apply negamax_fail_soft) I (sort_desc items) None None
                (minimax matrix (S d) b c) Hgood ltac:(done)
                ltac:(intros item Hin; apply Hall, list_elem_of_fmap; by exists item)
                Hex' I I) as Hloop.
  change (raised None None) with (@None Z) in Hloop. rewrite Hloop.
  destruct (first_best_elem _ _ _ Hex') as (m & -> & Hin & Hv).
  exists m. split; [done|]. split; [by apply Hsame|]. split; [done|].
  intros m' Hm'. apply (Hall m'). by apply Hsame.
Qed.

(** X4. On an 8 x 8 board with a color to move and a valid move, a player
    of depth 0 returns no move at all, with the evaluation of the board as
    score.  A player of any other depth does not raise and returns one of
    the valid moves, whose exact value at that depth is the largest among
    the valid moves; that value is the score it records. *)
Theorem next_move_is_a_best_valid_move self b c :
  wf_matrix (_matrix self) → wf_board b → _next_to_move b = Some c →
  valid_moves b ≠ [] →
  (depth self = O →
   next_move self b
   = Ok (None, mkPlayer (player_color self) O (_matrix self)
                 (Some (_evaluate (_matrix self) b (Some c))))) ∧
  (∀ d, depth self = S d →
   ∃ m, next_move self b
        = Ok (Some m, mkPlayer (player_color self) (S d) (_matrix self)
                        (Some (minimax (_matrix self) (S d) b c))) ∧
        m ∈ valid_moves b ∧
        - minimax (_matrix self) d (child b m) (Color.other c)
        = minimax (_matrix self) (S d) b c ∧
        ∀ m', m' ∈ valid_moves b →
              - minimax (_matrix self) d (child b m') (Color.other c)
              <= - minimax (_matrix self) d (child b m) (Color.other c)).
Proof.
  intros Hm Hwf Hntm Hne. unfold next_move. rewrite Hntm. split.
  - by intros ->.
  - intros d ->.
    destruct (negamax_best_move (_matrix self) d b c Hm Hwf) as (m & Hrun & Hin & Hv & Hall);
      [unfold finished; by rewrite Hntm|done|].
    exists m. rewrite Hrun. split; [done|]. split; [done|]. split; [done|].
    intros m' Hm'. rewrite Hv. by apply Hall.
Qed.

Lemma next_move_is_a_best_valid_move_witness :
  ∃ m, next_move (NegaMaxPlayer_init Color.BLACK 1 None) corner_board
       = Ok (Some m, mkPlayer Color.BLACK 1 default_matrix
                       (Some (minimax default_matrix 1 corner_board Color.BLACK))) ∧
       m ∈ valid_moves corner_board.
Proof.
  destruct (next_move_is_a_best_valid_move (NegaMaxPlayer_init Color.BLACK 1 None)
              corner_board Color.BLACK default_matrix_wf corner_board_wf eq_refl)
    as [_ H]; [by vm_compute|].
  destruct (H O eq_refl) as (m & Hm & Hin & _). by exists m.
Defined.

Lemma score_moves_loop_exact matrix d b c moves :
  wf_matrix matrix → wf_board b → _next_to_move b = Some c →
  (∀ m, m ∈ moves → m ∈ valid_moves b) →
  score_moves_loop matrix d b moves
  = Ok (map (fun m => mkResult (Some (- minimax matrix d (child b m) (Color.other c)))
                        (Some m)) moves).
Proof.
  intros Hm Hwf Hntm. induction moves as [|m moves IH]; intros Hin; [done|].
  cbn [score_moves_loop map].
  destruct (apply_ok b m Hwf) as (ch & Hch & Hwfc).
  { eapply valid_moves_wf; [done|]. apply Hin. left. }
  rewrite Hch, Hntm. cbn [mbind Exc_bind ebind].
  destruct (negamax_exact matrix Hm d ch (Color.other c) Hwfc) as [mv ->].
  cbn [ebind nr_score]. rewrite IH by (intros m' Hm'; apply Hin; by right).
  cbn [ebind]. unfold child. by rewrite Hch.
Qed.

(** X5. On an 8 x 8 board with a color to move, [score_moves] does not
    raise and returns one result for every entry of [valid_moves], in the
    same order, repeats included: the move, with minus the exact value, at
    the player's depth, of the board it leads to for the opponent.  On a
    finished board of a game it returns the empty list. *)
Theorem score_moves_scores_every_valid_move self b :
  wf_matrix (_matrix self) → wf_board b →
  (∀ c, _next_to_move b = Some c →
     score_moves self b
     = Ok (map (fun m => mkResult
                  (Some (- minimax (_matrix self) (depth self) (child b m) (Color.other c)))
                  (Some m)) (valid_moves b))) ∧
  (reachable b → finished b = true → score_moves self b = Ok []).
Proof.
  intros Hm Hwf. split.
  - intros c Hntm. unfold score_moves. by apply score_moves_loop_exact.
  - intros Hr Hfin. unfold score_moves.
    assert (valid_moves b = []) as ->; [|done].
    apply valid_moves_nil_iff; [done|]. apply (terminal_invariant b Hr).
    unfold finished in Hfin. by destruct (_next_to_move b).
Qed.

Lemma score_moves_scores_every_valid_move_witness :
  ∃ results, score_moves (NegaMaxPlayer_init Color.BLACK 1 None) opening_board = Ok results ∧
             map nr_move results = map Some (valid_moves opening_board).
Proof.
  destruct (score_moves_scores_every_valid_move (NegaMaxPlayer_init Color.BLACK 1 None)
              opening_board default_matrix_wf opening_wf) as [H _].
  rewrite (H Color.BLACK eq_refl). eexists. split; [done|].
  rewrite map_map. done.
Defined.

Lemma maxl_map {A B} (f : B → Z) (g : A → B) l T :
  maxl f (map g l) T = maxl (fun a => f (g a)) l T.
Proof. revert T. induction l as [|a l IH]; intros T; [done|]. cbn. apply IH. Qed.

(** X6. The hints and the move agree: on an 8 x 8 board with a color to
    move and a valid move, the score [next_move] records at depth d + 1 is
    the largest score [score_moves] gives at depth d. *)
Theorem next_move_score_is_best_hint color d matrix last1 last2 b c :
  wf_matrix matrix → wf_board b → _next_to_move b = Some c → valid_moves b ≠ [] →
  ∃ results,
    score_moves (mkPlayer color d matrix last1) b = Ok results ∧
    chosen_score (mkPlayer color (S d) matrix last2) b = Ok (maxl score_of results None).
Proof.
  intros Hm Hwf Hntm Hne. eexists. split.
  { unfold score_moves. cbn [_matrix depth]. by apply score_moves_loop_exact. }
  unfold chosen_score, next_move. cbn [_matrix depth]. rewrite Hntm.
  destruct (negamax_best_move matrix d b c Hm Hwf) as (m & -> & _);
    [unfold finished; by rewrite Hntm|done|].
  cbn [mbind Exc_bind ebind snd _last_score nr_score]. f_equal.
  rewrite maxl_map. cbn [score_of nr_score minimax].
  unfold finished. rewrite Hntm.
  destruct (maxl _ (valid_moves b) None) eqn:E; [done|]. by apply maxl_nil in E.
Qed.

Lemma next_move_score_is_best_hint_witness :
  ∃ results,
    score_moves (mkPlayer Color.BLACK 0 default_matrix None) corner_board = Ok results ∧
    chosen_score (mkPlayer Color.BLACK 1 default_matrix None) corner_board
    = Ok (maxl score_of results None).
Proof.
  apply (next_move_score_is_best_hint Color.BLACK 0 default_matrix None None corner_board
           Color.BLACK default_matrix_wf corner_board_wf eq_refl).
  by vm_compute.
Defined.

(** X7. [_negamax] is fail-soft.  On an 8 x 8 board, with alpha below beta
    (each may be absent), it does not raise, and its score r compares with
    the score v of the search without bounds as follows: r = v when r lies
    strictly between the bounds, v <= r when r is at or below alpha, and
    r <= v when r is at or above beta. *)
Theorem negamax_score_bounds_exact_value matrix d b alpha beta c :
  wf_matrix matrix → wf_board b → window alpha beta →
  ∃ v mv0 r mv,
    _negamax matrix d b None None (Some c) = Ok (mkResult (Some v) mv0) ∧
    _negamax matrix d b alpha beta (Some c) = Ok (mkResult (Some r) mv) ∧
    (lt_lo alpha r → lt_hi r beta → r = v) ∧
    (∀ a, alpha = Some a → r <= a → v <= r) ∧
    (∀ b', beta = Some b' → b' <= r → r <= v).
Proof.
  intros Hm Hwf Hw.
  destruct (negamax_exact matrix Hm d b c Hwf) as [mv0 Hv].
  destruct (negamax_fail_soft matrix Hm d b alpha beta c Hwf Hw)
    as (r & mv & Hr & Hlow & Hhigh & Hin).
  exists (minimax matrix d b c), mv0, r, mv.
  split; [done|]. split; [done|]. split; [done|]. split.
  - intros a -> Ha. apply Hlow. cbn. lia.
  - intros b' -> Hb. apply Hhigh. cbn. lia.
Qed.

Lemma negamax_score_bounds_exact_value_witness :
  ∃ v mv0 r mv,
    _negamax default_matrix 1 corner_board None None (Some Color.BLACK)
    = Ok (mkResult (Some v) mv0) ∧
    _negamax default_matrix 1 corner_board (Some 0) (Some 10) (Some Color.BLACK)
    = Ok (mkResult (Some r) mv) ∧
    (∀ b', Some 10 = Some b' → b' <= r → r <= v).
Proof.
  destruct (negamax_score_bounds_exact_value default_matrix 1 corner_board (Some 0) (Some 10)
              Color.BLACK default_matrix_wf corner_board_wf)
    as (v & mv0 & r & mv & H1 & H2 & _ & _ & H3); [cbn; lia|].
  by exists v, mv0, r, mv.
Defined.

(** X8. On an 8 x 8 board [next_move] does not raise, and the score it
    records is never further from 0 than the larger of 999 and the sum of
    the absolute weights of the player's matrix; with the default weights,
    never further than 999. *)
Theorem next_move_score_is_bounded self b :
  wf_matrix (_matrix self) → wf_board b →
  ∃ mv s,
    next_move self b
    = Ok (mv, mkPlayer (player_color self) (depth self) (_matrix self) (Some s)) ∧
    Z.abs s <= score_bound (_matrix self) ∧
    (_matrix self = default_matrix → -999 <= s <= 999).
Proof.
  intros Hm Hwf. unfold next_move.
  assert (∃ mv s, _negamax (_matrix self) (depth self) b None None (_next_to_move b)
                  = Ok (mkResult (Some s) mv) ∧
                  Z.abs s <= score_bound (_matrix self)) as (mv & s & -> & Hs).
  { destruct (_next_to_move b) as [c|] eqn:Hntm.
    - destruct (negamax_exact (_matrix self) Hm (depth self) b c Hwf) as [mv ->].
      eexists _, _. split; [done|]. apply minimax_bound.
    - exists None, (_evaluate (_matrix self) b None). split; [|apply evaluate_bound].
      destruct (depth self); cbn [_negamax]; [done|]. unfold finished. by rewrite Hntm. }
  exists mv, s. split; [done|]. split; [done|].
  intros Hd. rewrite Hd, default_score_bound in Hs. lia.
Qed.

Lemma next_move_score_is_bounded_witness :
  ∃ mv s,
    next_move (NegaMaxPlayer_init Color.BLACK 2 None) midgame_board
    = Ok (mv, mkPlayer Color.BLACK 2 default_matrix (Some s)) ∧ -999 <= s <= 999.
Proof.
  destruct (next_move_score_is_bounded (NegaMaxPlayer_init Color.BLACK 2 None) midgame_board
              default_matrix_wf (reachable_wf _ midgame_reachable))
    as (mv & s & H & _ & Hb).
  exists mv, s. split; [done|]. by apply Hb.
Defined.

(** ** The stones a move turns *)

Lemma collect_path_inv fuel g o dx dy :
  ∀ x y path, ∃ j : nat, (j ≤ fuel)%nat ∧
    (∀ i : nat, (i < j)%nat → get_tile g (x + Z.of_nat i * dx) (y + Z.of_nat i * dy) = Some o) ∧
    collect_path fuel g o x y dx dy path
    = (path ++ map (fun i : nat => (x + Z.of_nat i * dx, y + Z.of_nat i * dy)) (seq 0 j),
       get_tile g (x + Z.of_nat j * dx) (y + Z.of_nat j * dy)).
Proof.
  induction fuel as [|fuel IH]; intros x y path.
  - exists O. split; [lia|]. split; [intros; lia|]. cbn [collect_path seq map].
    rewrite app_nil_r. cells_eq.
  - cbn [collect_path]. destruct (decide (get_tile g x y = Some o)) as [Ho|Ho].
    + destruct (IH (x + dx) (y + dy) (path ++ [(x, y)])) as (j & Hj & Hrun & ->).
      exists (S j). split; [lia|]. split; [|f_equal].
      * intros [|i] Hi.
        -- rewrite <- Ho. cells_eq.
        -- rewrite <- (Hrun i) by lia. cells_eq.
      * rewrite <- app_assoc. f_equal. cbn [seq map app]. f_equal; [cells_eq|].
        rewrite <- seq_shift, map_map. apply map_ext. intros i. cells_eq.
      * cells_eq.
    + exists O. split; [lia|]. split; [intros; lia|]. cbn [seq map].
      rewrite app_nil_r. cells_eq.
Qed.

Lemma flip_direction_captured tile x y g nb :
  flip_direction tile (Tile.other tile) x y (Ok g) nb = paint tile (captured g tile x y nb) g.
Proof.
  destruct nb as [ox oy]. unfold flip_direction, captured. cbn [mbind Exc_bind ebind fst snd].
  destruct (decide (cell g ox oy = Some (Tile.other tile))); [|done].
  cbn zeta. destruct (collect_path RAY g (Tile.other tile) _ _ _ _ _) as [path t].
  by destruct (decide (Some tile = t)).
Qed.

Lemma elem_of_captured g tile x y nb p :
  stone tile → nb ∈ neighbour_cells x y →
  p ∈ captured g tile x y nb ↔ turned_dir g tile x y (nb.1 - x) (nb.2 - y) p.1 p.2.
Proof.
  destruct nb as [ox oy], p as [px py]. intros Hst Hnb.
  apply elem_of_neighbour_cells in Hnb as (Hd & Hox & Hoy).
  destruct (stone_other tile Hst) as [Hne _].
  unfold captured, turned_dir, bracketed. cbn [fst snd]. cbn zeta.
  set (o := Tile.other tile) in *. set (dx := ox - x) in *. set (dy := oy - y) in *.
  assert (ox = x + dx) as Hx by (unfold dx; lia).
  assert (oy = y + dy) as Hy by (unfold dy; lia).
  destruct (collect_path_inv RAY g o dx dy (ox + dx) (oy + dy) [(ox, oy)])
    as (j & Hj & Hrun & Hcp).
  destruct (collect_path_fuel _ _ _ _ _ _ _ _ _ ltac:(destruct Hd as (_ & _ & Hd); exact Hd) Hcp)
    as [Hend _].
  rewrite Hcp. clear Hcp. split.
  - destruct (decide (cell g ox oy = Some o)) as [Hc|]; [|by intros ?%elem_of_nil].
    destruct (decide (Some tile = _)) as [Ht|]; [|by intros ?%elem_of_nil].
    intros Hin.
    assert (run g o x y dx dy (Z.of_nat j + 1)) as Hr.
    { intros i Hi. destruct (decide (i = 1)) as [->|].
      - apply get_tile_Some. split; [lia|]. rewrite <- Hc. cells_eq.
      - rewrite <- (Hrun (Z.to_nat (i - 2))) by lia. cells_eq. }
    assert (get_tile g (x + (Z.of_nat j + 1 + 1) * dx) (y + (Z.of_nat j + 1 + 1) * dy)
            = Some tile) as He.
    { rewrite Ht. cells_eq. }
    exists (Z.of_nat j + 1).
    apply elem_of_app in Hin as [Hin|Hin].
    + apply list_elem_of_singleton in Hin as [= -> ->].
      exists 1. split; [split; [lia|done]|]. lia.
    + apply list_elem_of_fmap in Hin as (i & [= -> ->] & Hin).
      apply elem_of_seq in Hin.
      exists (Z.of_nat i + 2). split; [split; [lia|done]|]. lia.
  - intros (k & i & (Hk & Hr & He) & Hi & -> & ->).
    assert (cell g ox oy = Some o) as Hc.
    { pose proof (Hr 1 ltac:(lia)) as H1. apply get_tile_Some in H1 as [_ H1].
      rewrite <- H1. cells_eq. }
    assert (k = Z.of_nat j + 1) as ->.
    { destruct (decide (k <= Z.of_nat j)) as [Hle|Hgt].
      - exfalso. apply Hne. change (o = tile).
        assert (Some tile = Some o) as Heq; [|by injection Heq].
        rewrite <- He, <- (Hrun (Z.to_nat (k - 1))) by lia. cells_eq.
      - destruct (decide (Z.of_nat j + 2 <= k)) as [Hge|]; [|lia].
        exfalso. apply Hend. rewrite <- (Hr (Z.of_nat j + 2)) by lia. cells_eq. }
    rewrite decide_True by done. rewrite decide_True.
    2:{ rewrite <- He. cells_eq. }
    destruct (decide (i = 1)) as [->|].
    + apply elem_of_app. left. apply list_elem_of_singleton. cells_eq.
    + apply elem_of_app. right. apply list_elem_of_fmap.
      exists (Z.to_nat (i - 2)). split; [cells_eq|]. apply elem_of_seq. lia.
Qed.

Lemma get_tile_set_tile g x y t g' x' y' :
  wf_grid g → on_board (x, y) → set_tile g x y t = Ok g' →
  get_tile g' x' y' = if decide (x' = x ∧ y' = y) then Some t else get_tile g x' y'.
Proof.
  intros Hwf Hxy Hs. unfold get_tile.
  destruct ((x' <? 0) || (x' >? 7) || (y' <? 0) || (y' >? 7)) eqn:E.
  - rewrite decide_False; [done|]. destruct Hxy as [? ?]. simpl in *. lia.
  - apply (cell_set_tile g x y t g'); [done..|lia|lia].
Qed.

Lemma get_tile_paint tile path g g' x' y' :
  wf_grid g → Forall on_board path → paint tile path g = Ok g' →
  get_tile g' x' y' = if decide ((x', y') ∈ path) then Some tile else get_tile g x' y'.
Proof.
  unfold paint. revert g. induction path as [|[x y] path IH]; intros g Hwf Hpath; cbn [foldl].
  - intros [= <-]. rewrite decide_False; [done|]. by intros ?%elem_of_nil.
  - apply Forall_cons in Hpath as [Hxy Hpath].
    destruct (set_tile_on_board g x y tile Hwf Hxy) as [g1 Hg1].
    cbn [mbind Exc_bind ebind fst snd]. rewrite Hg1. intros Hp.
    rewrite (IH g1); [|by eapply set_tile_wf|done|done].
    rewrite (get_tile_set_tile g x y tile g1) by done.
    destruct (decide ((x', y') ∈ path)) as [Hin|Hnin].
    + rewrite decide_True; [done|by right].
    + destruct (decide (x' = x ∧ y' = y)) as [[-> ->]|Hne].
      * rewrite decide_True; [done|left].
      * rewrite decide_False; [done|].
        intros [[= -> ->]|?]%elem_of_cons; [by apply Hne|done].
Qed.

Lemma captured_on_board g tile x y nb :
  nb ∈ neighbour_cells x y → Forall on_board (captured g tile x y nb).
Proof.
  destruct nb as [ox oy]. intros Hnb. unfold captured. cbn [fst snd].
  destruct (decide _); [|done]. cbn zeta.
  destruct (collect_path RAY g (Tile.other tile) _ _ _ _ _) as [path t] eqn:Hc.
  destruct (decide _); [|done].
  eapply collect_path_on_board; [exact Hc|].
  apply Forall_singleton. by apply elem_of_neighbour_cells in Hnb as [_ ?].
Qed.

(** Two rays from one cell share no cell unless they have one direction. *)
Lemma ray_disjoint dx dy dx' dy' i i' :
  is_dir dx dy → is_dir dx' dy' → 1 <= i → 1 <= i' →
  i * dx = i' * dx' → i * dy = i' * dy' → dx = dx' ∧ dy = dy'.
Proof.
  intros (Hdx & Hdy & Hd) (Hdx' & Hdy' & Hd') Hi Hi'.
  assert (dx = -1 ∨ dx = 0 ∨ dx = 1) as [-> | [-> | ->]] by lia;
  assert (dy = -1 ∨ dy = 0 ∨ dy = 1) as [-> | [-> | ->]] by lia;
  assert (dx' = -1 ∨ dx' = 0 ∨ dx' = 1) as [-> | [-> | ->]] by lia;
  assert (dy' = -1 ∨ dy' = 0 ∨ dy' = 1) as [-> | [-> | ->]] by lia;
  lia.
Qed.

Lemma NoDup_neighbour_cells x y : NoDup (neighbour_cells x y).
Proof.
  assert (NoDup [-1; 0; 1]) as H3.
  { repeat (apply NoDup_cons; split; [rewrite ?elem_of_cons, elem_of_nil; lia|]).
    apply NoDup_nil_2. }
  assert (NoDup [-1; 1]) as H2.
  { repeat (apply NoDup_cons; split; [rewrite ?elem_of_cons, elem_of_nil; lia|]).
    apply NoDup_nil_2. }
  unfold neighbour_cells. rewrite flat_map_bind. apply NoDup_bind; [| |done].
  - intros dx1 dx2 [ox oy] _ _ H1 H2'. cbn zeta in *.
    destruct ((0 <=? x + dx1) && (x + dx1 <=? 7)); [|by apply elem_of_nil in H1].
    destruct ((0 <=? x + dx2) && (x + dx2 <=? 7)); [|by apply elem_of_nil in H2'].
    rewrite flat_map_bind in H1, H2'.
    apply list_elem_of_bind in H1 as (dy1 & H1 & _).
    apply list_elem_of_bind in H2' as (dy2 & H2' & _).
    destruct ((0 <=? y + dy1) && (y + dy1 <=? 7)); [|by apply elem_of_nil in H1].
    destruct ((0 <=? y + dy2) && (y + dy2 <=? 7)); [|by apply elem_of_nil in H2'].
    apply list_elem_of_singleton in H1 as [= -> ->].
    apply list_elem_of_singleton in H2'. injection H2'. lia.
  - intros dx _. cbn zeta.
    destruct ((0 <=? x + dx) && (x + dx <=? 7)); [|apply NoDup_nil_2].
    rewrite flat_map_bind. apply NoDup_bind.
    + intros dy1 dy2 [ox oy] _ _ H1 H2'.
      destruct ((0 <=? y + dy1) && (y + dy1 <=? 7)); [|by apply elem_of_nil in H1].
      destruct ((0 <=? y + dy2) && (y + dy2 <=? 7)); [|by apply elem_of_nil in H2'].
      apply list_elem_of_singleton in H1 as [= -> ->].
      apply list_elem_of_singleton in H2'. injection H2'. lia.
    + intros dy _. destruct ((0 <=? y + dy) && (y + dy <=? 7)); [|apply NoDup_nil_2].
      apply NoDup_singleton.
    + by destruct (dx =? 0).
Qed.

Lemma turned_dir_ext g1 g2 tile x y dx dy x' y' :
  (∀ i, 1 <= i → get_tile g1 (x + i * dx) (y + i * dy) = get_tile g2 (x + i * dx) (y + i * dy)) →
  turned_dir g1 tile x y dx dy x' y' → turned_dir g2 tile x y dx dy x' y'.
Proof.
  intros Hsame (k & i & (Hk & Hr & He) & Hi & -> & ->). exists k, i.
  split; [|done]. split; [done|]. split.
  - intros i' Hi'. rewrite <- Hsame by lia. by apply Hr.
  - rewrite <- Hsame by lia. done.
Qed.

(** Painting the run of one direction leaves the rays of the others as
    they were. *)
Lemma captured_other_ray g tile x y nb nb' g1 :
  wf_grid g → stone tile →
  nb ∈ neighbour_cells x y → nb' ∈ neighbour_cells x y → nb ≠ nb' →
  paint tile (captured g tile x y nb) g = Ok g1 →
  ∀ i, 1 <= i →
    get_tile g1 (x + i * (nb'.1 - x)) (y + i * (nb'.2 - y))
    = get_tile g (x + i * (nb'.1 - x)) (y + i * (nb'.2 - y)).
Proof.
  intros Hwf Hst Hnb Hnb' Hne Hp i Hi.
  rewrite (get_tile_paint tile (captured g tile x y nb) g g1);
      [|done|by apply captured_on_board|done].
  rewrite decide_False; [done|]. intros Hin.
  apply elem_of_captured in Hin as (k & i2 & _ & Hi2 & Hx & Hy); [|done..].
  cbn [fst snd] in Hx, Hy.
  destruct nb as [ox oy], nb' as [ox' oy']. cbn [fst snd] in *.
  apply elem_of_neighbour_cells in Hnb as [Hd _].
  apply elem_of_neighbour_cells in Hnb' as [Hd' _].
  destruct (ray_disjoint _ _ _ _ i i2 Hd' Hd) as [? ?]; [lia..|].
  apply Hne. f_equal; lia.
Qed.

Lemma flips_cells tile x y nbs :
  stone tile → NoDup nbs → (∀ nb, nb ∈ nbs → nb ∈ neighbour_cells x y) →
  ∀ g g', wf_grid g →
    foldl (flip_direction tile (Tile.other tile) x y) (Ok g) nbs = Ok g' →
    ∀ x' y', get_tile g' x' y'
             = if decide (Exists (fun nb => (x', y') ∈ captured g tile x y nb) nbs)
               then Some tile else get_tile g x' y'.
Proof.
  intros Hst. induction nbs as [|nb nbs IH]; intros Hnd Hnbs g g' Hwf; cbn [foldl].
  - intros [= <-] x' y'. rewrite decide_False; [done|]. by intros ?%Exists_nil.
  - apply NoDup_cons in Hnd as [Hnin Hnd].
    assert (nb ∈ neighbour_cells x y) as Hnb by (apply Hnbs; left).
    rewrite flip_direction_captured.
    destruct (paint_ok tile (captured g tile x y nb) g Hwf (captured_on_board g tile x y nb Hnb))
      as (g1 & Hg1 & Hwf1).
    rewrite Hg1. intros Hf x' y'.
    rewrite (IH Hnd ltac:(intros; apply Hnbs; by right) g1 g' Hwf1 Hf).
    rewrite (get_tile_paint tile (captured g tile x y nb) g g1);
      [|done|by apply captured_on_board|done].
    assert (∀ nb', nb' ∈ nbs →
              (x', y') ∈ captured g1 tile x y nb' ↔ (x', y') ∈ captured g tile x y nb') as Hsame.
    { intros nb' Hin.
      assert (nb' ∈ neighbour_cells x y) as Hnb' by (apply Hnbs; by right).
      assert (nb ≠ nb') as Hne by (by intros ->).
      rewrite !elem_of_captured by done. split; apply turned_dir_ext; intros i Hi.
      - by apply (captured_other_ray g tile x y nb nb' g1).
      - symmetry. by apply (captured_other_ray g tile x y nb nb' g1). }
    destruct (decide (Exists (fun nb' => (x', y') ∈ captured g1 tile x y nb') nbs)) as [He|He].
    + rewrite decide_True; [done|]. apply Exists_cons. right.
      apply Exists_exists in He as (nb' & Hin & Hc). apply Exists_exists.
      exists nb'. split; [done|]. by apply Hsame.
    + destruct (decide ((x', y') ∈ captured g tile x y nb)) as [Hc|Hc].
      * rewrite decide_True; [done|]. apply Exists_cons. by left.
      * rewrite decide_False; [done|]. intros [?|He']%Exists_cons; [done|].
        apply He. apply Exists_exists in He' as (nb' & Hin & Hc'). apply Exists_exists.
        exists nb'. split; [done|]. by apply Hsame.
Qed.

Lemma exists_captured g g0 tile x y x' y' :
  wf_grid g → stone tile → on_board (x, y) → set_tile g x y tile = Ok g0 →
  Exists (fun nb => (x', y') ∈ captured g0 tile x y nb) (neighbour_cells x y)
  ↔ turned g tile x y x' y'.
Proof.
  intros Hwf Hst Hxy Hs.
  assert (∀ dx dy, is_dir dx dy → ∀ i, 1 <= i →
            get_tile g0 (x + i * dx) (y + i * dy) = get_tile g (x + i * dx) (y + i * dy))
    as Hray.
  { intros dx dy (Hdx & Hdy & Hd) i Hi. rewrite (get_tile_set_tile g x y tile g0) by done.
    rewrite decide_False; [done|]. intros [Hx Hy]. apply Hd. split; nia. }
  rewrite Exists_exists. split.
  - intros ([ox oy] & Hnb & Hc). apply elem_of_captured in Hc; [|done..].
    pose proof Hnb as [Hd _]%elem_of_neighbour_cells.
    exists (ox - x), (oy - y). split; [done|].
    eapply turned_dir_ext; [|exact Hc]. by apply Hray.
  - intros (dx & dy & Hd & Ht).
    assert ((x + dx, y + dy) ∈ neighbour_cells x y) as Hnb.
    { apply elem_of_neighbour_cells.
      replace (x + dx - x) with dx by lia. replace (y + dy - y) with dy by lia.
      split; [done|]. destruct Ht as (k & i & (Hk & Hr & _) & _).
      pose proof (Hr 1 ltac:(lia)) as H1. apply get_tile_Some in H1 as [H1 _]. lia. }
    exists (x + dx, y + dy). split; [done|]. apply elem_of_captured; [done..|].
    cbn [fst snd]. replace (x + dx - x) with dx by lia. replace (y + dy - y) with dy by lia.
    eapply turned_dir_ext; [|exact Ht]. intros i Hi. symmetry. by apply Hray.
Qed.

Lemma place_cells g tile x y g' :
  wf_grid g → stone tile → on_board (x, y) → place g tile x y = Ok g' →
  get_tile g' x y = Some tile ∧
  (∀ x' y', turned g tile x y x' y' → get_tile g' x' y' = Some tile) ∧
  (∀ x' y', (x', y') ≠ (x, y) → ¬ turned g tile x y x' y' →
            get_tile g' x' y' = get_tile g x' y').
Proof.
  intros Hwf Hst Hxy. unfold place.
  destruct (set_tile_on_board g x y tile Hwf Hxy) as [g0 Hg0]. rewrite Hg0.
  cbn [mbind Exc_bind ebind]. intros Hf.
  pose proof (flips_cells tile x y (neighbour_cells x y) Hst (NoDup_neighbour_cells x y)
                ltac:(done) g0 g' (set_tile_wf _ _ _ _ _ Hwf Hg0) Hf) as Hcells.
  pose proof (fun x' y' => exists_captured g g0 tile x y x' y' Hwf Hst Hxy Hg0) as Hex.
  split; [|split].
  - rewrite Hcells. destruct (decide _); [done|].
    rewrite (get_tile_set_tile g x y tile g0) by done. by rewrite decide_True.
  - intros x' y' Ht. rewrite Hcells. rewrite decide_True; [done|]. by apply Hex.
  - intros x' y' Hne Ht. rewrite Hcells. rewrite decide_False by (by rewrite Hex).
    rewrite (get_tile_set_tile g x y tile g0) by done.
    rewrite decide_False; [done|]. intros [-> ->]. by apply Hne.
Qed.

(** X9. The Othello rule for turning stones.  On an 8 x 8 board, [apply]
    with a move of color c on the cell (x, y) of the board does not raise.
    In the board it returns, (x, y) holds a stone of c; every cell of a run
    of the opponent's stones that lies, in one of the eight directions,
    between (x, y) and a stone of c holds a stone of c; every other cell
    holds what it held.  A legal move turns at least one stone.  The
    counter of empty cells goes down by one, and the turn passes to the
    opponent unless the game is over. *)
Theorem apply_turns_the_bracketed_runs b c x y :
  wf_board b → on_board (x, y) →
  ∃ b', apply b (mkMove (Some c) x y) = Ok b' ∧
    get_tile (_tiles b') x y = Some (Tile.for_color (Some c)) ∧
    (∀ x' y', turned (_tiles b) (Tile.for_color (Some c)) x y x' y' →
       get_tile (_tiles b) x' y' = Some (Tile.for_color (Some (Color.other c))) ∧
       get_tile (_tiles b') x' y' = Some (Tile.for_color (Some c))) ∧
    (∀ x' y', (x', y') ≠ (x, y) → ¬ turned (_tiles b) (Tile.for_color (Some c)) x y x' y' →
       get_tile (_tiles b') x' y' = get_tile (_tiles b) x' y') ∧
    (legal_cell (_tiles b) (Tile.for_color (Some c)) x y →
       ∃ x' y', turned (_tiles b) (Tile.for_color (Some c)) x y x' y') ∧
    _empty_count b' = _empty_count b - 1 ∧
    (_next_to_move b' = Some (Color.other c) ∨ _next_to_move b' = None).
Proof.
  intros Hwf Hxy.
  destruct (apply_place b (mkMove (Some c) x y) c Hwf eq_refl) as (g' & Hwf' & Hp & Ha).
  { unfold is_skip. destruct Hxy as [? _]. simpl in *. lia. }
  { done. }
  cbn [move_x move_y] in Hp.
  destruct (place_cells _ _ _ _ _ Hwf (for_color_stone (Some c)) Hxy Hp) as (Hown & Hturn & Hrest).
  eexists. split; [exact Ha|]. cbn zeta.
  assert (∀ b1 : Board, _tiles (match valid_moves b1 with
                                | [] => set_next_to_move None b1
                                | _ => b1 end) = _tiles b1) as Htiles.
  { intros b1. by destruct (valid_moves b1). }
  rewrite Htiles. cbn [_tiles].
  split; [done|]. split; [|split; [done|split; [|split]]].
  - intros x' y' Ht. split; [|by apply Hturn].
    destruct Ht as (dx & dy & _ & k & i & (_ & Hr & _) & Hi & -> & ->).
    rewrite (Hr i Hi). by destruct c.
  - intros (_ & dx & dy & k & Hd & Hk & Hr & He).
    exists (x + 1 * dx), (y + 1 * dy), dx, dy. split; [done|].
    exists k, 1. split; [done|]. lia.
  - by destruct (valid_moves _).
  - destruct (valid_moves _); cbn; auto.
Qed.

Lemma apply_turns_the_bracketed_runs_witness :
  ∃ b', apply opening_board (mkMove (Some Color.BLACK) 3 2) = Ok b' ∧
        get_tile (_tiles b') 3 2 = Some Tile.BLACK ∧
        _empty_count b' = 59.
Proof.
  destruct (apply_turns_the_bracketed_runs opening_board Color.BLACK 3 2 opening_wf)
    as (b' & Ha & Hown & _ & _ & _ & Hcount & _); [split; simpl; lia|].
  exists b'. split; [exact Ha|]. split; [exact Hown|exact Hcount].
Defined.

(** ** When [apply] raises *)

Lemma py_index_8 (i : Z) :
  py_index 8 i = if decide (-8 <= i < 8)
                 then Some (Z.to_nat (if i <? 0 then i + 8 else i)) else None.
Proof.
  unfold py_index. change (- Z.of_nat 8) with (-8). change (Z.of_nat 8) with 8.
  destruct (decide (-8 <= i < 8)) as [Hi|Hi];
    destruct (0 <=? i) eqn:E1, (i <? 8) eqn:E2, (i <? 0) eqn:E3, (-8 <=? i) eqn:E4;
    cbn [andb]; try lia; try done.
  f_equal. lia.
Qed.

Lemma setitem_8 {A} (row : list A) (y : Z) (t : A) :
  length row = 8%nat →
  setitem row y t
  = if decide (-8 <= y < 8)
    then Ok (<[Z.to_nat (if y <? 0 then y + 8 else y):=t]> row) else Raise IndexError.
Proof.
  intros Hlen. unfold setitem. rewrite Hlen, py_index_8. by destruct (decide _).
Qed.

Lemma set_tile_wrap g x y t :
  wf_grid g → 0 <= x →
  set_tile g x y t
  = if decide (x <= 7 ∧ -8 <= y <= 7)
    then set_tile g x (if y <? 0 then y + 8 else y) t
    else Raise IndexError.
Proof.
  intros Hwf Hx. pose proof Hwf as [Hlen Hrows]. unfold set_tile.
  destruct (decide (x <= 7)) as [Hx7|Hx7].
  - destruct (lookup_lt_is_Some_2 g (Z.to_nat x)) as [row Hrow]; [lia|].
    pose proof (wf_row g _ row Hwf Hrow) as Hrlen.
    rewrite (getitem_inside _ _ row) by done. cbn [mbind Exc_bind ebind].
    rewrite !(setitem_8 row) by done.
    destruct (decide (-8 <= y < 8)) as [Hy|Hy].
    + rewrite decide_True by lia. rewrite decide_True by (destruct (y <? 0) eqn:E; lia).
      destruct (y <? 0) eqn:E; [|by rewrite E].
      by replace (y + 8 <? 0) with false by lia.
    + by rewrite decide_False by lia.
  - rewrite decide_False by lia. unfold getitem. rewrite Hlen, py_index_8.
    by rewrite decide_False by lia.
Qed.

(** X10. When [apply] raises.  On an 8 x 8 board, a move without a color
    raises [AttributeError]; a skip (x below 0) is applied whatever its y;
    any other move raises [IndexError] when x is above 7 or y is outside
    -8 .. 7, and is applied otherwise.  A y from -8 to -1 counts from the
    end of the row: the stone is put on (x, y + 8), and the counter of
    empty cells goes down by one whatever the cell held. *)
Theorem apply_raises_off_the_board b m :
  wf_board b →
  match move_color m with
  | None => apply b m = Raise AttributeError
  | Some c =>
      if is_skip m then
        apply b m = Ok (mkBoard (_tiles b) (Some (Color.other c)) None (_empty_count b))
      else if decide (move_x m <= 7 ∧ -8 <= move_y m <= 7) then
        ∃ b', apply b m = Ok b' ∧ wf_board b' ∧
          get_tile (_tiles b') (move_x m) (if move_y m <? 0 then move_y m + 8 else move_y m)
          = Some (Tile.for_color (Some c)) ∧
          _empty_count b' = _empty_count b - 1
      else apply b m = Raise IndexError
  end.
Proof.
  intros Hwf. destruct (move_color m) as [c|] eqn:Hc.
  2:{ unfold apply, _apply_destructive. by rewrite Hc. }
  destruct (is_skip m) eqn:Hs; [by apply apply_skip|].
  rewrite (apply_place_eq b m c) by done. unfold place.
  assert (0 <= move_x m) as Hx by (unfold is_skip in Hs; lia).
  rewrite set_tile_wrap by done.
  destruct (decide (move_x m <= 7 ∧ -8 <= move_y m <= 7)) as [Hin|Hout]; [|done].
  set (tile := Tile.for_color (Some c)). set (x := move_x m) in *.
  set (y' := if move_y m <? 0 then move_y m + 8 else move_y m).
  assert (on_board (x, y')) as Hxy.
  { unfold on_board, y'. cbn [fst snd]. destruct (move_y m <? 0) eqn:E; lia. }
  destruct (set_tile_on_board (_tiles b) x y' tile Hwf Hxy) as [g0 Hg0].
  pose proof (set_tile_wf _ _ _ _ _ Hwf Hg0) as Hwf0.
  rewrite Hg0. cbn [mbind Exc_bind ebind].
  destruct (flips_ok tile (Tile.other tile) x (move_y m) g0 (neighbour_cells x (move_y m))
              Hwf0 ltac:(done)) as (g' & Hg' & Hwf').
  rewrite Hg'. cbn [ebind]. eexists. split; [done|].
  assert (get_tile g' x y' = Some tile) as Hown.
  { rewrite (flips_cells tile x (move_y m) _ (for_color_stone _)
               (NoDup_neighbour_cells _ _) ltac:(done) g0 g' Hwf0 Hg').
    destruct (decide _); [done|].
    rewrite (get_tile_set_tile (_tiles b) x y' tile g0) by done. by rewrite decide_True. }
  destruct (valid_moves _); done.
Qed.

Lemma apply_raises_off_the_board_witness :
  ∃ b', apply opening_board (mkMove (Some Color.BLACK) 0 (-1)) = Ok b' ∧
        get_tile (_tiles b') 0 7 = Some Tile.BLACK ∧ _empty_count b' = 59.
Proof.
  pose proof (apply_raises_off_the_board opening_board (mkMove (Some Color.BLACK) 0 (-1))
                opening_wf) as H.
  cbn [move_color is_skip move_x move_y] in H.
  change (0 <? 0) with false in H. cbv iota in H.
  destruct (decide (0 <= 7 ∧ -8 <= -1 <= 7)) as [_|Hn]; [|exfalso; apply Hn; lia].
  destruct H as (b' & Ha & _ & Hown & Hcount). exists b'. split; [exact Ha|].
  split; [exact Hown|exact Hcount].
Defined.

(** ** The stones on the boards of a game *)

Lemma place_cell_cases g tile x y g' x' y' :
  wf_grid g → stone tile → on_board (x, y) → place g tile x y = Ok g' →
  get_tile g' x' y' = Some tile ∨ get_tile g' x' y' = get_tile g x' y'.
Proof.
  intros Hwf Hst Hxy. unfold place.
  destruct (set_tile_on_board g x y tile Hwf Hxy) as [g0 Hg0]. rewrite Hg0.
  cbn [mbind Exc_bind ebind]. intros Hf.
  rewrite (flips_cells tile x y (neighbour_cells x y) Hst (NoDup_neighbour_cells x y)
             ltac:(done) g0 g' (set_tile_wf _ _ _ _ _ Hwf Hg0) Hf).
  destruct (decide _); [by left|].
  rewrite (get_tile_set_tile g x y tile g0) by done.
  destruct (decide _); [by left|by right].
Qed.

Lemma filter_tiles_length (l : list Tile.t) :
  (length (filter (fun c => c = Tile.EMPTY) l) + length (filter (fun c => c = Tile.BLACK) l)
   + length (filter (fun c => c = Tile.WHITE) l) + length (filter (fun c => c = Tile.TIP) l)
   = length l)%nat.
Proof.
  induction l as [|t l IH]; [done|]. rewrite !filter_cons.
  destruct t; repeat case_decide; try done; cbn [length]; lia.
Qed.

Lemma concat_length_8 (g : Grid) :
  Forall (fun row => length row = 8%nat) g → length (concat g) = (8 * length g)%nat.
Proof.
  induction 1 as [|row g Hrow _ IH]; [done|].
  cbn [concat]. rewrite length_app, Hrow, IH. cbn [length]. lia.
Qed.

Lemma count_total g :
  wf_grid g →
  count_tile g Tile.EMPTY + count_tile g Tile.BLACK + count_tile g Tile.WHITE
  + count_tile g Tile.TIP = 64.
Proof.
  intros [Hlen Hrows]. unfold count_tile.
  pose proof (filter_tiles_length (concat g)) as Hsum.
  rewrite (concat_length_8 g Hrows), Hlen in Hsum. lia.
Qed.

Lemma count_zero g q :
  (∀ x y, 0 <= x → 0 <= y → cell g x y ≠ Some q) → count_tile g q = 0.
Proof.
  intros Hno. unfold count_tile.
  destruct (filter (fun c => c = q) (concat g)) as [|t l] eqn:E; [done|]. exfalso.
  assert (t ∈ filter (fun c => c = q) (concat g)) as Hin by (rewrite E; left).
  apply list_elem_of_filter in Hin as [-> Hin].
  apply list_elem_of_In, in_concat in Hin as (row & Hrow & Hin).
  apply list_elem_of_In in Hrow, Hin.
  apply list_elem_of_lookup in Hrow as [i Hi]. apply list_elem_of_lookup in Hin as [j Hj].
  apply (Hno (Z.of_nat i) (Z.of_nat j)); [lia..|].
  unfold cell. by rewrite !Nat2Z.id, Hi.
Qed.

Lemma apply_drops_score b m b' : apply b m = Ok b' → _score b' = None.
Proof.
  unfold apply, _apply_destructive. destruct (move_color m); [|done].
  destruct (is_skip m); [by intros [= <-]|].
  cbn [_tiles _clone set_next_to_move].
  destruct (set_tile _ _ _ _) as [g0|]; [|done]. cbn [mbind Exc_bind ebind].
  destruct (foldl _ _ _) as [g'|]; [|done]. cbn [mbind Exc_bind ebind].
  by intros [= <-].
Qed.

Lemma reachable_no_tip b :
  reachable b → count_tile (_tiles b) Tile.TIP = 0 ∧ _empty_count b <= 60.
Proof.
  induction 1 as [|b m b' Hr [IHt IHc] Hm Ha]; [by vm_compute|].
  pose proof (reachable_wf b Hr) as Hwf.
  apply valid_moves_cases in Hm.
  destruct (color_for_color (_next_to_move b)) as [c Hc].
  destruct Hm as [Hin|(-> & Hnil & Hother)].
  - apply valid_moves_for_iff in Hin as (x & y & -> & Hl);
      [|done|apply for_color_stone].
    pose proof (legal_cell_on_board _ _ _ _ Hl) as Hxy.
    destruct (apply_place b (mkMove (Tile.color (Tile.for_color (_next_to_move b))) x y) c)
      as (g' & Hwf' & Hp & Ha'); [done|done| |done|].
    { destruct Hxy as [? _]. unfold is_skip. simpl in *. lia. }
    rewrite Ha' in Ha. injection Ha as <-. cbn zeta. cbn [move_x move_y] in Hp.
    assert (count_tile g' Tile.TIP = 0) as Hcount.
    { apply count_zero. intros x' y' Hx' Hy' Hcell.
      pose proof (wf_cell_Some g' x' y' _ Hwf' Hx' Hy' Hcell) as [? ?].
      rewrite <- get_tile_inside in Hcell by done.
      destruct (place_cell_cases _ _ _ _ _ x' y' Hwf (for_color_stone (Some c)) Hxy Hp)
        as [Ht|Ht]; rewrite Ht in Hcell.
      - by destruct c.
      - apply get_tile_Some in Hcell as [_ Hcell]. apply cell_count in Hcell. lia. }
    destruct (valid_moves _); cbn; split; (done || lia).
  - rewrite (apply_skip b _ c) in Ha by done. by injection Ha as <-.
Qed.

(** X11. The stones on the boards of a game.  Every cell holds an empty
    tile or a stone, never the tip tile; the stones and the counter of
    empty cells add up to 64; the counter lies between 0 and 60, so at
    least four stones are on the board; and [score], which finds no cached
    value on such a board, reports the stones that are on it. *)
Theorem stones_and_counter_add_up b :
  reachable b →
  (∀ x y, on_board (x, y) →
     ∃ t, get_tile (_tiles b) x y = Some t ∧ (t = Tile.EMPTY ∨ stone t)) ∧
  count_tile (_tiles b) Tile.BLACK + count_tile (_tiles b) Tile.WHITE + _empty_count b = 64 ∧
  0 <= _empty_count b <= 60 ∧
  score b = mkScore (count_tile (_tiles b) Tile.BLACK) (count_tile (_tiles b) Tile.WHITE)
              (_next_to_move b) ∧
  black_stones (score b) + white_stones (score b) = 64 - _empty_count b.
Proof.
  intros Hr. pose proof (reachable_wf b Hr) as Hwf.
  destruct (reachable_no_tip b Hr) as [Htip Hle].
  pose proof (reachable_empty_count b Hr) as Hcount.
  pose proof (count_total (_tiles b) Hwf) as Htotal.
  assert (_score b = None) as Hscore.
  { destruct Hr as [|b0 m b' _ _ Ha]; [done|]. by eapply apply_drops_score. }
  assert (score b = mkScore (count_tile (_tiles b) Tile.BLACK)
                      (count_tile (_tiles b) Tile.WHITE) (_next_to_move b)) as Hs.
  { unfold score. by rewrite Hscore. }
  split; [|split; [lia|split; [|split; [done|]]]].
  - intros x y [Hx Hy]. cbn [fst snd] in *.
    destruct (wf_cell_inside (_tiles b) x y Hwf Hx Hy) as [t Ht].
    exists t. rewrite get_tile_inside by done. split; [done|].
    destruct t; [by left|right; by left|right; by right|].
    apply cell_count in Ht. lia.
  - split; [|done]. rewrite Hcount. unfold count_tile. lia.
  - rewrite Hs. cbn [black_stones white_stones]. lia.
Qed.

Lemma stones_and_counter_add_up_witness :
  count_tile (_tiles midgame_board) Tile.BLACK + count_tile (_tiles midgame_board) Tile.WHITE
  + _empty_count midgame_board = 64.
Proof.
  destruct (stones_and_counter_add_up midgame_board midgame_reachable) as (_ & H & _).
  exact H.
Defined.

(** ** The cached score *)

(** X12. A cached score never outlives its board.  [apply] does not look
    at the score its receiver has cached, the board it returns has none,
    and [score] on that board counts the stones that are on it; reading
    [score] twice gives the same value. *)
Theorem cached_score_is_not_carried_over b m :
  (∀ s, apply (set_score s b) m = apply b m) ∧
  (∀ s, valid_moves (set_score s b) = valid_moves b) ∧
  (∀ b', apply b m = Ok b' →
     _score b' = None ∧
     score b' = mkScore (count_tile (_tiles b') Tile.BLACK)
                  (count_tile (_tiles b') Tile.WHITE) (_next_to_move b')) ∧
  score (score_cached b) = score b ∧
  score_cached (score_cached b) = score_cached b.
Proof.
  split; [done|]. split; [done|]. split; [|split].
  - intros b' Ha. apply apply_drops_score in Ha. unfold score. by rewrite Ha.
  - apply score_cached_same.
  - unfold score_cached at 1 3. by rewrite score_cached_same.
Qed.

(** ** [clear] *)

Lemma set_tile_step g x y t :
  wf_grid g → on_board (x, y) →
  ∃ g', set_tile g x y t = Ok g' ∧ wf_grid g' ∧
    ∀ x' y', get_tile g' x' y' = if decide (x' = x ∧ y' = y) then Some t else get_tile g x' y'.
Proof.
  intros Hwf Hxy. destruct (set_tile_on_board g x y t Hwf Hxy) as [g' Hg'].
  exists g'. split; [done|]. split; [by eapply set_tile_wf|].
  intros x' y'. by apply (get_tile_set_tile g x y t g').
Qed.

Lemma set_tile_same g x y t :
  wf_grid g → on_board (x, y) → get_tile g x y = Some t → set_tile g x y t = Ok g.
Proof.
  intros Hwf Hxy Ht. apply get_tile_Some in Ht as [_ Ht]. unfold cell in Ht.
  destruct (g !! Z.to_nat x) as [row|] eqn:Hrow; [|done].
  rewrite (set_tile_inside g x y t row) by (done || by eapply wf_row).
  by rewrite (list_insert_id row), list_insert_id.
Qed.

(** X13. [clear] on an 8 x 8 board does not raise.  It writes the four
    centre cells and sets the counter to 60; every other cell, the color
    to move and the cached score stay as they were, so it sets up the
    opening position only on a board that was empty, with black to move
    and no score cached.  Clearing twice is clearing once. *)
Theorem clear_writes_the_centre b :
  wf_board b →
  ∃ b', clear b = Ok b' ∧ wf_board b' ∧
    (∀ x y, get_tile (_tiles b') x y
            = if decide ((x = 3 ∧ y = 3) ∨ (x = 4 ∧ y = 4)) then Some Tile.WHITE
              else if decide ((x = 3 ∧ y = 4) ∨ (x = 4 ∧ y = 3)) then Some Tile.BLACK
              else get_tile (_tiles b) x y) ∧
    _empty_count b' = 60 ∧
    _next_to_move b' = _next_to_move b ∧
    _score b' = _score b ∧
    clear b' = Ok b'.
Proof.
  intros Hwf. unfold clear.
  destruct (set_tile_step (_tiles b) 3 3 Tile.WHITE Hwf) as (g1 & -> & Hwf1 & H1);
    [split; simpl; lia|].
  cbn [mbind Exc_bind ebind].
  destruct (set_tile_step g1 4 4 Tile.WHITE Hwf1) as (g2 & -> & Hwf2 & H2);
    [split; simpl; lia|].
  cbn [mbind Exc_bind ebind].
  destruct (set_tile_step g2 3 4 Tile.BLACK Hwf2) as (g3 & -> & Hwf3 & H3);
    [split; simpl; lia|].
  cbn [mbind Exc_bind ebind].
  destruct (set_tile_step g3 4 3 Tile.BLACK Hwf3) as (g4 & -> & Hwf4 & H4);
    [split; simpl; lia|].
  cbn [mbind Exc_bind ebind].
  assert (∀ x y, get_tile g4 x y
            = if decide ((x = 3 ∧ y = 3) ∨ (x = 4 ∧ y = 4)) then Some Tile.WHITE
              else if decide ((x = 3 ∧ y = 4) ∨ (x = 4 ∧ y = 3)) then Some Tile.BLACK
              else get_tile (_tiles b) x y) as Hcells.
  { intros x y. rewrite H4, H3, H2, H1.
    repeat case_decide; try done; exfalso; lia. }
  eexists. split; [done|]. split; [done|]. split; [done|].
  split; [done|]. split; [done|]. split; [done|].
  cbn [_tiles set_empty_count set_tiles].
  rewrite (set_tile_same g4 3 3) by (done || (split; simpl; lia) || by rewrite Hcells).
  cbn [mbind Exc_bind ebind].
  rewrite (set_tile_same g4 4 4) by (done || (split; simpl; lia) || by rewrite Hcells).
  cbn [mbind Exc_bind ebind].
  rewrite (set_tile_same g4 3 4) by (done || (split; simpl; lia) || by rewrite Hcells).
  cbn [mbind Exc_bind ebind].
  rewrite (set_tile_same g4 4 3) by (done || (split; simpl; lia) || by rewrite Hcells).
  done.
Qed.

Lemma clear_writes_the_centre_witness :
  ∃ b', clear midgame_board = Ok b' ∧ _empty_count b' = 60 ∧
        _next_to_move b' = Some Color.BLACK ∧
        get_tile (_tiles b') 5 1 = Some Tile.BLACK.
Proof.
  destruct (clear_writes_the_centre midgame_board (reachable_wf _ midgame_reachable))
    as (b' & Hc & _ & Hcells & Hcount & Hntm & _).
  exists b'. split; [exact Hc|]. split; [exact Hcount|]. split; [exact Hntm|].
  rewrite Hcells. rewrite decide_False by lia. rewrite decide_False by lia. reflexivity.
Defined.

(** ** The weights of [NegaMaxPlayer] *)

Lemma lookup_mirror {A} (l : list A) (i : nat) :
  (i < 2 * length l)%nat →
  (l ++ reverse l) !! i = l !! Nat.min i (2 * length l - 1 - i).
Proof.
  intros Hi. destruct (decide (i < length l)%nat) as [Hlt|Hge].
  - rewrite lookup_app_l by done. f_equal. lia.
  - rewrite lookup_app_r by lia. rewrite reverse_lookup by lia. f_equal. lia.
Qed.

Lemma length_mirror {A} (l : list A) : length (l ++ reverse l) = (2 * length l)%nat.
Proof. rewrite length_app, length_reverse. lia. Qed.

(** X14. The weights are the corner mirrored twice.  From a corner of n
    rows of n weights, [NegaMaxPlayer] builds 2n rows of 2n weights; the
    weight of a cell is the corner's weight at the cell's distances from
    the nearest edges, so the matrix is its own mirror image left to right
    and top to bottom.  A corner of four rows gives an 8 x 8 matrix; no
    corner, or an empty one, gives the default weights. *)
Theorem init_matrix_mirrors_the_corner color depth corner :
  corner ≠ [] → Forall (fun row => length row = length corner) corner →
  let n := length corner in
  let M := _matrix (NegaMaxPlayer_init color depth (Some corner)) in
  length M = (2 * n)%nat ∧
  Forall (fun row => length row = (2 * n)%nat) M ∧
  (∀ i j, (i < 2 * n)%nat → (j < 2 * n)%nat →
     weight M i j = weight corner (Nat.min i (2 * n - 1 - i)) (Nat.min j (2 * n - 1 - j)) ∧
     weight M (2 * n - 1 - i) j = weight M i j ∧
     weight M i (2 * n - 1 - j) = weight M i j) ∧
  (n = 4%nat → wf_matrix M) ∧
  NegaMaxPlayer_init color depth None = NegaMaxPlayer_init color depth (Some SCORE_MATRIX) ∧
  NegaMaxPlayer_init color depth (Some []) = NegaMaxPlayer_init color depth (Some SCORE_MATRIX).
Proof.
  intros Hne Hrows n M.
  assert (M = map (fun row => row ++ reverse row) corner
              ++ reverse (map (fun row => row ++ reverse row) corner)) as HM.
  { unfold M, NegaMaxPlayer_init. by destruct corner. }
  assert (length M = (2 * n)%nat) as Hlen.
  { rewrite HM, length_mirror, length_map. done. }
  assert (∀ i, (i < 2 * n)%nat →
            M !! i = (fun row => row ++ reverse row) <$> corner !! Nat.min i (2 * n - 1 - i))
    as Hrow.
  { intros i Hi. rewrite HM, lookup_mirror by (by rewrite length_map).
    rewrite length_map. apply list_lookup_fmap. }
  assert (∀ i j, (i < 2 * n)%nat → (j < 2 * n)%nat →
            weight M i j
            = weight corner (Nat.min i (2 * n - 1 - i)) (Nat.min j (2 * n - 1 - j))) as Hw.
  { intros i j Hi Hj. unfold weight. rewrite Hrow by done.
    destruct (corner !! Nat.min i (2 * n - 1 - i)) as [row|] eqn:E; [|done].
    cbn [fmap option_fmap option_map mbind option_bind].
    assert (length row = n) as Hr.
    { rewrite Forall_forall in Hrows. apply Hrows, list_elem_of_lookup. eauto. }
    rewrite lookup_mirror by lia. by rewrite Hr. }
  assert (Forall (fun row => length row = (2 * n)%nat) M) as Hall.
  { apply Forall_forall. intros row Hin. apply list_elem_of_lookup in Hin as [i Hi].
    pose proof (lookup_lt_Some _ _ _ Hi) as Hlt. rewrite Hlen in Hlt.
    rewrite Hrow in Hi by done.
    destruct (corner !! Nat.min i (2 * n - 1 - i)) as [row0|] eqn:E; [|done].
    injection Hi as <-. rewrite length_mirror.
    rewrite Forall_forall in Hrows. rewrite (Hrows row0); [done|].
    apply list_elem_of_lookup. eauto. }
  split; [done|]. split; [done|]. split; [|split].
  - intros i j Hi Hj. split; [by apply Hw|]. rewrite !Hw by lia.
    split; f_equal; lia.
  - intros Hn. split; [lia|].
    eapply Forall_impl; [exact Hall|]. intros row Hr. cbn beta in Hr. lia.
  - done.
Qed.

Lemma init_matrix_mirrors_the_corner_witness :
  wf_matrix (_matrix (NegaMaxPlayer_init Color.WHITE 3 (Some SCORE_MATRIX))) ∧
  weight (_matrix (NegaMaxPlayer_init Color.WHITE 3 (Some SCORE_MATRIX))) 6 1
  = weight SCORE_MATRIX 1 1.
Proof.
  destruct (init_matrix_mirrors_the_corner Color.WHITE 3 SCORE_MATRIX)
    as (_ & _ & Hw & Hwf & _); [done|by repeat constructor|].
  split; [by apply Hwf|]. by destruct (Hw 6%nat 1%nat) as [-> _]; [cbn; lia..|].
Defined.

(** ** A game ends *)

Lemma moves_left_pos b : reachable b → 1 <= moves_left b.
Proof.
  intros Hr. pose proof (reachable_wf b Hr) as Hwf.
  pose proof (reachable_empty_count b Hr) as He. unfold moves_left.
  destruct (_valid_moves_for b (Tile.for_color (_next_to_move b))) as [|m l] eqn:E.
  - rewrite He. unfold count_tile. lia.
  - assert (m ∈ _valid_moves_for b (Tile.for_color (_next_to_move b))) as Hin
      by (rewrite E; left).
    apply valid_moves_for_iff in Hin as (x & y & _ & Hcell & _); [|done|apply for_color_stone].
    apply get_tile_Some in Hcell as [_ Hcell]. apply cell_count in Hcell. lia.
Qed.

Lemma for_color_other c :
  Tile.other (Tile.for_color (Some c)) = Tile.for_color (Some (Color.other c)).
Proof. by destruct c. Qed.

Lemma move_decreases b m b' :
  reachable b → m ∈ valid_moves b → apply b m = Ok b' → finished b' = false →
  moves_left b' < moves_left b.
Proof.
  intros Hr Hm Ha Hfin. pose proof (reachable_wf b Hr) as Hwf.
  apply valid_moves_cases in Hm.
  destruct (color_for_color (_next_to_move b)) as [c Hc].
  assert (Tile.for_color (_next_to_move b) = Tile.for_color (Some c)) as Htile.
  { destruct (_next_to_move b) as [[]|]; cbn in Hc; by injection Hc as <-. }
  destruct Hm as [Hin|(-> & Hnil & Hother)].
  - assert (moves_left b = 2 * _empty_count b) as ->.
    { unfold moves_left.
      destruct (_valid_moves_for b (Tile.for_color (_next_to_move b))); [|lia].
      by apply elem_of_nil in Hin. }
    apply valid_moves_for_iff in Hin as (x & y & -> & Hl); [|done|apply for_color_stone].
    pose proof (legal_cell_on_board _ _ _ _ Hl) as Hxy.
    destruct (apply_place b (mkMove (Tile.color (Tile.for_color (_next_to_move b))) x y) c)
      as (g' & Hwf' & Hp & Ha'); [done|done| |done|].
    { destruct Hxy as [? _]. unfold is_skip. simpl in *. lia. }
    rewrite Ha' in Ha. injection Ha as <-. cbn zeta in *.
    destruct (valid_moves _); [done|]. unfold moves_left. cbn [_empty_count].
    destruct (_valid_moves_for _ _); lia.
  - rewrite (apply_skip b _ c) in Ha by done. injection Ha as <-.
    unfold moves_left. rewrite Hnil. cbn [_empty_count _next_to_move].
    rewrite <- for_color_other, <- Htile.
    assert (_valid_moves_for
              (mkBoard (_tiles b) (Some (Color.other c)) None (_empty_count b))
              (Tile.other (Tile.for_color (_next_to_move b)))
            = _valid_moves_for b (Tile.other (Tile.for_color (_next_to_move b)))) as ->
      by done.
    destruct (_valid_moves_for b (Tile.other _)); [done|lia].
Qed.

Section GameEnds.
Context {P : Type} `{Player P}.
Variable good : P → Prop.
Hypothesis good_move : ∀ p b,
  good p → reachable b → _next_to_move b = Some (color_of p) →
  ∃ m p', player_next_move p b = (GOk (Some m), p') ∧ m ∈ valid_moves b ∧
          good p' ∧ color_of p' = color_of p.

Lemma step_plays g :
  seated good g → finished (Game._board g) = false →
  ∃ m g', Game.step g = (GOk (negb (finished (Game._board g'))), g') ∧
    m ∈ valid_moves (Game._board g) ∧ apply (Game._board g) m = Ok (Game._board g') ∧
    Game._last_move g' = Some m ∧ seated good g'.
Proof.
  intros [Hr Hseat] Hfin. unfold Game.step. cbn zeta.
  destruct (_next_to_move (Game._board g)) as [c|] eqn:Hntm;
    [|unfold finished in Hfin; by rewrite Hntm in Hfin].
  destruct (Hseat c) as (p & -> & Hcol & Hp).
  destruct (good_move p (Game._board g) Hp Hr) as (m & p' & -> & Hm & Hp' & Hcol');
    [by rewrite Hcol|].
  destruct (apply_ok (Game._board g) m (reachable_wf _ Hr)) as (b' & Hb' & _).
  { by eapply valid_moves_wf; [apply reachable_wf|]. }
  rewrite Hb'. exists m, (Game.mk b' (<[c:=p']> (Game._players g)) (Some m)).
  split; [done|]. cbn [Game._board Game._last_move].
  split; [done|]. split; [done|]. split; [done|]. split.
  - by eapply reach_apply.
  - intros c'. cbn [Game._players]. destruct (decide (c' = c)) as [->|Hne].
    + exists p'. rewrite lookup_insert_eq. split; [done|]. split; [congruence|done].
    + destruct (Hseat c') as (q & Hq & Hqc & Hqg). exists q.
      by rewrite lookup_insert_ne.
Qed.

Lemma loop_ends n :
  ∀ g, seated good g → finished (Game._board g) = false →
    moves_left (Game._board g) <= Z.of_nat n →
    ∀ fuel, (n ≤ fuel)%nat →
      ∃ g', Game.loop fuel g = Some (GOk tt, g') ∧ seated good g' ∧
            finished (Game._board g') = true ∧ is_Some (Game._last_move g').
Proof.
  induction n as [|n IH]; intros g Hseat Hfin Hleft fuel Hfuel.
  { pose proof (moves_left_pos _ (proj1 Hseat)). lia. }
  destruct fuel as [|fuel]; [lia|]. cbn [Game.loop].
  destruct (step_plays g Hseat Hfin) as (m & g' & -> & Hm & Ha & Hlast & Hseat').
  destruct (finished (Game._board g')) eqn:Hfin'; cbn [negb].
  - exists g'. split; [done|]. split; [done|]. split; [done|]. by rewrite Hlast.
  - apply IH; [done|done| |lia].
    pose proof (move_decreases _ _ _ (proj1 Hseat) Hm Ha Hfin'). lia.
Qed.

Lemma init_seated p1 p2 :
  color_of p1 ≠ color_of p2 → good p1 → good p2 →
  ∃ g0, Game.init (p1, p2) = Ok g0 ∧ Game._board g0 = opening_board ∧
        Game._last_move g0 = None ∧ seated good g0.
Proof.
  intros Hne Hp1 Hp2. eexists. split; [reflexivity|]. split; [reflexivity|].
  split; [reflexivity|]. split; [apply reach_opening|].
  intros c. cbn [Game._players fst snd].
  destruct (decide (c = color_of p2)) as [->|Hc2].
  - exists p2. by rewrite lookup_insert_eq.
  - exists p1. rewrite lookup_insert_ne by done.
    assert (c = color_of p1) as -> by (destruct c, (color_of p1), (color_of p2); done).
    by rewrite lookup_insert_eq.
Qed.

Lemma run_ends g0 :
  seated good g0 → finished (Game._board g0) = false →
  ∀ fuel, (Z.to_nat (moves_left (Game._board g0)) ≤ fuel)%nat →
    ∃ g, Game.run fuel g0 = Some (GOk tt, g) ∧ seated good g ∧
         finished (Game._board g) = true ∧ is_Some (Game._last_move g).
Proof.
  intros Hseat Hfin fuel Hfuel. unfold Game.run.
  edestruct (loop_ends (Z.to_nat (moves_left (Game._board g0))))
    as (g & -> & Hseat' & Hfin' & Hlast); [exact Hseat|exact Hfin| |exact Hfuel|].
  - pose proof (moves_left_pos _ (proj1 Hseat)). lia.
  - exists g. by split.
Qed.
End GameEnds.

Lemma reachable_has_move b c : reachable b → _next_to_move b = Some c → valid_moves b ≠ [].
Proof.
  intros Hr Hntm Hnil. apply valid_moves_nil_iff in Hnil; [|by apply reachable_wf].
  apply (terminal_invariant b Hr) in Hnil. congruence.
Qed.

Lemma repo_players_move_well (p : AI + NegaMaxPlayer) b :
  moves_well p → reachable b → _next_to_move b = Some (color_of p) →
  ∃ m p', player_next_move p b = (GOk (Some m), p') ∧ m ∈ valid_moves b ∧
          moves_well p' ∧ color_of p' = color_of p.
Proof.
  intros Hp Hr Hntm. pose proof (reachable_has_move b _ Hr Hntm) as Hne.
  destruct p as [a|p]; cbn [player_next_move sum_player AI_player NegaMaxPlayer_player].
  - unfold AI_next_move. rewrite getitem_head.
    destruct (valid_moves b) as [|m l]; [done|].
    exists m, (inl a). split; [done|]. split; [left|done].
  - destruct Hp as [Hm Hd]. destruct (depth p) as [|d] eqn:Hdepth; [done|].
    destruct (negamax_best_move (_matrix p) d b (player_color p) Hm (reachable_wf b Hr))
      as (m & Hrun & Hin & _); [unfold finished; by rewrite Hntm|done|].
    unfold next_move. rewrite Hntm. cbn [color_of sum_player NegaMaxPlayer_player].
    rewrite !Hdepth.
    rewrite Hrun. cbn [mbind Exc_bind ebind nr_move nr_score].
    eexists m, (inr _). split; [done|]. split; [done|]. split; [|done].
    cbn [moves_well _matrix depth]. done.
Qed.

(** X15. One round of a game.  When each color has a player that answers
    the boards of a game with one of their valid moves, and the board is
    not finished, [step] does not raise: the player of the color to move
    is asked, its move is recorded as the last move and applied, and the
    call returns whether the new board is unfinished.  The new board is
    again a board of the game and both players are still in place. *)
Theorem step_plays_a_valid_move {P} `{Player P} (good : P → Prop) (g : Game.t P) :
  (∀ p b, good p → reachable b → _next_to_move b = Some (color_of p) →
     ∃ m p', player_next_move p b = (GOk (Some m), p') ∧ m ∈ valid_moves b ∧
             good p' ∧ color_of p' = color_of p) →
  seated good g → finished (Game._board g) = false →
  ∃ m g', Game.step g = (GOk (negb (finished (Game._board g'))), g') ∧
    m ∈ valid_moves (Game._board g) ∧
    apply (Game._board g) m = Ok (Game._board g') ∧
    move_color m = _next_to_move (Game._board g) ∧
    Game._last_move g' = Some m ∧
    seated good g' ∧
    (finished (Game._board g') = false → moves_left (Game._board g') < moves_left (Game._board g)).
Proof.
  intros Hgood Hseat Hfin.
  destruct (step_plays good Hgood g Hseat Hfin) as (m & g' & Hstep & Hm & Ha & Hlast & Hseat').
  exists m, g'. split; [done|]. split; [done|]. split; [done|]. split; [|split; [done|]].
  - pose proof (reachable_wf _ (proj1 Hseat)) as Hwf.
    apply valid_moves_cases in Hm.
    assert (move_color m = Tile.color (Tile.for_color (_next_to_move (Game._board g)))) as ->.
    { destruct Hm as [Hin|(-> & _)]; [|done].
      apply valid_moves_for_iff in Hin as (x & y & -> & _); [done|done|apply for_color_stone]. }
    unfold finished in Hfin. by destruct (_next_to_move (Game._board g)) as [[]|].
  - split; [done|]. intros Hfin'. by eapply move_decreases; [apply Hseat|..].
Qed.

Lemma step_plays_a_valid_move_witness :
  ∃ m g' g0, Game.init (inl (AI_init Color.BLACK), inr (NegaMaxPlayer_init Color.WHITE 2 None))
             = Ok g0 ∧
    Game.step g0 = (GOk (negb (finished (Game._board g'))), g') ∧
    m ∈ valid_moves opening_board.
Proof.
  destruct (init_seated moves_well (inl (AI_init Color.BLACK))
              (inr (NegaMaxPlayer_init Color.WHITE 2 None)))
    as (g0 & Hinit & Hboard & _ & Hseat); [done|done|split; [apply default_matrix_wf|done]|].
  destruct (step_plays_a_valid_move moves_well g0 repo_players_move_well Hseat)
    as (m & g' & Hstep & Hm & _); [by rewrite Hboard|].
  exists m, g', g0. split; [exact Hinit|]. split; [exact Hstep|]. by rewrite <- Hboard.
Defined.

(** X16. A game ends.  When the two players have different colors and
    answer the boards of a game with one of their valid moves, [Game] sets
    up the opening position and [run] returns without raising after at
    most 120 rounds: the board is then a finished board of the game, and
    the last move is recorded.  From any unfinished board of a game the
    rounds still needed are at most twice the empty cells plus one. *)
Theorem run_ends_on_a_finished_board {P} `{Player P} (good : P → Prop) (p1 p2 : P) :
  (∀ p b, good p → reachable b → _next_to_move b = Some (color_of p) →
     ∃ m p', player_next_move p b = (GOk (Some m), p') ∧ m ∈ valid_moves b ∧
             good p' ∧ color_of p' = color_of p) →
  color_of p1 ≠ color_of p2 → good p1 → good p2 →
  (∃ g0, Game.init (p1, p2) = Ok g0 ∧ Game._board g0 = opening_board ∧
     ∀ fuel, (120 ≤ fuel)%nat →
       ∃ g, Game.run fuel g0 = Some (GOk tt, g) ∧ reachable (Game._board g) ∧
            finished (Game._board g) = true ∧ is_Some (Game._last_move g)) ∧
  (∀ g0, seated good g0 → finished (Game._board g0) = false →
     ∀ fuel, 2 * _empty_count (Game._board g0) + 1 <= Z.of_nat fuel →
       ∃ g, Game.run fuel g0 = Some (GOk tt, g) ∧ reachable (Game._board g) ∧
            finished (Game._board g) = true ∧ is_Some (Game._last_move g)).
Proof.
  intros Hgood Hne Hp1 Hp2. split.
  - destruct (init_seated good p1 p2 Hne Hp1 Hp2) as (g0 & Hinit & Hboard & _ & Hseat).
    exists g0. split; [done|]. split; [done|]. intros fuel Hfuel.
    destruct (run_ends good Hgood g0 Hseat) with (fuel := fuel)
      as (g & Hrun & [Hr _] & Hfin & Hlast); [by rewrite Hboard| |by exists g].
    rewrite Hboard. by vm_compute.
  - intros g0 Hseat Hfin fuel Hfuel.
    destruct (run_ends good Hgood g0 Hseat Hfin) with (fuel := fuel)
      as (g & Hrun & [Hr _] & Hfin' & Hlast); [|by exists g].
    unfold moves_left. destruct (_valid_moves_for _ _); lia.
Qed.

Lemma run_ends_on_a_finished_board_witness :
  ∃ g0 g, Game.init (inl (AI_init Color.BLACK), inr (NegaMaxPlayer_init Color.WHITE 2 None))
          = Ok g0 ∧
    Game.run 120 g0 = Some (GOk tt, g) ∧ finished (Game._board g) = true.
Proof.
  destruct (run_ends_on_a_finished_board moves_well (inl (AI_init Color.BLACK))
              (inr (NegaMaxPlayer_init Color.WHITE 2 None)) repo_players_move_well)
    as [(g0 & Hinit & _ & Hrun) _]; [done|done|split; [apply default_matrix_wf|done]|].
  destruct (Hrun 120%nat) as (g & Hg & _ & Hfin & _); [lia|].
  exists g0, g. split; [exact Hinit|]. split; [exact Hg|exact Hfin].
Defined.

Lemma init_eq {P} `{Player P} (p1 p2 : P) :
  Game.init (p1, p2)
  = Ok (Game.mk opening_board (<[color_of p2 := p2]> (<[color_of p1 := p1]> ∅)) None).
Proof. reflexivity. Qed.

(** X17. How a game stops early.  However many rounds are allowed:
    [run] ends with [KeyError], the game untouched, when the board is
    finished or the color to move has no player, as when both players are
    white; an [InterruptedError] of the player to move ends [run] without
    an exception, the board and the last move as they were; and a
    [NegaMaxPlayer] of depth 0 that is to move gives no move, so that
    [run] ends with [AttributeError], the board as it was and no last
    move. *)
Theorem run_stops_early {P} `{Player P} (g : Game.t P) (fuel : nat) :
  (finished (Game._board g) = true → Game.run (S fuel) g = Some (GRaise KeyError, g)) ∧
  (∀ c, _next_to_move (Game._board g) = Some c → Game._players g !! c = None →
     Game.run (S fuel) g = Some (GRaise KeyError, g)) ∧
  (∀ p1 p2, color_of p1 = Color.WHITE → color_of p2 = Color.WHITE →
     ∃ g0, Game.init (p1, p2) = Ok g0 ∧ Game.run (S fuel) g0 = Some (GRaise KeyError, g0)) ∧
  (∀ c p p', _next_to_move (Game._board g) = Some c → Game._players g !! c = Some p →
     player_next_move p (Game._board g) = (GRaise InterruptedError, p') →
     Game.run (S fuel) g
     = Some (GOk tt, Game.mk (Game._board g) (<[c:=p']> (Game._players g))
                       (Game._last_move g))) ∧
  (∀ (p q : NegaMaxPlayer), player_color p = Color.BLACK → player_color q = Color.WHITE →
     depth p = O →
     ∃ g0 g1, Game.init (p, q) = Ok g0 ∧
       Game.run (S fuel) g0 = Some (GRaise (Engine AttributeError), g1) ∧
       Game._board g1 = opening_board ∧ Game._last_move g1 = None).
Proof.
  split; [|split; [|split; [|split]]].
  - intros Hfin. unfold Game.run, Game.loop, Game.step, finished in *. cbn zeta.
    by destruct (_next_to_move (Game._board g)).
  - intros c Hntm Hnone. unfold Game.run, Game.loop, Game.step. cbn zeta.
    by rewrite Hntm, Hnone.
  - intros p1 p2 H1 H2. eexists. split; [apply init_eq|].
    unfold Game.run, Game.loop, Game.step. cbn [Game._board Game._players fst snd].
    cbn [_next_to_move opening_board]. rewrite H1, H2.
    by rewrite insert_insert_eq, lookup_insert_ne.
  - intros c p p' Hntm Hp Hraise. unfold Game.run, Game.loop, Game.step. cbn zeta.
    by rewrite Hntm, Hp, Hraise.
  - intros p q Hp Hq Hd. eexists. eexists. split; [apply init_eq|].
    unfold Game.run, Game.loop, Game.step. cbn [Game._board Game._players fst snd].
    cbn [_next_to_move opening_board]. cbn [color_of NegaMaxPlayer_player].
    rewrite Hp, Hq, lookup_insert_ne, lookup_insert_eq by done.
    cbn [player_next_move NegaMaxPlayer_player]. unfold next_move. rewrite Hd.
    cbn [_negamax mbind Exc_bind ebind nr_move]. done.
Qed.

(** ** Which of the best moves is played *)

Lemma sort_desc_sorted {A} (l : list (Z * A)) : sorted_desc (sort_desc l).
Proof.
  induction l as [|item l IH]; [done|]. cbn [sort_desc foldr].
  change (foldr insert_desc [] l) with (sort_desc l).
  induction (sort_desc l) as [|head tail IHtail]; cbn [insert_desc]; [done|].
  destruct IH as [Hall Hs]. destruct (head.1 <=? item.1) eqn:E.
  - split; [|done]. constructor; [lia|].
    eapply Forall_impl; [exact Hall|]. intros x Hx. cbn beta in *. lia.
  - split; [|by apply IHtail]. rewrite insert_desc_perm. constructor; [lia|done].
Qed.

(** Where [insert_desc] puts the item: after the heavier ones. *)
Lemma insert_desc_split {A} (item : Z * A) l :
  ∃ l1 l2, l = l1 ++ l2 ∧ insert_desc item l = l1 ++ item :: l2 ∧
    Forall (fun x => item.1 < x.1) l1 ∧
    (sorted_desc l → Forall (fun x => x.1 <= item.1) l2).
Proof.
  induction l as [|head tail IH]; cbn [insert_desc].
  - exists [], []. by repeat split.
  - destruct (head.1 <=? item.1) eqn:E.
    + exists [], (head :: tail). split; [done|]. split; [done|]. split; [done|].
      intros [Hall _].
      constructor; [lia|]. eapply Forall_impl; [exact Hall|]. intros x Hx. cbn beta in *. lia.
    + destruct IH as (l1 & l2 & -> & -> & H1 & H2).
      exists (head :: l1), l2. split; [done|]. split; [done|].
      split; [constructor; [lia|done]|].
      intros [_ Hs]. by apply H2.
Qed.

(** The first item of the sorted list that satisfies [P], told from the
    list as it was: no item that satisfies [P] is heavier, and none that
    is as heavy comes before it. *)
Lemma sorted_head {A} (P : Z * A → Prop) `{∀ x, Decision (P x)} (l : list (Z * A)) x :
  head (filter P (sort_desc l)) = Some x →
  ∃ i, l !! i = Some x ∧ P x ∧
    ∀ j y, l !! j = Some y → P y → y.1 < x.1 ∨ (y.1 = x.1 ∧ (i ≤ j)%nat).
Proof.
  revert x. induction l as [|item l IH]; intros x; [done|].
  cbn [sort_desc foldr]. change (foldr insert_desc [] l) with (sort_desc l).
  destruct (insert_desc_split item (sort_desc l)) as (l1 & l2 & Hsplit & -> & H1 & H2).
  specialize (H2 (sort_desc_sorted l)).
  rewrite Hsplit in IH. rewrite filter_app in IH |- *. rewrite filter_cons.
  destruct (filter P l1) as [|a F1] eqn:E1.
  - cbn [app] in *. destruct (decide (P item)) as [Hp|Hp].
    + intros [= <-]. exists O. split; [done|]. split; [done|].
      intros [|j] y Hj Hy.
      * injection Hj as <-. right. split; [done|lia].
      * assert (y ∈ sort_desc l) as Hin.
        { apply elem_of_sort_desc, list_elem_of_lookup. eauto. }
        rewrite Hsplit in Hin. apply elem_of_app in Hin as [Hin|Hin].
        -- assert (y ∈ filter P l1) as Hf by (by apply list_elem_of_filter).
           rewrite E1 in Hf. by apply elem_of_nil in Hf.
        -- rewrite Forall_forall in H2. apply H2 in Hin. cbn beta in Hin.
           destruct (decide (y.1 = item.1)); [right; split; [done|lia]|left; lia].
    + intros Hx. destruct (IH x Hx) as (i & Hi & Hpx & Hmin).
      exists (S i). split; [done|]. split; [done|].
      intros [|j] y Hj Hy.
      * by injection Hj as <-.
      * destruct (Hmin j y Hj Hy) as [?|[? ?]]; [by left|right; split; [done|lia]].
  - cbn [app head]. intros [= <-].
    destruct (IH a eq_refl) as (i & Hi & Hpa & Hmin).
    exists (S i). split; [done|]. split; [done|].
    assert (item.1 < a.1) as Hw.
    { assert (a ∈ filter P l1) as Hin by (rewrite E1; left).
      apply list_elem_of_filter in Hin as [_ Hin].
      rewrite Forall_forall in H1. by apply H1. }
    intros [|j] y Hj Hy.
    + injection Hj as <-. by left.
    + destruct (Hmin j y Hj Hy) as [?|[? ?]]; [by left|right; split; [done|lia]].
Qed.

Lemma first_best_head t V (items : list (Z * Move)) :
  first_best t V items = snd <$> head (filter (fun item => t item.2 = V) items).
Proof.
  induction items as [|item items IH]; [done|]. cbn [first_best]. rewrite filter_cons.
  by destruct (decide (t item.2 = V)).
Qed.

Lemma with_preference_items matrix moves items :
  with_preference matrix moves = Ok items →
  Forall2 (fun m item => item.2 = m ∧ preference matrix m = Ok item.1) moves items.
Proof.
  revert items. induction moves as [|m moves IH]; intros items; cbn [with_preference].
  - intros [= <-]. constructor.
  - destruct (getitem matrix (move_x m)) as [row|] eqn:Hrow; [|done].
    cbn [mbind Exc_bind ebind].
    destruct (getitem row (move_y m)) as [w|] eqn:Hw; [|done]. cbn [ebind].
    destruct (with_preference matrix moves) as [items'|]; [|done]. cbn [ebind].
    intros [= <-]. constructor; [|by apply IH].
    split; [done|]. unfold preference. rewrite Hrow. cbn [mbind Exc_bind ebind]. by rewrite Hw.
Qed.

Lemma negamax_first_best matrix d b c :
  wf_matrix matrix → wf_board b → finished b = false → valid_moves b ≠ [] →
  ∃ items, with_preference matrix (valid_moves b) = Ok items ∧
    (∀ m, m ∈ valid_moves b →
       - minimax matrix d (child b m) (Color.other c) <= minimax matrix (S d) b c) ∧
    _negamax matrix (S d) b None None (Some c)
    = Ok (mkResult (Some (minimax matrix (S d) b c))
            (first_best (fun m => - minimax matrix d (child b m) (Color.other c))
               (minimax matrix (S d) b c) (sort_desc items))).
Proof.
  intros Hm Hwf Hfin Hne.
  destruct (ordered_moves matrix Hm b Hwf) as (items & Hitems & Hsame & Hgood).
  exists items. split; [done|].
  rewrite (negamax_step matrix d b None None c items) by done.
  pose proof (minimax_step matrix d b c items Hfin Hne Hsame) as Hmax.
  apply maxl_spec in Hmax as [Hall Hex].
  split; [intros m Hin; apply (Hall m); by apply Hsame|].
  assert (∃ item, item ∈ sort_desc items ∧
            move_value (fun ch => minimax matrix d ch (Color.other c)) b item.2
            = minimax matrix (S d) b c) as Hex'.
  { destruct Hex as (m & (item & -> & Hin)%list_elem_of_fmap & Hv). by exists item. }
  pose proof (loop_exact (_negamax matrix d)
                (fun ch => minimax matrix d ch (Color.other c)) wf_board b c None None
                ltac:(intros; by apply negamax_fail_soft) I (sort_desc items) None None
                (minimax matrix (S d) b c) Hgood ltac:(done)
                ltac:(intros item Hin; apply Hall, list_elem_of_fmap; by exists item)
                Hex' I I) as Hloop.
  change (raised None None) with (@None Z) in Hloop. by rewrite Hloop.
Qed.

(** X18. Which of the best moves is played.  On an 8 x 8 board with a
    color to move and a valid move, a player of depth d + 1 returns the
    move of [valid_moves] whose exact value is largest; among the moves of
    that value, one whose cell has the largest weight in the player's
    matrix; and among those, the one that [valid_moves] lists first. *)
Theorem next_move_breaks_ties_by_weight self b c d :
  wf_matrix (_matrix self) → wf_board b → _next_to_move b = Some c →
  valid_moves b ≠ [] → depth self = S d →
  ∃ i m w s,
    next_move self b
    = Ok (Some m, mkPlayer (player_color self) (S d) (_matrix self) (Some s)) ∧
    valid_moves b !! i = Some m ∧
    preference (_matrix self) m = Ok w ∧
    s = - minimax (_matrix self) d (child b m) (Color.other c) ∧
    ∀ j m', valid_moves b !! j = Some m' →
      - minimax (_matrix self) d (child b m') (Color.other c) <= s ∧
      ∃ w', preference (_matrix self) m' = Ok w' ∧
        (- minimax (_matrix self) d (child b m') (Color.other c) = s →
         w' < w ∨ (w' = w ∧ (i ≤ j)%nat)).
Proof.
  intros Hm Hwf Hntm Hne Hd. unfold next_move. rewrite Hntm, Hd.
  destruct (negamax_first_best (_matrix self) d b c Hm Hwf) as (items & Hitems & Hle & ->);
    [unfold finished; by rewrite Hntm|done|].
  cbn [mbind Exc_bind ebind nr_move nr_score].
  pose proof (with_preference_items _ _ _ Hitems) as Hall.
  set (V := minimax (_matrix self) (S d) b c) in *.
  set (t := fun m => - minimax (_matrix self) d (child b m) (Color.other c)) in *.
  rewrite first_best_head.
  destruct (head (filter (fun item => t item.2 = V) (sort_desc items))) as [x|] eqn:Hhead.
  2:{ exfalso.
      assert (maxl t (valid_moves b) None = Some V) as Hmax.
      { unfold V. cbn [minimax]. unfold finished. rewrite Hntm.
        fold t. destruct (maxl t (valid_moves b) None) eqn:E; [done|].
        by apply maxl_nil in E. }
      apply maxl_spec in Hmax as [_ (m & Hin & Hv)].
      apply list_elem_of_lookup in Hin as [j Hj].
      destruct (Forall2_lookup_l _ _ _ _ _ Hall Hj) as (y & Hy & Hy2 & _).
      assert (y ∈ filter (fun item => t item.2 = V) (sort_desc items)) as Hin.
      { apply list_elem_of_filter. split; [by rewrite Hy2|].
        apply elem_of_sort_desc, list_elem_of_lookup. eauto. }
      destruct (filter _ (sort_desc items)); [by apply elem_of_nil in Hin|done]. }
  destruct (sorted_head _ items x Hhead) as (i & Hi & Hx & Hmin).
  destruct (Forall2_lookup_r _ _ _ _ _ Hall Hi) as (m & Hmi & Hm2 & Hpref).
  exists i, m, x.1, V. cbn [fmap option_fmap option_map]. rewrite Hm2.
  split; [done|]. split; [done|]. split; [done|]. split; [by rewrite <- Hm2|].
  intros j m' Hj. split; [apply Hle, list_elem_of_lookup; eauto|].
  destruct (Forall2_lookup_l _ _ _ _ _ Hall Hj) as (y & Hy & Hy2 & Hprefy).
  exists y.1. split; [done|]. intros Hv. apply (Hmin j y Hy). by rewrite Hy2.
Qed.

Lemma next_move_breaks_ties_by_weight_witness :
  ∃ i m w s,
    next_move (NegaMaxPlayer_init Color.BLACK 1 None) opening_board
    = Ok (Some m, mkPlayer Color.BLACK 1 default_matrix (Some s)) ∧
    valid_moves opening_board !! i = Some m ∧ preference default_matrix m = Ok w.
Proof.
  destruct (next_move_breaks_ties_by_weight (NegaMaxPlayer_init Color.BLACK 1 None)
              opening_board Color.BLACK 0 default_matrix_wf opening_wf eq_refl)
    as (i & m & w & s & Hrun & Hi & Hw & _); [by vm_compute|done|].
  by exists i, m, w, s.
Defined.

(** ** The boards of the search share no row *)

Lemma apply_owned h self move c h' :
  Obj.apply self move h = (Ok c, h') → owned h c h'.
Proof.
  destruct (clone_owned h self) as [_ Hown].
  unfold Obj.apply, mbind, ST_bind, st_bind.
  destruct (Obj._clone self h) as [[c0|e] h1]; cbn in *; [|done].
  specialize (Hown c0 eq_refl).
  pose proof (owned_apply_destructive h c0 move h1 Hown) as Hown'.
  destruct (Obj._apply_destructive c0 move h1) as [r h2] eqn:Hrun. cbn in Hown'.
  intros [= -> ->].
  assert (c = c0) as -> by (apply (apply_destructive_returns_self c0 move h1); by rewrite Hrun).
  done.
Qed.

Lemma rep_extends h h' c b : rep h c b → extends h h' → rep h' c b.
Proof.
  intros (o & Ho & Hnd & Hrows & Hf) [Hr Hb]. exists o. split; [by apply Hb|].
  split; [done|]. split; [|done].
  eapply Forall2_impl; [exact Hrows|]. intros r row. apply Hr.
Qed.

Lemma apply_rep h self b move b' :
  holds h self b → apply b move = Ok b' →
  ∃ c h', Obj.apply self move h = (Ok c, h') ∧ rep h' c b' ∧ c ≠ self.
Proof.
  intros Hholds Ha. destruct (clone_rep h self b Hholds) as (c & h1 & Hclone & Hrep & Hne).
  pose proof (rep_apply_destructive h1 c (_clone b) move Hrep) as Hstep.
  unfold apply in Ha. rewrite Ha in Hstep. destruct Hstep as (h' & Hrun & Hrep').
  exists c, h'. unfold Obj.apply. rewrite (st_bind_ok _ _ _ _ _ Hclone). by split.
Qed.

(** X19. The boards of the search share nothing.  On a store where the
    object [self] reads as an 8 x 8 board b, two calls of [apply] on
    [self], one after the other, with moves of the data model, return two
    different new objects that read as [apply b m1] and [apply b m2];
    [self] still reads b; and no row object belongs to both, or to one of
    them and to an object that was in the store before. *)
Theorem applied_boards_share_no_row h self b m1 m2 :
  holds h self b → wf_board b → wf_move m1 → wf_move m2 →
  ∃ c1 h1 c2 h2 b1 b2,
    Obj.apply self m1 h = (Ok c1, h1) ∧ Obj.apply self m2 h1 = (Ok c2, h2) ∧
    apply b m1 = Ok b1 ∧ apply b m2 = Ok b2 ∧
    c1 ≠ c2 ∧ c1 ≠ self ∧ c2 ≠ self ∧
    rep h2 c1 b1 ∧ rep h2 c2 b2 ∧ holds h2 self b ∧
    ∀ o1 o2, st_boards h2 !! c1 = Some o1 → st_boards h2 !! c2 = Some o2 →
      ∀ r, r ∈ o_tiles o1 ∨ r ∈ o_tiles o2 →
        st_rows h !! r = None ∧ ¬ (r ∈ o_tiles o1 ∧ r ∈ o_tiles o2).
Proof.
  intros Hholds Hwf Hm1 Hm2.
  destruct (apply_ok b m1 Hwf Hm1) as (b1 & Hb1 & _).
  destruct (apply_ok b m2 Hwf Hm2) as (b2 & Hb2 & _).
  destruct (apply_rep h self b m1 b1 Hholds Hb1) as (c1 & h1 & Hrun1 & Hrep1 & Hne1).
  pose proof (apply_owned _ _ _ _ _ Hrun1) as (Hext1 & Hnew1 & o1 & Ho1 & Hrows1).
  pose proof (holds_extends _ _ _ _ Hholds Hext1) as Hholds1.
  destruct (apply_rep h1 self b m2 b2 Hholds1 Hb2) as (c2 & h2 & Hrun2 & Hrep2 & Hne2).
  pose proof (apply_owned _ _ _ _ _ Hrun2) as (Hext2 & Hnew2 & o2 & Ho2 & Hrows2).
  exists c1, h1, c2, h2, b1, b2.
  split; [done|]. split; [done|]. split; [done|]. split; [done|].
  split; [intros ->; congruence|]. split; [done|]. split; [done|].
  split; [by eapply rep_extends|]. split; [done|]. split; [by eapply holds_extends|].
  intros o1' o2' Ho1' Ho2' r Hr.
  assert (o1' = o1) as -> by (destruct Hext2 as [_ Hb]; apply Hb in Ho1; congruence).
  assert (o2' = o2) as -> by congruence.
  rewrite Forall_forall in Hrows1, Hrows2.
  assert (r ∈ o_tiles o1 → is_Some (st_rows h1 !! r)) as Hin1.
  { intros Hin. destruct Hrep1 as (o & Ho & _ & Hrows & _).
    assert (o = o1) as -> by congruence.
    apply list_elem_of_lookup in Hin as [i Hi].
    destruct (Forall2_lookup_l _ _ _ _ _ Hrows Hi) as (row & _ & Hrow). eauto. }
  split.
  - destruct Hr as [Hr|Hr]; [by apply Hrows1|].
    apply Hrows2 in Hr. by eapply extends_fresh_row.
  - intros [Hr1 Hr2]. apply Hin1 in Hr1 as [row Hrow]. apply Hrows2 in Hr2. congruence.
Qed.

Lemma applied_boards_share_no_row_witness :
  ∃ c1 h1 c2 h2,
    Obj.apply 0%nat (mkMove (Some Color.BLACK) 2 3) opening_store = (Ok c1, h1) ∧
    Obj.apply 0%nat (mkMove (Some Color.BLACK) 3 2) h1 = (Ok c2, h2) ∧ c1 ≠ c2.
Proof.
  destruct (applied_boards_share_no_row opening_store 0%nat opening_board
              (mkMove (Some Color.BLACK) 2 3) (mkMove (Some Color.BLACK) 3 2)
              opening_store_holds opening_wf)
    as (c1 & h1 & c2 & h2 & _ & _ & H1 & H2 & _ & _ & Hne & _).
  - split; [by eexists|]. right. split; cbn; lia.
  - split; [by eexists|]. right. split; cbn; lia.
  - exists c1, h1, c2, h2. split; [exact H1|]. split; [exact H2|exact Hne].
Defined.
